(** * Verification of the match-collection engine (scripts/fetch_eune_matches.py)

    A shallow embedding of the rate limiter, the retrying HTTP client, the
    bundle store and the orchestrator loop, followed by the properties
    proved about them.

    Modelling conventions
    - Python ints are [Z]; timestamps and sleep lengths (Python floats) are
      exact rationals [Q]: rounding is not modelled.
    - [time.time()], the remote API, the process environment and the file
      system form the [world]; every function that touches them is a
      state transformer over that record.
    - Values are taken at their annotated types ([List[str]], [Dict]); the
      few places where a document of another shape reaches a string format
      are reported with the exception [IllTyped].
    - Paths are texts, joined and rendered as [pathlib] does on POSIX; the
      file system is keyed by the rendered text.  Two texts that name one
      file (an absolute and a relative path, a path through [..] or a
      symbolic link) are not identified, and directories are not modelled.
    - Logging calls have no effect on any result and are left out. *)

From Stdlib Require Import ZArith QArith Lqa Lia List Bool Ascii String.
From stdpp Require Import base option list strings gmap.

Set Warnings "-register-all".
Local Open Scope Z_scope.

(** ** 1. RiotRateLimiter *)

Module Limiter.

Record RiotRateLimiter := {
  per_second : Z;
  per_two_minutes : Z;
  second_window : list Q;       (* deque, oldest timestamp first *)
  two_minute_window : list Q
}.

(** [__init__] *)
Definition init (per_second per_two_minutes : Z) : RiotRateLimiter :=
  {| per_second := per_second; per_two_minutes := per_two_minutes;
     second_window := []; two_minute_window := [] |}.

Definition default : RiotRateLimiter := init 18 95.

(** [while w and now - w[0] >= span: w.popleft()] *)
Fixpoint popleft_expired (span now : Q) (w : list Q) : list Q :=
  match w with
  | [] => []
  | t :: w' => if Qle_bool span (now - t) then popleft_expired span now w' else w
  end.

Definition _trim_windows (l : RiotRateLimiter) (now : Q) : RiotRateLimiter :=
  {| per_second := per_second l; per_two_minutes := per_two_minutes l;
     second_window := popleft_expired 1 now (second_window l);
     two_minute_window := popleft_expired 120 now (two_minute_window l) |}.

(** Python's [max] on two floats. *)
Definition qmax (a b : Q) : Q := if Qle_bool b a then a else b.

Definition qmax_list (d : Q) (l : list Q) : Q :=
  match l with
  | [] => d
  | x :: l' => fold_left qmax l' x
  end.

Definition _calculate_sleep (l : RiotRateLimiter) (now : Q) : Q :=
  let waits1 :=
    match second_window l with
    | [] => []
    | t :: _ => [qmax (5 # 100) (1 - (now - t))]
    end in
  let waits2 :=
    match two_minute_window l with
    | [] => []
    | t :: _ => [qmax (5 # 100) (120 - (now - t))]
    end in
  qmax_list (5 # 100) (waits1 ++ waits2).

(** The test of the [if] in [wait], on the trimmed windows. *)
Definition has_room (l : RiotRateLimiter) : bool :=
  (Z.of_nat (length (second_window l)) <? per_second l)
  && (Z.of_nat (length (two_minute_window l)) <? per_two_minutes l).

Definition record_admission (l : RiotRateLimiter) (now : Q) : RiotRateLimiter :=
  {| per_second := per_second l; per_two_minutes := per_two_minutes l;
     second_window := second_window l ++ [now];
     two_minute_window := two_minute_window l ++ [now] |}.

(** One pass through the body of [while True] in [wait], at clock reading
    [now]: either the call returns ([None]) or it sleeps ([Some sleep_for])
    and goes round again. *)
Definition wait_iteration (l : RiotRateLimiter) (now : Q)
  : RiotRateLimiter * option Q :=
  let l1 := _trim_windows l now in
  if has_room l1 then (record_admission l1 now, None)
  else (l1, Some (_calculate_sleep l1 now)).

(** [wait].  [clock] lists the values the coming calls of [time.time()]
    return.  The result is [None] when the loop is still running after the
    last of them; otherwise the admitted timestamp, the limiter, the unread
    part of the clock and the sleeps performed (in order). *)
Fixpoint wait (l : RiotRateLimiter) (clock : list Q)
  : option (Q * RiotRateLimiter * list Q * list Q) :=
  match clock with
  | [] => None
  | now :: clock' =>
      match wait_iteration l now with
      | (l', None) => Some (now, l', clock', [])
      | (l', Some s) =>
          match wait l' clock' with
          | Some (t, l'', rest, sl) => Some (t, l'', rest, s :: sl)
          | None => None
          end
      end
  end.

(** [n] successive calls of [wait] on one limiter; the timestamps admitted,
    in call order, and the final limiter.  A call that has not returned by
    the end of [clock] admits nothing. *)
Fixpoint wait_calls (n : nat) (l : RiotRateLimiter) (clock : list Q)
  : list Q * RiotRateLimiter :=
  match n with
  | O => ([], l)
  | S n' =>
      match wait l clock with
      | None => ([], l)
      | Some (t, l', rest, _) =>
          let '(ts, l'') := wait_calls n' l' rest in (t :: ts, l'')
      end
  end.

(** Number of timestamps of [ts] in the half-open window [[a, a + span)]. *)
Definition in_window (span a t : Q) : bool :=
  Qle_bool a t && negb (Qle_bool (a + span) t).

Definition window_count (span a : Q) (ts : list Q) : Z :=
  Z.of_nat (length (List.filter (in_window span a) ts)).

(** Timestamps of [ts] that [_trim_windows] keeps at [now]. *)
Definition live (span now : Q) (t : Q) : bool := negb (Qle_bool span (now - t)).

Definition live_count (span now : Q) (ts : list Q) : Z :=
  Z.of_nat (length (List.filter (live span now) ts)).

(** Successive clock readings never go back. *)
Fixpoint nondecreasing (clock : list Q) : Prop :=
  match clock with
  | [] => True
  | t :: clock' => (forall u, In u clock' -> t <= u)%Q /\ nondecreasing clock'
  end.

(** What the deques hold between two iterations of [wait], in terms of
    the timestamps [adm] admitted so far and the latest clock reading [lo]. *)
Record Inv (l : RiotRateLimiter) (adm : list Q) (lo : Q) : Prop := {
  inv_sorted : nondecreasing adm;
  inv_past : forall s, In s adm -> (s <= lo)%Q;
  inv_second : second_window l = List.filter (live 1 lo) adm;
  inv_two : two_minute_window l = List.filter (live 120 lo) adm
}.

(** At time [t], fewer than [c1] of the timestamps [adm] lie in the last
    time unit and fewer than [c2] in the last 120. *)
Definition under_capacity (c1 c2 : Z) (adm : list Q) (t : Q) : Prop :=
  live_count 1 t adm < c1 /\ live_count 120 t adm < c2.

(** Every timestamp of [ts] was admitted under capacity. *)
Definition admissible (c1 c2 : Z) (ts : list Q) : Prop :=
  forall pre t post, ts = pre ++ t :: post -> under_capacity c1 c2 pre t.

End Limiter.

(** ** 2. Python values *)

(** A parsed JSON document, as [json.loads] / [response.json()] build it.
    An object is the list of its items (keys distinct). *)
Inductive json :=
| JNull
| JBool (b : bool)
| JInt (z : Z)
| JFloat (q : Q)
| JStr (s : string)
| JArr (l : list json)
| JObj (kv : list (string * json)).

(** A Python float that may be non-finite (the result of [float(str)]). *)
Inductive pyfloat := Fin (q : Q) | PosInf | NegInf | NaN.

Inductive runtime_error :=
| RequestFailed (status : Z) (url : string) (text : string)
| GivingUp (url : string) (retries : Z).

Inductive exn :=
| RuntimeError (r : runtime_error)
| ValueError
| TypeError
| AttributeError
| OverflowError
| JSONDecodeError
| RequestException
| IllTyped.

Definition is_RuntimeError (e : exn) : bool :=
  match e with RuntimeError _ => true | _ => false end.

(** Truth value of a document ([if x:], [not x], [x or y]). *)
Definition truthy (v : json) : bool :=
  match v with
  | JNull => false
  | JBool b => b
  | JInt z => negb (z =? 0)
  | JFloat q => negb (Qeq_bool q 0)
  | JStr s => negb (String.eqb s "")
  | JArr l => match l with [] => false | _ => true end
  | JObj kv => match kv with [] => false | _ => true end
  end.

Fixpoint assoc (k : string) (kv : list (string * json)) : option json :=
  match kv with
  | [] => None
  | (k', v) :: kv' => if String.eqb k k' then Some v else assoc k kv'
  end.

(** [d.get(k, default)]; only a dict has the method. *)
Definition py_get (d : json) (k : string) (default : json) : exn + json :=
  match d with
  | JObj kv => inr (match assoc k kv with Some v => v | None => default end)
  | _ => inl AttributeError
  end.

(** [v == n] for an int [n]: numbers compare by value across int, float
    and bool; nothing else equals an int. *)
Definition py_eq_int (v : json) (n : Z) : bool :=
  match v with
  | JInt z => z =? n
  | JFloat q => Qeq_bool q (inject_Z n)
  | JBool b => (if b then 1 else 0) =? n
  | _ => false
  end.

(** Iterating a document ([for x in v]): a list yields its elements, a dict
    its keys, a string its characters; the rest is not iterable. *)
Fixpoint chars (s : string) : list json :=
  match s with
  | EmptyString => []
  | String c s' => JStr (String c EmptyString) :: chars s'
  end.

Definition py_iter (v : json) : exn + list json :=
  match v with
  | JArr l => inr l
  | JObj kv => inr (map (fun p => JStr (fst p)) kv)
  | JStr s => inr (chars s)
  | _ => inl TypeError
  end.

(** The elements as strings, when they all are ([List[str]]). *)
Fixpoint as_strs (l : list json) : option (list string) :=
  match l with
  | [] => Some []
  | JStr s :: l' => match as_strs l' with Some ss => Some (s :: ss) | None => None end
  | _ :: _ => None
  end.

(** ** 3. Python strings (ASCII) *)

Definition is_space (c : ascii) : bool :=
  let n := nat_of_ascii c in
  (Nat.eqb n 32 || (Nat.leb 9 n && Nat.leb n 13) || (Nat.leb 28 n && Nat.leb n 31))%bool.

Fixpoint lstrip (s : string) : string :=
  match s with
  | EmptyString => EmptyString
  | String c s' => if is_space c then lstrip s' else s
  end.

Fixpoint rstrip (s : string) : string :=
  match s with
  | EmptyString => EmptyString
  | String c s' =>
      match rstrip s' with
      | EmptyString => if is_space c then EmptyString else String c EmptyString
      | r => String c r
      end
  end.

(** [s.strip()] *)
Definition strip (s : string) : string := rstrip (lstrip s).

(** Line boundaries of [str.splitlines()] other than CR and LF. *)
Definition is_linebreak (c : ascii) : bool :=
  let n := nat_of_ascii c in
  (Nat.eqb n 11 || Nat.eqb n 12 || (Nat.leb 28 n && Nat.leb n 30))%bool.

Definition snoc_char (s : string) (c : ascii) : string := s +:+ String c EmptyString.

Fixpoint splitlines_from (cur : string) (s : string) : list string :=
  match s with
  | EmptyString => match cur with EmptyString => [] | _ => [cur] end
  | String c s' =>
      if Nat.eqb (nat_of_ascii c) 13 then
        match s' with
        | String c2 s'' =>
            if Nat.eqb (nat_of_ascii c2) 10 then cur :: splitlines_from EmptyString s''
            else cur :: splitlines_from EmptyString s'
        | EmptyString => [cur]
        end
      else if (Nat.eqb (nat_of_ascii c) 10 || is_linebreak c)%bool then
        cur :: splitlines_from EmptyString s'
      else splitlines_from (snoc_char cur c) s'
  end.

(** [s.splitlines()] *)
Definition splitlines (s : string) : list string := splitlines_from EmptyString s.

(** [s.split("=", 1)] when ["=" in s]: the text before the first [=] and
    the text after it; [None] when [s] has no [=]. *)
Fixpoint split_eq (s : string) : option (string * string) :=
  match s with
  | EmptyString => None
  | String c s' =>
      if Ascii.eqb c "="%char then Some (EmptyString, s')
      else match split_eq s' with
           | Some (name, value) => Some (String c name, value)
           | None => None
           end
  end.

Definition startswith_hash (s : string) : bool :=
  match s with String c _ => Ascii.eqb c "#"%char | EmptyString => false end.

(** A reader of plain decimal integers ([-]digits), used to instantiate
    Python's [int(str)] and [float(str)] in the worked examples, whose
    strings are either of that form or not numeric at all. *)
Definition digit_val (c : ascii) : option Z :=
  let n := nat_of_ascii c in
  if (Nat.leb 48 n && Nat.leb n 57)%bool then Some (Z.of_nat (n - 48)) else None.

Fixpoint digits_val (acc : Z) (s : string) : option Z :=
  match s with
  | EmptyString => Some acc
  | String c s' =>
      match digit_val c with
      | Some d => digits_val (10 * acc + d) s'
      | None => None
      end
  end.

Definition plain_int (s : string) : option Z :=
  match s with
  | EmptyString => None
  | String c s' =>
      if Ascii.eqb c "-"%char then
        match s' with
        | EmptyString => None
        | _ => match digits_val 0 s' with Some z => Some (- z) | None => None end
        end
      else digits_val 0 s
  end.

Definition plain_float (s : string) : option pyfloat :=
  match plain_int s with Some z => Some (Fin (inject_Z z)) | None => None end.

(** ** 4. The world and the effects of the program *)

Record request := {
  url : string;
  params : list (string * Z);
  token : string                 (* the X-Riot-Token header of the session *)
}.

Record response := {
  status_code : Z;
  retry_after : option string;   (* the Retry-After header, when present *)
  text : string;
  body : option json             (* the body parsed as JSON, when it is JSON *)
}.

(** What [session.get] comes back with: a response, or an exception of
    [requests] (connection failure, timeout). *)
Inductive reply := Reply (r : response) | NoReply.

(** A file holds the serialisation of a JSON document or other text. *)
Inductive file := Text (s : string) | Doc (j : json).

(** A computation returns, raises, or is still inside [wait] when the
    modelled clock readings are used up ([Hang]). *)
Inductive outcome (A : Type) := Ok (a : A) | Raise (e : exn) | Hang.
Arguments Ok {A} a.
Arguments Raise {A} e.
Arguments Hang {A}.

(** One call of [RiotAPI.get_json] and how it ended. *)
Record call := {
  call_url : string;
  call_params : list (string * Z);
  call_result : outcome json
}.

Record world := {
  environ : gmap string string;               (* os.environ *)
  fs : gmap string file;                      (* path, as pathlib renders it -> content *)
  remote : list request -> request -> reply;  (* the API, given the requests sent before *)
  sent : list request;                        (* requests sent so far, oldest first *)
  clock : list Q;                             (* coming readings of time.time() *)
  slept : list Q;                             (* arguments of time.sleep so far *)
  limiter : Limiter.RiotRateLimiter;          (* the rate limiter of the RiotAPI object *)
  calls : list call                           (* history variable: get_json calls so far *)
}.

Definition set_fs (f : gmap string file) (w : world) : world :=
  {| environ := environ w; fs := f; remote := remote w; sent := sent w;
     clock := clock w; slept := slept w; limiter := limiter w; calls := calls w |}.

Definition set_sent (s : list request) (w : world) : world :=
  {| environ := environ w; fs := fs w; remote := remote w; sent := s;
     clock := clock w; slept := slept w; limiter := limiter w; calls := calls w |}.

Definition set_slept (s : list Q) (w : world) : world :=
  {| environ := environ w; fs := fs w; remote := remote w; sent := sent w;
     clock := clock w; slept := s; limiter := limiter w; calls := calls w |}.

Definition set_limiter (l : Limiter.RiotRateLimiter) (c : list Q) (w : world) : world :=
  {| environ := environ w; fs := fs w; remote := remote w; sent := sent w;
     clock := c; slept := slept w; limiter := l; calls := calls w |}.

Definition set_calls (c : list call) (w : world) : world :=
  {| environ := environ w; fs := fs w; remote := remote w; sent := sent w;
     clock := clock w; slept := slept w; limiter := limiter w; calls := c |}.

Definition M (A : Type) : Type := world -> outcome A * world.

#[export] Instance M_ret : MRet M := fun A a w => (Ok a, w).

#[export] Instance M_bind : MBind M := fun A B f m w =>
  match m w with
  | (Ok a, w') => f a w'
  | (Raise e, w') => (Raise e, w')
  | (Hang, w') => (Hang, w')
  end.

Definition raise {A} (e : exn) : M A := fun w => (Raise e, w).

(** Lifting a pure step that may raise. *)
Definition lift {A} (r : exn + A) : M A :=
  match r with inl e => raise e | inr a => mret a end.

(** [try: m / except RuntimeError as exc: ...]: the handler's argument on
    the left, the value of [m] on the right; other exceptions go through. *)
Definition try_RuntimeError {A} (m : M A) : M (runtime_error + A) := fun w =>
  match m w with
  | (Ok a, w') => (Ok (inr a), w')
  | (Raise (RuntimeError r), w') => (Ok (inl r), w')
  | (Raise e, w') => (Raise e, w')
  | (Hang, w') => (Hang, w')
  end.

(** [time.sleep(x)] *)
Definition time_sleep (x : pyfloat) : M unit := fun w =>
  match x with
  | Fin q => if Qle_bool 0 q then (Ok tt, set_slept (slept w ++ [q]) w)
             else (Raise ValueError, w)
  | PosInf => (Raise OverflowError, w)
  | NegInf => (Raise ValueError, w)
  | NaN => (Raise ValueError, w)
  end.

(** [self.rate_limiter.wait()] on the limiter and the clock of the world. *)
Definition limiter_wait : M unit := fun w =>
  match Limiter.wait (limiter w) (clock w) with
  | Some (_, l', rest, sleeps) =>
      (Ok tt, set_slept (slept w ++ sleeps) (set_limiter l' rest w))
  | None => (Hang, w)
  end.

(** [path.exists()] / [path.is_file()] *)
Definition path_exists (p : string) : M bool := fun w =>
  (Ok (bool_decide (is_Some (fs w !! p))), w).

(** [path.write_text(json.dumps(doc, ...))] *)
Definition write_json (p : string) (doc : json) : M unit := fun w =>
  (Ok tt, set_fs (<[p := Doc doc]> (fs w)) w).

(** Paths, as [pathlib] computes them on POSIX.  A path text has a root
    ([//] for exactly two leading slashes, [/] for any other number of
    them, none for a relative path) and components, the pieces between
    slashes other than the empty ones and [.]; [..] is kept. *)
Definition is_slash (c : ascii) : bool := Ascii.eqb c "/".

Definition root_of (s : string) : string :=
  match s with
  | String c1 s1 =>
      if is_slash c1 then
        match s1 with
        | String c2 s2 =>
            if is_slash c2 then
              match s2 with
              | String c3 _ => if is_slash c3 then "/" else "//"
              | EmptyString => "//"
              end
            else "/"
        | EmptyString => "/"
        end
      else ""
  | EmptyString => ""
  end.

(** [s.split("/")] *)
Fixpoint split_slash (s : string) : list string :=
  match s with
  | EmptyString => [EmptyString]
  | String c s' =>
      if is_slash c then EmptyString :: split_slash s'
      else match split_slash s' with
           | seg :: rest => String c seg :: rest
           | [] => [String c EmptyString]
           end
  end.

Definition kept (seg : string) : bool :=
  negb (String.eqb seg "" || String.eqb seg ".").

Definition parts_of (s : string) : list string := List.filter kept (split_slash s).

(** ["/".join(parts)] *)
Fixpoint join_slash (parts : list string) : string :=
  match parts with
  | [] => ""
  | [p] => p
  | p :: rest => p +:+ "/" +:+ join_slash rest
  end.

(** [str(path)] for a path with this root and these components. *)
Definition path_str (root : string) (parts : list string) : string :=
  match root +:+ join_slash parts with
  | EmptyString => "."
  | s => s
  end.

(** [str(Path(s))] *)
Definition Path (s : string) : string := path_str (root_of s) (parts_of s).

(** [str(Path(dir) / name)]: an absolute [name] replaces [dir]. *)
Definition path_join (dir name : string) : string :=
  match root_of name with
  | EmptyString => path_str (root_of dir) (parts_of dir ++ parts_of name)
  | root => path_str root (parts_of name)
  end.

(** [list(range(start, stop, step))] for a positive [step]. *)
Definition py_range (start stop step : Z) : list Z :=
  map (fun k => start + Z.of_nat k * step)
      (seq 0 (Z.to_nat ((stop - start + step - 1) / step))).

(** ** 5. Constants of the script *)

Definition LEAGUE_ROUTE : string := "https://eun1.api.riotgames.com".
Definition MATCH_ROUTE : string := "https://europe.api.riotgames.com".
Definition QUEUE : string := "RANKED_SOLO_5x5".
Definition TIER : string := "GOLD".
Definition DIVISIONS : list string := ["I"; "II"; "III"; "IV"]%string.
Definition DEFAULT_QUEUE_ID : Z := 420.
Definition DEFAULT_TARGET_MATCHES : Z := 1000.
Definition DEFAULT_MATCHES_PER_PLAYER : Z := 50.
Definition DEFAULT_MIN_DURATION : Z := 15 * 60.

Definition entries_url (division : string) : string :=
  LEAGUE_ROUTE +:+ "/lol/league/v4/entries/" +:+ QUEUE +:+ "/" +:+ TIER +:+ "/" +:+ division.
Definition summoner_url (summoner_id : string) : string :=
  LEAGUE_ROUTE +:+ "/lol/summoner/v4/summoners/" +:+ summoner_id.
Definition match_url (match_id : string) : string :=
  MATCH_ROUTE +:+ "/lol/match/v5/matches/" +:+ match_id.
Definition timeline_url (match_id : string) : string :=
  MATCH_ROUTE +:+ "/lol/match/v5/matches/" +:+ match_id +:+ "/timeline".
Definition ids_url (puuid : string) : string :=
  MATCH_ROUTE +:+ "/lol/match/v5/matches/by-puuid/" +:+ puuid +:+ "/ids".

(** [raw_dir / f"{match_id}.json"] and [raw_dir / f"{match_id}_timeline.json"] *)
Definition match_path (raw_dir match_id : string) : string :=
  path_join raw_dir (match_id +:+ ".json").
Definition timeline_path (raw_dir match_id : string) : string :=
  path_join raw_dir (match_id +:+ "_timeline.json").

(** ** 6. load_api_key *)

Fixpoint scan_env_lines (env_var : string) (lines : list string) : option string :=
  match lines with
  | [] => None
  | line :: rest =>
      let line := strip line in
      if (String.eqb line "" || startswith_hash line)%bool then scan_env_lines env_var rest
      else
        match split_eq line with
        | None => scan_env_lines env_var rest
        | Some (name, value) =>
            if String.eqb (strip name) env_var then Some (strip value)
            else scan_env_lines env_var rest
        end
  end.

(** The serialisation of a JSON document has no line [NAME=...]: an [=]
    can only stand inside a string literal, after its opening quote. *)
Definition load_api_key (env_var env_file : string) : M (option string) := fun w =>
  match environ w !! env_var with
  | Some (String c k) => (Ok (Some (strip (String c k))), w)
  | _ =>
      match fs w !! env_file with
      | None => (Ok None, w)
      | Some (Doc _) => (Ok None, w)
      | Some (Text t) => (Ok (scan_env_lines env_var (splitlines t)), w)
      end
  end.

(** ** 7. RiotAPI *)

Record RiotAPI := {
  api_key : string;
  timeout : Q
}.

(** [RiotAPI(api_key)]: the session carries the key, the limiter is new. *)
Definition RiotAPI_init (key : string) : M RiotAPI := fun w =>
  (Ok {| api_key := key; timeout := 10 |}, set_limiter Limiter.default (clock w) w).

(** [self.session.get(url, params=params, timeout=self.timeout)] *)
Definition session_get (api : RiotAPI) (u : string) (ps : list (string * Z)) : M response :=
  fun w =>
    let rq := {| url := u; params := ps; token := api_key api |} in
    let w' := set_sent (sent w ++ [rq]) w in
    match remote w (sent w) rq with
    | Reply r => (Ok r, w')
    | NoReply => (Raise RequestException, w')
    end.

Definition fadd (x : pyfloat) (d : Q) : pyfloat :=
  match x with Fin q => Fin (q + d) | _ => x end.

Section Engine.

(** Python's [float(str)] and [int(str)]: [None] when they raise ValueError. *)
Variable float_of_str : string -> option pyfloat.
Variable int_of_str : string -> option Z.

(** [int(v)] *)
Definition py_int (v : json) : exn + Z :=
  match v with
  | JInt z => inr z
  | JBool b => inr (if b then 1 else 0)
  | JFloat q => inr (Z.quot (Qnum q) (Zpos (Qden q)))
  | JStr s => match int_of_str s with Some z => inr z | None => inl ValueError end
  | JNull | JArr _ | JObj _ => inl TypeError
  end.

(** [float(response.headers.get("Retry-After", "1"))] *)
Definition retry_after_seconds (r : response) : exn + pyfloat :=
  match retry_after r with
  | None => inr (Fin 1)
  | Some s => match float_of_str s with Some x => inr x | None => inl ValueError end
  end.

(** The [for attempt in ...] loop of [get_json], on the attempts left. *)
Fixpoint get_json_attempts (api : RiotAPI) (u : string) (ps : list (string * Z))
    (retries : Z) (attempts : list Z) : M json :=
  match attempts with
  | [] => raise (RuntimeError (GivingUp u retries))
  | attempt :: rest =>
      limiter_wait;;
      r ← session_get api u ps;
      if status_code r =? 429 then
        x ← lift (retry_after_seconds r);
        time_sleep (fadd x (1 # 10));;
        get_json_attempts api u ps retries rest
      else if status_code r >=? 500 then
        time_sleep (Fin (inject_Z (Z.min (2 ^ attempt) 10)));;
        get_json_attempts api u ps retries rest
      else if status_code r >=? 400 then
        raise (RuntimeError (RequestFailed (status_code r) u (text r)))
      else
        match body r with
        | Some doc => mret doc
        | None => raise JSONDecodeError
        end
  end.

(** [get_json]; the call and its result enter the history [calls]. *)
Definition get_json (api : RiotAPI) (u : string) (ps : list (string * Z)) (retries : Z)
  : M json := fun w =>
  let '(out, w') := get_json_attempts api u ps retries (py_range 1 (retries + 1) 1) w in
  (out, set_calls (calls w' ++ [{| call_url := u; call_params := ps; call_result := out |}]) w').

(** ** 8. download_match_bundle *)

(** [allowed_queue_id is not None and queue_id != allowed_queue_id] *)
Definition queue_rejected (allowed_queue_id : option Z) (queue_id : json) : bool :=
  match allowed_queue_id with
  | Some allowed => negb (py_eq_int queue_id allowed)
  | None => false
  end.

Definition download_match_bundle (api : RiotAPI) (match_id raw_dir : string)
    (min_duration : Z) (allowed_queue_id : option Z) : M (bool * string) :=
  let match_path := match_path raw_dir match_id in
  let timeline_path := timeline_path raw_dir match_id in
  e1 ← path_exists match_path;
  e2 ← (if e1 then path_exists timeline_path else mret false);
  if e1 && e2 then mret (true, "cached"%string)
  else
    match_json ← get_json api (match_url match_id) [] 5;
    info ← lift (py_get match_json "info" (JObj []));
    queue_id ← lift (py_get info "queueId" JNull);
    if queue_rejected allowed_queue_id queue_id
    then mret (false, "queue"%string)
    else
      d ← lift (py_get info "gameDuration" (JInt 0));
      game_duration ← lift (py_int d);
      if game_duration <? min_duration then mret (false, "duration"%string)
      else
        (* ensure_directory(raw_dir): directories are not modelled *)
        write_json match_path match_json;;
        e3 ← path_exists timeline_path;
        if (e3 : bool) then mret (true, "stored"%string)
        else
          t ← try_RuntimeError (get_json api (timeline_url match_id) [] 5);
          match t with
          | inl _ => mret (false, "timeline"%string)
          | inr timeline_json =>
              write_json timeline_path timeline_json;;
              mret (true, "stored"%string)
          end.

(** What [download_match_bundle] reads in a match document:
    [match_json.get("info", {}).get("queueId")] and
    [int(match_json.get("info", {}).get("gameDuration", 0))]. *)
Definition match_queue_id (match_json : json) : exn + json :=
  match py_get match_json "info" (JObj []) with
  | inl e => inl e
  | inr info => py_get info "queueId" JNull
  end.

Definition match_game_duration (match_json : json) : exn + Z :=
  match py_get match_json "info" (JObj []) with
  | inl e => inl e
  | inr info =>
      match py_get info "gameDuration" (JInt 0) with
      | inl e => inl e
      | inr d => py_int d
      end
  end.

(** The document has no [gameDuration]: its [info] is a dict without that
    key, or it has no [info] at all. *)
Definition lacks_game_duration (match_json : json) : Prop :=
  exists kv, py_get match_json "info" (JObj []) = inr (JObj kv)
             /\ assoc "gameDuration" kv = None.

(** Both files of the bundle are on disk. *)
Definition bundle_complete (raw_dir match_id : string) (w : world) : Prop :=
  is_Some (fs w !! match_path raw_dir match_id)
  /\ is_Some (fs w !! timeline_path raw_dir match_id).

(** The detail file is on disk and the timeline file is not. *)
Definition detail_only (raw_dir match_id : string) (w : world) : Prop :=
  is_Some (fs w !! match_path raw_dir match_id)
  /\ fs w !! timeline_path raw_dir match_id = None.

(** ** 9. The match list *)

Definition load_existing_matchlist (path : string) : M (list string * gset string) :=
  fun w =>
    match fs w !! path with
    | None => (Ok ([], ∅), w)
    | Some (Text _) => (Raise JSONDecodeError, w)
    | Some (Doc data) =>
        match py_iter data with
        | inl e => (Raise e, w)
        | inr l =>
            match as_strs l with
            | Some ordered_ids => (Ok (ordered_ids, list_to_set ordered_ids), w)
            | None => (Raise IllTyped, w)
            end
        end
    end.

Definition write_matchlist (path : string) (match_ids : list string) : M unit :=
  write_json path (JArr (map JStr match_ids)).

(** ** 10. main *)

Record Args := {
  target_match_count : Z;
  matches_per_player : Z;
  history_window : Z;
  max_pages_per_division : Z;
  raw_dir : string;
  matchlist : string;
  min_duration : Z;
  queue_id : Z
}.

(** The local variables of [main] that its loops update. *)
Record run_state := {
  ordered_ids : list string;
  known_ids : gset string;
  new_matches : list string;
  skip_stats : gmap string Z;        (* Counter *)
  puuid_cache : gmap string json
}.

(** [skip_stats[label] += 1] *)
Definition count_skip (label : string) (st : run_state) : run_state :=
  {| ordered_ids := ordered_ids st; known_ids := known_ids st;
     new_matches := new_matches st;
     skip_stats := <[label := default 0 (skip_stats st !! label) + 1]> (skip_stats st);
     puuid_cache := puuid_cache st |}.

(** [known_ids.add(m); ordered_ids.append(m); new_matches.append(m)] *)
Definition accept (match_id : string) (st : run_state) : run_state :=
  {| ordered_ids := ordered_ids st ++ [match_id];
     known_ids := {[match_id]} ∪ known_ids st;
     new_matches := new_matches st ++ [match_id];
     skip_stats := skip_stats st; puuid_cache := puuid_cache st |}.

Definition set_cache (c : gmap string json) (st : run_state) : run_state :=
  {| ordered_ids := ordered_ids st; known_ids := known_ids st;
     new_matches := new_matches st; skip_stats := skip_stats st; puuid_cache := c |}.

(** [len(known_ids) >= args.target_match_count] *)
Definition target_reached (args : Args) (st : run_state) : bool :=
  Z.of_nat (size (known_ids st)) >=? target_match_count args.

(** A string where the code formats a value into a URL or uses it as a key. *)
Definition as_str (v : json) : exn + string :=
  match v with JStr s => inr s | _ => inl IllTyped end.

Definition fetch_puuid (api : RiotAPI) (summoner_id : string) (st : run_state)
  : M (json * run_state) :=
  match puuid_cache st !! summoner_id with
  | Some p => mret (p, st)
  | None =>
      data ← get_json api (summoner_url summoner_id) [] 5;
      puuid ← lift (py_get data "puuid" JNull);
      if truthy puuid
      then mret (puuid, set_cache (<[summoner_id := puuid]> (puuid_cache st)) st)
      else mret (puuid, st)
  end.

(** The loop [for match_id in match_ids] of [main]. *)
Fixpoint store_batch (api : RiotAPI) (args : Args) (queue_filter : option Z)
    (match_ids : list string) (st : run_state) : M run_state :=
  match match_ids with
  | [] => mret st
  | match_id :: rest =>
      if bool_decide (match_id ∈ known_ids st)
      then store_batch api args queue_filter rest (count_skip "duplicate_id" st)
      else
        r ← try_RuntimeError
              (download_match_bundle api match_id (raw_dir args) (min_duration args) queue_filter);
        match r with
        | inl _ => store_batch api args queue_filter rest (count_skip "download_error" st)
        | inr (stored, reason) =>
            if negb stored
            then store_batch api args queue_filter rest (count_skip ("skip_" +:+ reason) st)
            else
              let st' := accept match_id st in
              if target_reached args st' then mret st'
              else store_batch api args queue_filter rest st'
        end
  end.

(** The loop [for start in range(0, history_window, batch_size)] of [main],
    on the offsets left. *)
Fixpoint scan_player (api : RiotAPI) (args : Args) (queue_filter : option Z)
    (puuid : string) (batch_size : Z) (starts : list Z) (st : run_state) : M run_state :=
  match starts with
  | [] => mret st
  | start :: rest =>
      r ← try_RuntimeError
            (get_json api (ids_url puuid) [("start"%string, start); ("count"%string, batch_size)] 5);
      match r with
      | inl _ => mret (count_skip "api_error" st)
      | inr match_ids =>
          if negb (truthy match_ids) then mret st
          else
            l ← lift (py_iter match_ids);
            ids ← lift (from_option inr (inl IllTyped) (as_strs l));
            st' ← store_batch api args queue_filter ids st;
            if target_reached args st' then mret st'
            else scan_player api args queue_filter puuid batch_size rest st'
      end
  end.

(** What the body of a [for] loop tells the loop: go on, or [break]. *)
Inductive flow := Next | Break.

(** [iter_gold_entries], together with the [for entry in ...] loop that
    consumes it: [body] is the body of that loop; when it breaks, the
    generator is dropped. *)
Fixpoint yield_entries {S : Type} (body : json -> S -> M (flow * S))
    (entries : list json) (st : S) : M (flow * S) :=
  match entries with
  | [] => mret (Next, st)
  | entry :: rest =>
      r ← body entry st;
      match r with
      | (Break, st') => mret (Break, st')
      | (Next, st') => yield_entries body rest st'
      end
  end.

Fixpoint walk_pages {S : Type} (api : RiotAPI) (body : json -> S -> M (flow * S))
    (division : string) (pages : list Z) (st : S) : M (flow * S) :=
  match pages with
  | [] => mret (Next, st)
  | page :: rest =>
      entries ← get_json api (entries_url division) [("page"%string, page)] 5;
      if negb (truthy entries) then mret (Next, st)
      else
        l ← lift (py_iter entries);
        r ← yield_entries body l st;
        match r with
        | (Break, st') => mret (Break, st')
        | (Next, st') => walk_pages api body division rest st'
        end
  end.

Fixpoint walk_divisions {S : Type} (api : RiotAPI) (body : json -> S -> M (flow * S))
    (max_pages : Z) (divisions : list string) (st : S) : M (flow * S) :=
  match divisions with
  | [] => mret (Next, st)
  | division :: rest =>
      r ← walk_pages api body division (py_range 1 (max_pages + 1) 1) st;
      match r with
      | (Break, st') => mret (Break, st')
      | (Next, st') => walk_divisions api body max_pages rest st'
      end
  end.

Definition iter_gold_entries {S : Type} (api : RiotAPI) (max_pages : Z)
    (body : json -> S -> M (flow * S)) (st : S) : M (flow * S) :=
  walk_divisions api body max_pages DIVISIONS st.

(** The body of [for entry in iter_gold_entries(...)] in [main]; a
    [continue] is [Next]. *)
Definition main_entry (api : RiotAPI) (args : Args) (batch_size history_window : Z)
    (queue_filter : option Z) (entry : json) (st : run_state) : M (flow * run_state) :=
  puuid0 ← lift (py_get entry "puuid" JNull);
  r ← (if truthy puuid0 then mret (Some puuid0, st)
       else
         s1 ← lift (py_get entry "summonerId" JNull);
         s ← (if truthy s1 then mret s1
              else lift (py_get entry "encryptedSummonerId" JNull));
         if negb (truthy s) then mret (None, st)
         else
           summoner_id ← lift (as_str s);
           r ← fetch_puuid api summoner_id st;
           mret (Some r.1, r.2));
  match r with
  | (None, st1) => mret (Next, st1)
  | (Some puuid, st1) =>
      if negb (truthy puuid) then mret (Next, st1)
      else
        p ← lift (as_str puuid);
        st2 ← scan_player api args queue_filter p batch_size
                (py_range 0 history_window batch_size) st1;
        if target_reached args st2 then mret (Break, st2) else mret (Next, st2)
  end.

(** [batch_size], [history_window] and [queue_filter] of [main]. *)
Definition batch_size_of (args : Args) : Z :=
  Z.max 1 (Z.min (matches_per_player args) 100).

Definition history_window_of (args : Args) : Z :=
  Z.max (batch_size_of args) (history_window args).

Definition queue_filter_of (args : Args) : option Z :=
  if queue_id args <? 0 then None else Some (queue_id args).

(** [main] up to the end of its loops: the exit status when it returns
    early, or the final variables. *)
Definition main_collect (args : Args) : M (Z + run_state) :=
  key ← load_api_key "RIOT_API_KEY" ".env";
  match key with
  | None | Some EmptyString => mret (inl 1)
  | Some api_key =>
      api ← RiotAPI_init api_key;
      loaded ← load_existing_matchlist (matchlist args);
      let st0 := {| ordered_ids := loaded.1; known_ids := loaded.2;
                    new_matches := []; skip_stats := ∅; puuid_cache := ∅ |} in
      let batch_size := batch_size_of args in
      let history_window := history_window_of args in
      let queue_filter := queue_filter_of args in
      r ← iter_gold_entries api (max_pages_per_division args)
            (main_entry api args batch_size history_window queue_filter) st0;
      mret (inr r.2)
  end.

Definition main (args : Args) : M Z :=
  r ← main_collect args;
  match r with
  | inl status => mret status
  | inr st =>
      match new_matches st with
      | [] => mret tt
      | _ => write_matchlist (matchlist args) (ordered_ids st)
      end;;
      mret 0
  end.

(** ** 11. A small API and file system for the worked examples *)

Definition ok (doc : json) : reply :=
  Reply {| status_code := 200; retry_after := None; text := ""; body := Some doc |}.

Definition failure (status : Z) (header : option string) : reply :=
  Reply {| status_code := status; retry_after := header; text := ""; body := None |}.

Definition match_doc (queue duration : Z) : json :=
  JObj [("info"%string, JObj [("queueId"%string, JInt queue); ("gameDuration"%string, JInt duration)])].

Definition count_url (u : string) (hist : list request) : nat :=
  length (List.filter (fun rq => String.eqb (url rq) u) hist).

(** One ladder entry (player [p1], division I, page 1); the player's
    history is the two matches [b] and [c].  The other match ids give one
    document of each kind: [q] another queue, [s] a short game, [n] no
    [info], [d] no [gameDuration], [r] a 429 with a Retry-After that is
    not a number, [f] three 503 and then the document. *)
Definition demo_remote (hist : list request) (rq : request) : reply :=
  let u := url rq in
  if String.eqb u (entries_url "I") then
    match params rq with
    | [(_, 1)] => ok (JArr [JObj [("puuid"%string, JStr "p1")]])
    | _ => ok (JArr [])
    end
  else if String.eqb u (ids_url "p1") then
    match params rq with
    | [(_, 0); _] => ok (JArr [JStr "b"; JStr "c"])
    | _ => ok (JArr [])
    end
  else if String.eqb u (match_url "c") then ok (match_doc 420 1800)
  else if String.eqb u (timeline_url "c") then ok (JObj [("frames"%string, JArr [])])
  else if String.eqb u (match_url "q") then ok (match_doc 440 1800)
  else if String.eqb u (match_url "s") then ok (match_doc 420 300)
  else if String.eqb u (match_url "n") then ok (JObj [])
  else if String.eqb u (match_url "d") then
    ok (JObj [("info"%string, JObj [("queueId"%string, JInt 420)])])
  else if String.eqb u (match_url "r") then failure 429 (Some "soon"%string)
  else if String.eqb u (match_url "f") then
    if (count_url u hist <? 3)%nat then failure 503 None else ok (match_doc 420 1800)
  else if String.eqb u (entries_url "II") then ok (JArr [])
  else if String.eqb u (entries_url "III") then ok (JArr [])
  else if String.eqb u (entries_url "IV") then ok (JArr [])
  else failure 404 None.

Definition demo_api : RiotAPI := {| api_key := "secret"; timeout := 10 |}.

Definition demo_world (env : gmap string string) (files : gmap string file) : world :=
  {| environ := env; fs := files; remote := demo_remote; sent := [];
     clock := map (fun n => inject_Z (Z.of_nat n)) (seq 0 20);
     slept := []; limiter := Limiter.default; calls := [] |}.

Definition demo_env : gmap string string := {["RIOT_API_KEY"%string := "secret"%string]}.

(** The defaults of [parse_args]. *)
Definition default_args : Args :=
  {| target_match_count := DEFAULT_TARGET_MATCHES;
     matches_per_player := DEFAULT_MATCHES_PER_PLAYER;
     history_window := 200;
     max_pages_per_division := 10;
     raw_dir := "data/raw";
     matchlist := "matchlist.json";
     min_duration := DEFAULT_MIN_DURATION;
     queue_id := DEFAULT_QUEUE_ID |}.

(** The detail file of match [c] on disk, without and with its timeline. *)
Definition detail_file_c : gmap string file :=
  {[match_path "data/raw" "c" := Doc (match_doc 420 1800)]}.

Definition bundle_files_c : gmap string file :=
  <[timeline_path "data/raw" "c" := Doc (JObj [("frames"%string, JArr [])])]> detail_file_c.

(** The two files of match [q] on disk. *)
Definition bundle_files_q : gmap string file :=
  {[match_path "data/raw" "q" := Doc (match_doc 440 1800);
    timeline_path "data/raw" "q" := Doc (JObj [("frames"%string, JArr [])])]}.

(** The same API, except that the history of player [p1] is the one match
    [r]. *)
Definition demo_remote_r (hist : list request) (rq : request) : reply :=
  if String.eqb (url rq) (ids_url "p1") then
    match params rq with
    | [(_, 0); _] => ok (JArr [JStr "r"])
    | _ => ok (JArr [])
    end
  else demo_remote hist rq.

Definition demo_world_r : world :=
  {| environ := demo_env; fs := ∅; remote := demo_remote_r; sent := [];
     clock := map (fun n => inject_Z (Z.of_nat n)) (seq 0 20);
     slept := []; limiter := Limiter.default; calls := [] |}.

(** Clock readings for four calls of [wait] on a limiter with capacities
    2 and 3. *)
Definition demo_clock : list Q := [0; 0; 0; 1 # 2; 1; 1; 3 # 2; 2]%Q.

(** The match list [["a", "b"]] on disk. *)
Definition matchlist_ab : gmap string file :=
  {["matchlist.json"%string := Doc (JArr [JStr "a"; JStr "b"])]}.

(** The call of [get_json] for one batch of match ids. *)
Definition ids_call (puuid : string) (batch_size start : Z) (out : outcome json) : call :=
  {| call_url := ids_url puuid;
     call_params := [("start"%string, start); ("count"%string, batch_size)];
     call_result := out |}.

(** Calls that carry query parameters: in a player's scan, the batches. *)
Definition paged (c : call) : bool :=
  match call_params c with [] => false | _ => true end.

(** The call returned a document that is not empty. *)
Definition nonempty_batch (out : outcome json) : Prop :=
  exists doc, out = Ok doc /\ truthy doc = true.

(** Every result but the last is a non-empty batch. *)
Fixpoint all_but_last_nonempty (outs : list (outcome json)) : Prop :=
  match outs with
  | [] => True
  | out :: rest =>
      match rest with
      | [] => True
      | _ => nonempty_batch out /\ all_but_last_nonempty rest
      end
  end.

(** History of [calls] and [sent] added between two worlds. *)
Definition new_calls (w w' : world) : list call := drop (length (calls w)) (calls w').
Definition new_sent (w w' : world) : list request := drop (length (sent w)) (sent w').

(** ** 12. Vocabulary of the properties *)

(** [preserves R m]: running [m] takes every world to an [R]-related one,
    however it ends. *)
Definition preserves {A} (R : relation world) (m : M A) : Prop :=
  forall w, R w (m w).2.

(** The file system is left as it was. *)
Definition same_fs : relation world := fun w w' => fs w' = fs w.

Definition same_calls : relation world := fun w w' => calls w' = calls w.

(** The history of calls grows by calls that satisfy [P]. *)
Definition calls_grow (P : call -> Prop) : relation world := fun w w' =>
  exists l, calls w' = calls w ++ l /\ Forall P l.

(** A limiter with the default capacities and at most [k] timestamps in
    each window. *)
Definition small (k : nat) (l : Limiter.RiotRateLimiter) : Prop :=
  Limiter.per_second l = 18 /\ Limiter.per_two_minutes l = 95
  /\ (length (Limiter.second_window l) <= k)%nat
  /\ (length (Limiter.two_minute_window l) <= k)%nat.

(** The response is a 429 and [float] raises on its Retry-After header. *)
Definition is_bad_429 (r : reply) : bool :=
  match r with
  | Reply resp =>
      (status_code resp =? 429)
      && match retry_after resp with
         | Some s => match float_of_str s with None => true | Some _ => false end
         | None => false
         end
  | NoReply => false
  end.

(** One of the requests [new], sent after the requests [old], got such a
    response from the API [R]. *)
Definition poisoned (R : list request -> request -> reply) (old new : list request) : Prop :=
  exists pre rq post, new = pre ++ rq :: post /\ is_bad_429 (R (old ++ pre) rq) = true.

(** Whenever a request of [m] gets such a response, [m] ends by raising
    ValueError. *)
Definition stops_at_bad_429 {A} (m : M A) : Prop :=
  forall w,
    remote (m w).2 = remote w
    /\ exists new, sent (m w).2 = sent w ++ new
       /\ (poisoned (remote w) (sent w) new -> (m w).1 = Raise ValueError).

(** [old] is the list read at startup.  The ordered list is [old] followed
    by the matches accepted in this run, the membership set holds exactly
    the elements of the ordered list, and no accepted match occurs twice or
    was in [old]. *)
Definition merge_inv (old : list string) (st : run_state) : Prop :=
  ordered_ids st = old ++ new_matches st
  /\ known_ids st = list_to_set (ordered_ids st)
  /\ NoDup (new_matches st)
  /\ Forall (fun m => m ∉ old) (new_matches st).

(** [keeps I m]: a value returned by [m] satisfies [I]. *)
Definition keeps {A} (I : A -> Prop) (m : M A) : Prop :=
  forall w a w', m w = (Ok a, w') -> I a.


(** The list of match ids that the file [path] holds: empty when there is
    no file, nothing when the file is not a list of strings. *)
Definition persisted_ids (path : string) (w : world) : option (list string) :=
  match fs w !! path with
  | None => Some []
  | Some (Text _) => None
  | Some (Doc data) =>
      match py_iter data with
      | inl _ => None
      | inr l => as_strs l
      end
  end.

(** The key that [load_api_key()] finds, if it finds one that is not empty. *)
Definition credential (w : world) : option string :=
  match (load_api_key "RIOT_API_KEY" ".env" w).1 with
  | Ok (Some (String c k)) => Some (String c k)
  | _ => None
  end.

(** ** 13. Vocabulary and examples of the further properties *)

(** The file at [p] is left as it was. *)
Definition same_file (p : string) : relation world := fun w w' =>
  fs w' !! p = fs w !! p.

(** The environment variables are left as they were. *)
Definition same_environ : relation world := fun w w' => environ w' = environ w.

(** No request without a clock reading of its own: the requests added are
    at most as many as the readings used. *)
Definition admitted_first : relation world := fun w w' =>
  (length (clock w') <= length (clock w))%nat
  /\ (length (sent w) <= length (sent w'))%nat
  /\ (length (sent w') + length (clock w') <= length (sent w) + length (clock w))%nat.

(** Query parameters that [main] may send with the arguments [args]: none,
    a page number from 1 to [max_pages_per_division], or an offset and the
    batch size. *)
Definition well_formed_params (args : Args) (ps : list (string * Z)) : Prop :=
  match ps with
  | [] => True
  | [(k, page)] => k = "page"%string /\ 1 <= page <= max_pages_per_division args
  | [(k1, start); (k2, count)] =>
      k1 = "start"%string /\ k2 = "count"%string
      /\ count = batch_size_of args /\ 1 <= count <= 100
      /\ 0 <= start < history_window_of args /\ start mod count = 0
  | _ => False
  end.

(** Calls for a page of the ladder. *)
Definition page_call (c : call) : bool :=
  match call_params c with
  | [(k, _)] => String.eqb k "page"
  | _ => false
  end.

(** The call of [get_json] for one page of a division. *)
Definition entries_call (division : string) (page : Z) (out : outcome json) : call :=
  {| call_url := entries_url division;
     call_params := [("page"%string, page)];
     call_result := out |}.

(** [s] does not begin with white space. *)
Definition no_leading_space (s : string) : Prop :=
  match s with
  | EmptyString => True
  | String c _ => is_space c = false
  end.

(** [s] holds a slash. *)
Fixpoint has_slash (s : string) : bool :=
  match s with
  | EmptyString => false
  | String c s' => is_slash c || has_slash s'
  end.

(** The demo API with three more endpoints: the document of match [t]
    (whose timeline is a 404), match [y], answered by a 429 with
    Retry-After 2 and then by its document, and the summoner [s1]. *)
Definition demo_remote_more (hist : list request) (rq : request) : reply :=
  let u := url rq in
  if String.eqb u (match_url "t") then ok (match_doc 420 1800)
  else if String.eqb u (match_url "y") then
    if (count_url u hist <? 1)%nat then failure 429 (Some "2"%string)
    else ok (match_doc 420 1800)
  else if String.eqb u (summoner_url "s1") then
    ok (JObj [("puuid"%string, JStr "p1")])
  else demo_remote hist rq.

Definition demo_world_more (files : gmap string file) : world :=
  {| environ := demo_env; fs := files; remote := demo_remote_more; sent := [];
     clock := map (fun n => inject_Z (Z.of_nat n)) (seq 0 20);
     slept := []; limiter := Limiter.default; calls := [] |}.

(** The demo API with a match [z] whose document has [info] set to
    [null]. *)
Definition demo_remote_null (hist : list request) (rq : request) : reply :=
  if String.eqb (url rq) (match_url "z") then ok (JObj [("info"%string, JNull)])
  else demo_remote hist rq.

Definition demo_world_null : world :=
  {| environ := demo_env; fs := ∅; remote := demo_remote_null; sent := [];
     clock := map (fun n => inject_Z (Z.of_nat n)) (seq 0 20);
     slept := []; limiter := Limiter.default; calls := [] |}.

(** Clock readings of which the last is earlier than the one before. *)
Definition clock_set_back : list Q := [100; 100; 203 # 2; 1003 # 10]%Q.

(** The timeline of match [c] on disk, without its detail file. *)
Definition timeline_file_c : gmap string file :=
  {[timeline_path "data/raw" "c" := Doc (JObj [("frames"%string, JArr [])])]}.

(** A ladder whose first page is refused. *)
Definition demo_remote_forbidden (hist : list request) (rq : request) : reply :=
  failure 403 None.

Definition demo_world_forbidden : world :=
  {| environ := demo_env; fs := matchlist_ab; remote := demo_remote_forbidden; sent := [];
     clock := map (fun n => inject_Z (Z.of_nat n)) (seq 0 20);
     slept := []; limiter := Limiter.default; calls := [] |}.

(** A limiter with capacities 1 and 5 that admitted one call at time 0. *)
Definition busy_limiter : Limiter.RiotRateLimiter :=
  {| Limiter.per_second := 1; Limiter.per_two_minutes := 5;
     Limiter.second_window := [0%Q]; Limiter.two_minute_window := [0%Q] |}.

(** The empty state of [main] before its loops. *)
Definition empty_state : run_state :=
  {| ordered_ids := []; known_ids := ∅; new_matches := [];
     skip_stats := ∅; puuid_cache := ∅ |}.


(** No file disappears. *)
Definition no_file_lost : relation world := fun w w' =>
  forall p, is_Some (fs w !! p) -> is_Some (fs w' !! p).


(** [m] never ends with a RuntimeError. *)
Definition no_runtime_error {A} (m : M A) : Prop :=
  forall w e, (m w).1 = Raise e -> is_RuntimeError e = false.

(** Query parameters other than a page number. *)
Definition not_page_params (ps : list (string * Z)) : Prop :=
  match ps with
  | [(k, _)] => String.eqb k "page" = false
  | _ => True
  end.


(** With [init] matches known at startup: the known matches are those and
    the accepted ones, and the accepted ones are at most the matches
    missing for the target, or one when none is missing. *)
Definition within_target (args : Args) (init : nat) (st : run_state) : Prop :=
  size (known_ids st) = (init + length (new_matches st))%nat
  /\ Z.of_nat (length (new_matches st)) <= Z.max 1 (target_match_count args - Z.of_nat init).

(** Nothing was accepted yet, or the target is not reached. *)
Definition may_accept (args : Args) (st : run_state) : Prop :=
  new_matches st = [] \/ Z.of_nat (size (known_ids st)) < target_match_count args.


(** * Properties *)

(** ** Computations *)

Lemma bind_run {A B} (m : M A) (f : A -> M B) (w : world) :
  (m ≫= f) w =
  match m w with
  | (Ok a, w') => f a w'
  | (Raise e, w') => (Raise e, w')
  | (Hang, w') => (Hang, w')
  end.
Proof. reflexivity. Qed.

Lemma bind_Ok {A B} (m : M A) (f : A -> M B) (w w' : world) (a : A) :
  m w = (Ok a, w') -> (m ≫= f) w = f a w'.
Proof. intros H. rewrite bind_run, H. reflexivity. Qed.

Lemma lift_inr {A} (a : A) (w : world) : lift (inr a) w = (Ok a, w).
Proof. reflexivity. Qed.

Lemma lift_inl {A} (e : exn) (w : world) : lift (A := A) (inl e) w = (Raise e, w).
Proof. reflexivity. Qed.

Section Preserves.
Context (R : relation world) `{!PreOrder R}.

Lemma preserves_ret {A} (a : A) : preserves R (mret a).
Proof. intros w. simpl. reflexivity. Qed.

Lemma preserves_raise {A} (e : exn) : preserves R (raise (A := A) e).
Proof. intros w. simpl. reflexivity. Qed.

Lemma preserves_lift {A} (r : exn + A) : preserves R (lift r).
Proof. destruct r; [apply preserves_raise | apply preserves_ret]. Qed.

Lemma preserves_bind {A B} (m : M A) (f : A -> M B) :
  preserves R m -> (forall a, preserves R (f a)) -> preserves R (m ≫= f).
Proof.
  intros Hm Hf w. rewrite bind_run. specialize (Hm w).
  destruct (m w) as [[a | e |] w1]; simpl in *; try assumption.
  transitivity w1; [assumption | apply Hf].
Qed.

Lemma preserves_try {A} (m : M A) : preserves R m -> preserves R (try_RuntimeError m).
Proof.
  intros Hm w. unfold try_RuntimeError. specialize (Hm w).
  destruct (m w) as [[a | [] |] w1]; simpl in *; assumption.
Qed.

Lemma preserves_if {A} (b : bool) (m1 m2 : M A) :
  preserves R m1 -> preserves R m2 -> preserves R (if b then m1 else m2).
Proof. destruct b; auto. Qed.
End Preserves.

#[local] Instance same_fs_preorder : PreOrder same_fs.
Proof. split; [intros w; reflexivity | intros w1 w2 w3 H1 H2; unfold same_fs in *; congruence]. Qed.

Lemma time_sleep_same_fs x : preserves same_fs (time_sleep x).
Proof. intros w. unfold time_sleep. destruct x; [destruct (Qle_bool 0 q) |..]; reflexivity. Qed.

Lemma limiter_wait_same_fs : preserves same_fs limiter_wait.
Proof.
  intros w. unfold limiter_wait.
  destruct (Limiter.wait _ _) as [[[[t l] rest] sl] |]; reflexivity.
Qed.

Lemma session_get_same_fs api u ps : preserves same_fs (session_get api u ps).
Proof. intros w. unfold session_get. destruct (remote w _ _); reflexivity. Qed.

Lemma get_json_attempts_same_fs api u ps retries attempts :
  preserves same_fs (get_json_attempts api u ps retries attempts).
Proof.
  induction attempts as [| attempt rest IH]; simpl.
  - apply preserves_raise; apply _.
  - apply preserves_bind; [apply _ | apply limiter_wait_same_fs |]. intros _.
    apply preserves_bind; [apply _ | apply session_get_same_fs |]. intros r.
    repeat apply preserves_if; try apply _.
    + apply preserves_bind; [apply _ | apply preserves_lift; apply _ |]. intros x.
      apply preserves_bind; [apply _ | apply time_sleep_same_fs |]. intros _. exact IH.
    + apply preserves_bind; [apply _ | apply time_sleep_same_fs |]. intros _. exact IH.
    + apply preserves_raise; apply _.
    + destruct (body r); [apply preserves_ret | apply preserves_raise]; apply _.
Qed.

Lemma get_json_same_fs api u ps retries : preserves same_fs (get_json api u ps retries).
Proof.
  intros w. unfold get_json.
  pose proof (get_json_attempts_same_fs api u ps retries (py_range 1 (retries + 1) 1) w) as H.
  destruct (get_json_attempts _ _ _ _ _ w) as [out w']. exact H.
Qed.

Lemma get_json_fs api u ps retries w out w' :
  get_json api u ps retries w = (out, w') -> fs w' = fs w.
Proof. intros H. pose proof (get_json_same_fs api u ps retries w) as F. rewrite H in F. exact F. Qed.


(** ** download_match_bundle *)

Lemma string_app_inv_head (s a b : string) : s +:+ a = s +:+ b -> a = b.
Proof. induction s as [| c s IH]; simpl; intros H; [exact H | injection H as H; auto]. Qed.

Lemma string_app_assoc (a b c : string) : (a +:+ b) +:+ c = a +:+ (b +:+ c).
Proof.
  induction a as [| x a IH]; [reflexivity |].
  change (String x ((a +:+ b) +:+ c) = String x (a +:+ (b +:+ c))). f_equal. exact IH.
Qed.

Lemma string_app_cons c (s t : string) : String c s +:+ t = String c (s +:+ t).
Proof. reflexivity. Qed.

Lemma has_slash_app (a b : string) : has_slash (a +:+ b) = has_slash a || has_slash b.
Proof.
  induction a as [| c a IH]; [reflexivity |].
  rewrite string_app_cons. cbn [has_slash]. rewrite IH. apply orb_assoc.
Qed.

Lemma split_slash_slash_free t : has_slash t = false -> split_slash t = [t].
Proof.
  induction t as [| c t IH]; [reflexivity |]. cbn [has_slash split_slash].
  intros H. apply orb_false_iff in H as [Hc Ht]. rewrite Hc, (IH Ht). reflexivity.
Qed.

(** The components of [m ++ t], for [t] without a slash: those of [m],
    with [t] appended to the last one. *)
Lemma split_slash_app m :
  exists front B,
    split_slash m = front ++ [B]
    /\ forall t, has_slash t = false -> split_slash (m +:+ t) = front ++ [B +:+ t].
Proof.
  induction m as [| c m (front & B & E & IH)].
  - exists [], "". split; [reflexivity |]. intros t Ht. apply split_slash_slash_free, Ht.
  - destruct (is_slash c) eqn:Hc.
    + exists ("" :: front), B. split.
      * cbn [split_slash]. rewrite Hc, E. reflexivity.
      * intros t Ht. rewrite string_app_cons. cbn [split_slash]. rewrite Hc, (IH t Ht).
        reflexivity.
    + destruct front as [| f front].
      * exists [], (String c B). split.
        -- cbn [split_slash]. rewrite Hc, E. reflexivity.
        -- intros t Ht. rewrite string_app_cons. cbn [split_slash]. rewrite Hc, (IH t Ht).
           reflexivity.
      * exists (String c f :: front), B. split.
        -- cbn [split_slash]. rewrite Hc, E. reflexivity.
        -- intros t Ht. rewrite string_app_cons. cbn [split_slash]. rewrite Hc, (IH t Ht).
           reflexivity.
Qed.

Lemma kept_two a b t : kept (String a (String b t)) = true.
Proof. unfold kept. cbn. destruct (Ascii.eqb a "."); reflexivity. Qed.

Lemma kept_long B a b t : kept (B +:+ String a (String b t)) = true.
Proof.
  destruct B as [| x [| y B]]; [apply kept_two | apply kept_two |].
  rewrite !string_app_cons. apply kept_two.
Qed.

Lemma root_of_app m a t : is_slash a = false -> root_of (m +:+ String a t) = root_of m.
Proof.
  intros Ha. destruct m as [| c1 [| c2 [| c3 m]]]; rewrite ?string_app_cons; cbn [root_of].
  - change ("" +:+ String a t) with (String a t). cbn [root_of]. rewrite Ha. reflexivity.
  - change ("" +:+ String a t) with (String a t). destruct (is_slash c1); [| reflexivity].
    rewrite Ha. reflexivity.
  - change ("" +:+ String a t) with (String a t).
    destruct (is_slash c1); [| reflexivity]. destruct (is_slash c2); [| reflexivity].
    rewrite Ha. reflexivity.
  - reflexivity.
Qed.

Lemma join_slash_snoc pre :
  exists L, (forall x, join_slash (pre ++ [x]) = L +:+ x)
            /\ (pre <> [] -> has_slash L = true).
Proof.
  induction pre as [| p pre (L & E & S)].
  - exists "". split; [reflexivity | congruence].
  - exists (p +:+ "/" +:+ L). split.
    + intros x. change ((p :: pre) ++ [x]) with (p :: (pre ++ [x])).
      cbn [join_slash]. destruct (pre ++ [x]) as [| y l] eqn:El.
      * destruct pre; discriminate.
      * rewrite <- El, E, !string_app_assoc. reflexivity.
    + intros _. rewrite !has_slash_app. cbn. apply orb_true_r.
Qed.

Lemma root_of_cases s : root_of s = "" \/ root_of s = "/" \/ root_of s = "//".
Proof.
  destruct s as [| c1 [| c2 [| c3 s]]]; cbn [root_of]; auto;
    repeat match goal with |- context [is_slash ?c] => destruct (is_slash c) end; auto.
Qed.

Lemma path_str_snoc root pre :
  exists L,
    (forall B a t, path_str root (pre ++ [B +:+ String a t])
                   = ((root +:+ L) +:+ B) +:+ String a t)
    /\ (pre <> [] -> has_slash L = true).
Proof.
  destruct (join_slash_snoc pre) as (L & J & S). exists L. split; [| exact S].
  intros B a t. unfold path_str. rewrite J, <- !string_app_assoc.
  destruct ((root +:+ L) +:+ B); reflexivity.
Qed.

(** The two paths of a bundle are one text followed by [.json] and by
    [_timeline.json]; the text holds a slash unless [dir] is the current
    directory. *)
Lemma path_join_suffix dir m :
  exists H,
    (forall a b t, has_slash (String a (String b t)) = false ->
       path_join dir (m +:+ String a (String b t)) = H +:+ String a (String b t))
    /\ (parts_of dir <> [] -> has_slash H = true).
Proof.
  destruct (split_slash_app m) as (front & B & E & Happ).
  assert (Hparts : forall a b t, has_slash (String a (String b t)) = false ->
            parts_of (m +:+ String a (String b t))
            = List.filter kept front ++ [B +:+ String a (String b t)]).
  { intros a b t Hx. unfold parts_of. rewrite (Happ _ Hx), List.filter_app.
    cbn [List.filter]. rewrite kept_long. reflexivity. }
  assert (Hroot : forall a b t, has_slash (String a (String b t)) = false ->
            root_of (m +:+ String a (String b t)) = root_of m).
  { intros a b t Hx. apply root_of_app. cbn [has_slash] in Hx.
    apply orb_false_iff in Hx as [Ha _]. exact Ha. }
  destruct (root_of_cases m) as [Hr | Hr].
  - destruct (path_str_snoc (root_of dir) (parts_of dir ++ List.filter kept front))
      as (L & HL & SL).
    exists ((root_of dir +:+ L) +:+ B). split.
    + intros a b t Hx. unfold path_join. rewrite (Hroot _ _ _ Hx), Hr, (Hparts _ _ _ Hx).
      rewrite app_assoc. apply HL.
    + intros Hd. rewrite !has_slash_app, SL; [destruct (has_slash (root_of dir)); reflexivity |].
      destruct (parts_of dir); [contradiction | discriminate].
  - destruct (path_str_snoc (root_of m) (List.filter kept front)) as (L & HL & _).
    exists ((root_of m +:+ L) +:+ B). split.
    + intros a b t Hx. unfold path_join. rewrite (Hroot _ _ _ Hx), (Hparts _ _ _ Hx).
      destruct Hr as [Hr | Hr]; rewrite Hr; rewrite Hr in HL; apply HL.
    + intros _. rewrite !has_slash_app. destruct Hr as [-> | ->]; reflexivity.
Qed.

Lemma match_path_ne_timeline_path raw_dir match_id :
  match_path raw_dir match_id <> timeline_path raw_dir match_id.
Proof.
  unfold match_path, timeline_path. destruct (path_join_suffix raw_dir match_id) as (H & E & _).
  rewrite (E "."%char "j"%char "son" eq_refl), (E "_"%char "t"%char "imeline.json" eq_refl). intros Heq.
  apply string_app_inv_head in Heq. discriminate.
Qed.

Lemma bundle_paths_have_slash raw_dir match_id :
  parts_of raw_dir <> [] ->
  has_slash (match_path raw_dir match_id) = true
  /\ has_slash (timeline_path raw_dir match_id) = true.
Proof.
  intros Hd. unfold match_path, timeline_path.
  destruct (path_join_suffix raw_dir match_id) as (H & E & S).
  rewrite (E "."%char "j"%char "son" eq_refl), (E "_"%char "t"%char "imeline.json" eq_refl), !has_slash_app, (S Hd).
  split; reflexivity.
Qed.

Lemma path_exists_run p w :
  path_exists p w = (Ok (bool_decide (is_Some (fs w !! p))), w).
Proof. reflexivity. Qed.

Lemma not_complete_test raw_dir match_id w :
  ~ bundle_complete raw_dir match_id w ->
  (e1 ← path_exists (match_path raw_dir match_id);
   e2 ← (if e1 then path_exists (timeline_path raw_dir match_id) else mret false);
   mret (e1 && e2)) w = (Ok false, w).
Proof.
  intros Hnc. rewrite bind_run, path_exists_run.
  destruct (bool_decide (is_Some (fs w !! match_path raw_dir match_id))) eqn:E1;
    [| reflexivity].
  rewrite bind_run, path_exists_run.
  destruct (bool_decide (is_Some (fs w !! timeline_path raw_dir match_id))) eqn:E2;
    [| reflexivity].
  exfalso. apply Hnc. split; eapply bool_decide_eq_true_1; eassumption.
Qed.

(** Entering [download_match_bundle] on an incomplete bundle: the first
    thing it does is fetch the detail document. *)
Ltac enter_download Hnc :=
  unfold download_match_bundle;
  let T := fresh "T" in
  pose proof (not_complete_test _ _ _ Hnc) as T;
  rewrite bind_run, path_exists_run in T; rewrite bind_run, path_exists_run;
  match goal with
  | |- context [bool_decide (is_Some (fs ?w !! match_path ?r ?m))] =>
      destruct (bool_decide (is_Some (fs w !! match_path r m)));
      [ rewrite bind_run, path_exists_run in T; rewrite bind_run, path_exists_run;
        destruct (bool_decide (is_Some (fs w !! timeline_path r m)));
        [ discriminate T | ]
      | rewrite bind_run ]
  end; cbn [mret M_ret andb]; clear T.

Lemma download_rejects_queue api match_id raw_dir min_duration allowed w doc w1 q :
  ~ bundle_complete raw_dir match_id w ->
  get_json api (match_url match_id) [] 5 w = (Ok doc, w1) ->
  match_queue_id doc = inr q ->
  queue_rejected allowed q = true ->
  download_match_bundle api match_id raw_dir min_duration allowed w
  = (Ok (false, "queue"%string), w1).
Proof.
  intros Hnc Hget Hq Hrej. unfold match_queue_id in Hq.
  enter_download Hnc; rewrite (bind_Ok _ _ _ _ _ Hget);
    (destruct (py_get doc "info" (JObj [])) as [e | info]; [discriminate |]);
    rewrite bind_run, lift_inr, Hq, bind_run, lift_inr, Hrej; reflexivity.
Qed.

(** The part of [download_match_bundle] after the detail document has
    been fetched and has passed the queue filter. *)
Lemma download_after_filter api match_id raw_dir min_duration allowed w doc w1 q d :
  ~ bundle_complete raw_dir match_id w ->
  get_json api (match_url match_id) [] 5 w = (Ok doc, w1) ->
  match_queue_id doc = inr q ->
  queue_rejected allowed q = false ->
  match_game_duration doc = inr d ->
  download_match_bundle api match_id raw_dir min_duration allowed w =
  if d <? min_duration then (Ok (false, "duration"%string), w1)
  else
    (write_json (match_path raw_dir match_id) doc;;
     e3 ← path_exists (timeline_path raw_dir match_id);
     if (e3 : bool) then mret (true, "stored"%string)
     else
       t ← try_RuntimeError (get_json api (timeline_url match_id) [] 5);
       match t with
       | inl _ => mret (false, "timeline"%string)
       | inr timeline_json =>
           write_json (timeline_path raw_dir match_id) timeline_json;;
           mret (true, "stored"%string)
       end) w1.
Proof.
  intros Hnc Hget Hq Hrej Hd. unfold match_queue_id in Hq. unfold match_game_duration in Hd.
  enter_download Hnc; rewrite (bind_Ok _ _ _ _ _ Hget);
    (destruct (py_get doc "info" (JObj [])) as [e | info]; [discriminate |]);
    rewrite bind_run, lift_inr, Hq, bind_run, lift_inr, Hrej;
    (destruct (py_get info "gameDuration" (JInt 0)) as [e | dv]; [discriminate |]);
    rewrite bind_run, lift_inr, Hd, bind_run, lift_inr;
    destruct (d <? min_duration); reflexivity.
Qed.

Lemma download_cached api match_id raw_dir min_duration allowed w :
  bundle_complete raw_dir match_id w ->
  download_match_bundle api match_id raw_dir min_duration allowed w
  = (Ok (true, "cached"%string), w).
Proof.
  intros [H1 H2]. unfold download_match_bundle.
  rewrite bind_run, path_exists_run, (bool_decide_eq_true_2 _ H1).
  rewrite bind_run, path_exists_run, (bool_decide_eq_true_2 _ H2).
  reflexivity.
Qed.

Lemma bundle_complete_dec raw_dir match_id w :
  bundle_complete raw_dir match_id w \/ ~ bundle_complete raw_dir match_id w.
Proof.
  unfold bundle_complete.
  destruct (fs w !! match_path raw_dir match_id) as [f1 |] eqn:E1;
    [| right; intros [[x Hx] _]; discriminate].
  destruct (fs w !! timeline_path raw_dir match_id) as [f2 |] eqn:E2;
    [| right; intros [_ [x Hx]]; discriminate].
  left. eauto.
Qed.

(** A fetched document that fails a filter: the answer, and no write. *)
Lemma download_skips api match_id raw_dir min_duration allowed w doc w1 q d :
  ~ bundle_complete raw_dir match_id w ->
  get_json api (match_url match_id) [] 5 w = (Ok doc, w1) ->
  match_queue_id doc = inr q ->
  match_game_duration doc = inr d ->
  d < min_duration ->
  download_match_bundle api match_id raw_dir min_duration allowed w
  = (Ok (false, if queue_rejected allowed q then "queue" else "duration")%string, w1).
Proof.
  intros Hnc Hget Hq Hd Hlt. destruct (queue_rejected allowed q) eqn:Hrej.
  - eapply download_rejects_queue; eauto.
  - rewrite (download_after_filter _ _ _ _ _ _ _ _ _ _ Hnc Hget Hq Hrej Hd).
    apply Z.ltb_lt in Hlt. rewrite Hlt. reflexivity.
Qed.

(** C1. When the detail file and the timeline file of a match are both on
    disk, [download_match_bundle] returns [(True, "cached")] and leaves the
    world as it was: no request is sent, no call of [get_json] is made, and
    the same holds for the invocation that follows. *)
Theorem cached_bundle_is_idempotent api match_id raw_dir min_duration allowed w :
  bundle_complete raw_dir match_id w ->
  let r := download_match_bundle api match_id raw_dir min_duration allowed w in
  r = (Ok (true, "cached"%string), w)
  /\ sent r.2 = sent w /\ calls r.2 = calls w
  /\ download_match_bundle api match_id raw_dir min_duration allowed r.2
     = (Ok (true, "cached"%string), w).
Proof.
  intros H. simpl. rewrite (download_cached _ _ _ _ _ _ H). simpl.
  rewrite (download_cached _ _ _ _ _ _ H). auto.
Qed.

(** C4 (amended). Take a match whose detail document, as [get_json]
    returns it, has a queue id that differs from the configured filter, or
    a duration below the configured minimum.  [download_match_bundle]
    writes no file for it.  When the bundle is not already complete on
    disk the call returns [(False, "queue")] in the first case and
    [(False, "duration")] in the second (["queue"] when both hold); a
    bundle that is complete on disk is returned as [(True, "cached")]
    before any filter is looked at. *)
Theorem rejected_match_is_not_written api match_id raw_dir min_duration allowed w doc w1 q :
  get_json api (match_url match_id) [] 5 w = (Ok doc, w1) ->
  match_queue_id doc = inr q ->
  let r := download_match_bundle api match_id raw_dir min_duration allowed w in
  (bundle_complete raw_dir match_id w -> r = (Ok (true, "cached"%string), w))
  /\ (forall allowed_id, allowed = Some allowed_id -> py_eq_int q allowed_id = false ->
       fs r.2 = fs w
       /\ (~ bundle_complete raw_dir match_id w -> r = (Ok (false, "queue"%string), w1)))
  /\ (forall d, match_game_duration doc = inr d -> d < min_duration ->
       fs r.2 = fs w
       /\ (~ bundle_complete raw_dir match_id w ->
           r = (Ok (false, if queue_rejected allowed q then "queue" else "duration")%string,
                w1))).
Proof.
  intros Hget Hq r. pose proof (get_json_fs _ _ _ _ _ _ _ Hget) as Hfs.
  split; [apply download_cached |]. split.
  - intros a -> Hne.
    assert (Hr : ~ bundle_complete raw_dir match_id w -> r = (Ok (false, "queue"%string), w1)).
    { intros Hnc. eapply download_rejects_queue; eauto. simpl. rewrite Hne. reflexivity. }
    split; [| exact Hr].
    destruct (bundle_complete_dec raw_dir match_id w) as [Hc | Hnc].
    + subst r. rewrite (download_cached _ _ _ _ _ _ Hc). reflexivity.
    + rewrite (Hr Hnc). exact Hfs.
  - intros d Hd Hlt.
    assert (Hr : ~ bundle_complete raw_dir match_id w ->
                 r = (Ok (false, if queue_rejected allowed q then "queue" else "duration")%string,
                      w1)).
    { intros Hnc. eapply download_skips; eauto. }
    split; [| exact Hr].
    destruct (bundle_complete_dec raw_dir match_id w) as [Hc | Hnc].
    + subst r. rewrite (download_cached _ _ _ _ _ _ Hc). reflexivity.
    + rewrite (Hr Hnc). exact Hfs.
Qed.

(** A document whose [info] is not a dict: the read of [queueId] raises
    AttributeError, after the fetch and before any write. *)
Lemma download_info_not_object api match_id raw_dir min_duration allowed w doc w1 info :
  ~ bundle_complete raw_dir match_id w ->
  get_json api (match_url match_id) [] 5 w = (Ok doc, w1) ->
  py_get doc "info" (JObj []) = inr info ->
  (forall kv, info <> JObj kv) ->
  download_match_bundle api match_id raw_dir min_duration allowed w
  = (Raise AttributeError, w1).
Proof.
  intros Hnc Hget Hinfo Hno.
  enter_download Hnc; rewrite (bind_Ok _ _ _ _ _ Hget);
    rewrite Hinfo, bind_run, lift_inr, bind_run;
    (destruct info; try reflexivity; destruct (Hno kv); reflexivity).
Qed.

(** C9 (amended). A fetched detail document whose [info] is a dict
    without [gameDuration], or which has no [info], has duration 0.  With
    a positive minimum duration the call writes nothing and returns
    [(False, "duration")] when the queue filter is off or equal to the
    document's queue id, and [(False, "queue")] when the filter rejects it,
    which it always does when [info] is absent.  When [info] is there but
    is not a dict ([null], say), the call raises AttributeError and writes
    nothing. *)
Theorem missing_duration_counts_as_zero api match_id raw_dir min_duration allowed w doc w1 :
  ~ bundle_complete raw_dir match_id w ->
  get_json api (match_url match_id) [] 5 w = (Ok doc, w1) ->
  0 < min_duration ->
  (lacks_game_duration doc ->
   match_game_duration doc = inr 0
   /\ (exists q, match_queue_id doc = inr q
       /\ download_match_bundle api match_id raw_dir min_duration allowed w
          = (Ok (false, if queue_rejected allowed q then "queue" else "duration")%string, w1)
       /\ fs w1 = fs w)
   /\ (py_get doc "info" (JObj []) = inr (JObj []) ->
       forall allowed_id, allowed = Some allowed_id ->
       download_match_bundle api match_id raw_dir min_duration allowed w
       = (Ok (false, "queue"%string), w1)))
  /\ (forall info, py_get doc "info" (JObj []) = inr info ->
      (forall kv, info <> JObj kv) ->
      download_match_bundle api match_id raw_dir min_duration allowed w
      = (Raise AttributeError, w1)
      /\ fs w1 = fs w).
Proof.
  intros Hnc Hget Hmin. split.
  - intros (kv & Hinfo & Hkey).
    assert (Hd : match_game_duration doc = inr 0).
    { unfold match_game_duration. rewrite Hinfo. simpl. rewrite Hkey. reflexivity. }
    assert (Hq : match_queue_id doc
                 = inr (match assoc "queueId" kv with Some v => v | None => JNull end)).
    { unfold match_queue_id. rewrite Hinfo. reflexivity. }
    split; [exact Hd |]. split.
    + eexists. split; [exact Hq |]. split; [| eapply get_json_fs; eassumption].
      eapply download_skips; eauto.
    + intros Hempty a ->. rewrite Hinfo in Hempty. injection Hempty as ->.
      eapply download_rejects_queue; eauto.
  - intros info Hinfo Hno. split; [| eapply get_json_fs; eassumption].
    eapply download_info_not_object; eauto.
Qed.

(** ** The history of calls *)

Section AttemptsPreserve.
Context (R : relation world) `{!PreOrder R}.
Hypothesis R_wait : preserves R limiter_wait.
Hypothesis R_get : forall api u ps, preserves R (session_get api u ps).
Hypothesis R_sleep : forall x, preserves R (time_sleep x).

Lemma get_json_attempts_preserves api u ps retries attempts :
  preserves R (get_json_attempts api u ps retries attempts).
Proof.
  induction attempts as [| attempt rest IH]; simpl.
  - apply preserves_raise; apply _.
  - apply preserves_bind; [apply _ | apply R_wait |]. intros _.
    apply preserves_bind; [apply _ | apply R_get |]. intros r.
    repeat apply preserves_if; try apply _.
    + apply preserves_bind; [apply _ | apply preserves_lift; apply _ |]. intros x.
      apply preserves_bind; [apply _ | apply R_sleep |]. intros _. exact IH.
    + apply preserves_bind; [apply _ | apply R_sleep |]. intros _. exact IH.
    + apply preserves_raise; apply _.
    + destruct (body r); [apply preserves_ret | apply preserves_raise]; apply _.
Qed.
End AttemptsPreserve.

#[local] Instance same_calls_preorder : PreOrder same_calls.
Proof. split; [intros w; reflexivity | intros w1 w2 w3 H1 H2; unfold same_calls in *; congruence]. Qed.

Lemma get_json_attempts_same_calls api u ps retries attempts :
  preserves same_calls (get_json_attempts api u ps retries attempts).
Proof.
  apply get_json_attempts_preserves; [apply _ | | |].
  - intros w. unfold limiter_wait.
    destruct (Limiter.wait _ _) as [[[[t l] rest] sl] |]; reflexivity.
  - intros a u' ps' w. unfold session_get. destruct (remote w _ _); reflexivity.
  - intros x w. unfold time_sleep. destruct x; [destruct (Qle_bool 0 q) |..]; reflexivity.
Qed.

(** A call of [get_json] adds itself, and nothing else, to the history. *)
Lemma get_json_calls api u ps retries w out w' :
  get_json api u ps retries w = (out, w') ->
  calls w' = calls w ++ [{| call_url := u; call_params := ps; call_result := out |}].
Proof.
  unfold get_json. intros H.
  pose proof (get_json_attempts_same_calls api u ps retries (py_range 1 (retries + 1) 1) w) as C.
  destruct (get_json_attempts _ _ _ _ _ w) as [o w1]. injection H as <- <-.
  simpl. unfold same_calls in C. simpl in C. rewrite C. reflexivity.
Qed.

#[local] Instance calls_grow_preorder P : PreOrder (calls_grow P).
Proof.
  split.
  - intros w. exists []. rewrite app_nil_r. auto.
  - intros w1 w2 w3 (l1 & E1 & F1) (l2 & E2 & F2). exists (l1 ++ l2).
    rewrite E2, E1, app_assoc. split; [reflexivity | apply Forall_app; auto].
Qed.

Lemma get_json_calls_grow (P : call -> Prop) api u ps retries :
  (forall out, P {| call_url := u; call_params := ps; call_result := out |}) ->
  preserves (calls_grow P) (get_json api u ps retries).
Proof.
  intros HP w. destruct (get_json api u ps retries w) as [out w'] eqn:E.
  apply get_json_calls in E. simpl. eexists. split; [exact E |].
  constructor; [apply HP | constructor].
Qed.

Lemma path_exists_calls_grow P p : preserves (calls_grow P) (path_exists p).
Proof. intros w. simpl. reflexivity. Qed.

Lemma write_json_calls_grow P p doc : preserves (calls_grow P) (write_json p doc).
Proof. intros w. simpl. exists []. rewrite app_nil_r. auto. Qed.

(** Going through a computation built from the steps above. *)
Ltac calls_grow_steps :=
  repeat first
    [ apply preserves_ret; apply _
    | apply preserves_raise; apply _
    | apply preserves_lift; apply _
    | apply path_exists_calls_grow
    | apply write_json_calls_grow
    | apply get_json_calls_grow; intros; solve [auto]
    | apply preserves_try
    | apply preserves_bind; [apply _ | | intros ?]
    | apply preserves_if
    | match goal with
      | |- preserves _ (match ?x with _ => _ end) => destruct x
      end ].

Lemma download_match_bundle_calls_grow (P : call -> Prop) api match_id raw_dir min_duration allowed :
  (forall u out, P {| call_url := u; call_params := []; call_result := out |}) ->
  preserves (calls_grow P) (download_match_bundle api match_id raw_dir min_duration allowed).
Proof. intros HP. unfold download_match_bundle. calls_grow_steps. Qed.

Lemma first_call {B} (P : call -> Prop) api u ps retries (f : json -> M B) w :
  (forall doc, preserves (calls_grow P) (f doc)) ->
  exists out rest,
    calls ((get_json api u ps retries ≫= f) w).2
    = calls w ++ {| call_url := u; call_params := ps; call_result := out |} :: rest.
Proof.
  intros Hf. rewrite bind_run.
  destruct (get_json api u ps retries w) as [out w1] eqn:E.
  pose proof (get_json_calls _ _ _ _ _ _ _ E) as C.
  destruct out as [doc | e |].
  - destruct (Hf doc w1) as (l & El & _). exists (Ok doc), l.
    rewrite El, C, <- app_assoc. reflexivity.
  - exists (Raise e), []. exact C.
  - exists Hang, []. exact C.
Qed.

Lemma detail_only_not_complete raw_dir match_id w :
  detail_only raw_dir match_id w -> ~ bundle_complete raw_dir match_id w.
Proof. intros [_ H] [_ [x Hx]]. congruence. Qed.

(** C2 (amended). On a bundle left with its detail file and no timeline
    file, [download_match_bundle] starts by calling [get_json] for the
    match detail again.  When that document passes the filters and the
    timeline is then fetched, the call rewrites the detail file, writes the
    timeline file, returns [(True, "stored")] and leaves the bundle
    complete. *)
Theorem detail_only_bundle_is_refetched api match_id raw_dir min_duration allowed w :
  detail_only raw_dir match_id w ->
  let r := download_match_bundle api match_id raw_dir min_duration allowed w in
  (exists out rest,
     calls r.2 = calls w ++
       {| call_url := match_url match_id; call_params := []; call_result := out |} :: rest)
  /\ (forall doc w1 q d tl w2,
       get_json api (match_url match_id) [] 5 w = (Ok doc, w1) ->
       match_queue_id doc = inr q ->
       queue_rejected allowed q = false ->
       match_game_duration doc = inr d ->
       min_duration <= d ->
       get_json api (timeline_url match_id) [] 5
         (set_fs (<[match_path raw_dir match_id := Doc doc]> (fs w1)) w1) = (Ok tl, w2) ->
       r = (Ok (true, "stored"%string),
            set_fs (<[timeline_path raw_dir match_id := Doc tl]> (fs w2)) w2)
       /\ fs r.2 !! match_path raw_dir match_id = Some (Doc doc)
       /\ fs r.2 !! timeline_path raw_dir match_id = Some (Doc tl)
       /\ bundle_complete raw_dir match_id r.2).
Proof.
  intros Hdo r. pose proof (detail_only_not_complete _ _ _ Hdo) as Hnc. split.
  - subst r. enter_download Hnc; apply (first_call (fun _ => True)); intros doc;
      calls_grow_steps.
  - intros doc w1 q d tl w2 Hget Hq Hrej Hd Hmin Htl.
    assert (Hr : r = (Ok (true, "stored"%string),
                      set_fs (<[timeline_path raw_dir match_id := Doc tl]> (fs w2)) w2)).
    { subst r.
      rewrite (download_after_filter _ _ _ _ _ _ _ _ _ _ Hnc Hget Hq Hrej Hd).
      apply Z.ltb_ge in Hmin. rewrite Hmin.
      rewrite bind_run. cbn [write_json]. rewrite bind_run, path_exists_run.
      cbn [set_fs fs].
      assert (Hno : <[match_path raw_dir match_id := Doc doc]> (fs w1)
                    !! timeline_path raw_dir match_id = None).
      { rewrite lookup_insert_ne by apply match_path_ne_timeline_path.
        rewrite (get_json_fs _ _ _ _ _ _ _ Hget). apply Hdo. }
      rewrite Hno.
      rewrite bool_decide_eq_false_2 by (intros [x Hx]; discriminate).
      rewrite bind_run. unfold try_RuntimeError. rewrite Htl. reflexivity. }
    rewrite Hr. split; [reflexivity |]. cbn [snd set_fs fs].
    pose proof (get_json_fs _ _ _ _ _ _ _ Htl) as F. cbn [set_fs fs] in F.
    assert (Hm : <[timeline_path raw_dir match_id := Doc tl]> (fs w2)
                 !! match_path raw_dir match_id = Some (Doc doc)).
    { rewrite lookup_insert_ne by (apply not_eq_sym, match_path_ne_timeline_path).
      rewrite F. apply lookup_insert_eq. }
    assert (Ht : <[timeline_path raw_dir match_id := Doc tl]> (fs w2)
                 !! timeline_path raw_dir match_id = Some (Doc tl))
      by apply lookup_insert_eq.
    split; [exact Hm |]. split; [exact Ht |].
    split; cbn [set_fs fs]; [rewrite Hm | rewrite Ht]; eauto.
Qed.

(** ** get_json *)

Lemma popleft_expired_length span now (w : list Q) :
  (length (Limiter.popleft_expired span now w) <= length w)%nat.
Proof.
  induction w as [| t w IH]; simpl; [lia |].
  destruct (Qle_bool span (now - t)); simpl; lia.
Qed.

(** Below 18 timestamps, [wait] returns at the first clock reading. *)
Lemma limiter_wait_small k w now rest :
  small k (limiter w) -> (k < 18)%nat -> clock w = now :: rest ->
  exists l', limiter_wait w = (Ok tt, set_slept (slept w ++ []) (set_limiter l' rest w))
             /\ small (S k) l'.
Proof.
  intros (C1 & C2 & L1 & L2) Hk Hclock. unfold limiter_wait. rewrite Hclock. simpl.
  unfold Limiter.wait_iteration.
  pose proof (popleft_expired_length 1 now (Limiter.second_window (limiter w))) as P1.
  pose proof (popleft_expired_length 120 now (Limiter.two_minute_window (limiter w))) as P2.
  assert (Hroom : Limiter.has_room (Limiter._trim_windows (limiter w) now) = true).
  { unfold Limiter.has_room. simpl. rewrite C1, C2.
    apply andb_true_iff. split; apply Z.ltb_lt; lia. }
  rewrite Hroom. eexists. split; [reflexivity |].
  unfold small. simpl. rewrite !length_app. simpl. repeat split; auto; lia.
Qed.

Lemma backoff_nonneg attempt : Qle_bool 0 (inject_Z (Z.min (2 ^ attempt) 10)) = true.
Proof.
  apply Qle_bool_iff. change 0%Q with (inject_Z 0). rewrite <- Zle_Qle.
  pose proof (Z.pow_nonneg 2 attempt). lia.
Qed.

(** One attempt that meets a 5xx response: the request is sent, the
    back-off is slept, and the loop goes on with the attempts left. *)
Lemma attempt_server_error api u ps retries attempt rest k w r :
  small k (limiter w) -> (k < 18)%nat -> clock w <> [] ->
  remote w (sent w) {| url := u; params := ps; token := api_key api |} = Reply r ->
  500 <= status_code r -> status_code r <> 429 ->
  exists w',
    get_json_attempts api u ps retries (attempt :: rest) w
    = get_json_attempts api u ps retries rest w'
    /\ small (S k) (limiter w')
    /\ sent w' = sent w ++ [{| url := u; params := ps; token := api_key api |}]
    /\ remote w' = remote w
    /\ length (clock w') = pred (length (clock w)).
Proof.
  intros Hs Hk Hclock Hr H500 H429.
  destruct (clock w) as [| now crest] eqn:Ec; [congruence |].
  destruct (limiter_wait_small k w now crest Hs Hk Ec) as (l' & Hw & Hs').
  cbn [get_json_attempts]. rewrite bind_run, Hw, bind_run.
  unfold session_get. cbn [remote sent set_slept set_limiter]. rewrite Hr.
  apply Z.eqb_neq in H429. rewrite H429.
  assert (G : (status_code r >=? 500) = true) by (apply Z.geb_le; lia). rewrite G.
  rewrite bind_run. unfold time_sleep. rewrite backoff_nonneg.
  eexists. split; [reflexivity |]. simpl. auto.
Qed.

Lemma attempt_success api u ps retries attempt rest k w r doc :
  small k (limiter w) -> (k < 18)%nat -> clock w <> [] ->
  remote w (sent w) {| url := u; params := ps; token := api_key api |} = Reply r ->
  status_code r < 400 -> body r = Some doc ->
  (get_json_attempts api u ps retries (attempt :: rest) w).1 = Ok doc.
Proof.
  intros Hs Hk Hclock Hr H400 Hbody.
  destruct (clock w) as [| now crest] eqn:Ec; [congruence |].
  destruct (limiter_wait_small k w now crest Hs Hk Ec) as (l' & Hw & Hs').
  cbn [get_json_attempts]. rewrite bind_run, Hw, bind_run.
  unfold session_get. cbn [remote sent set_slept set_limiter]. rewrite Hr.
  assert (E1 : (status_code r =? 429) = false) by (apply Z.eqb_neq; lia).
  assert (E2 : (status_code r >=? 500) = false) by (rewrite Z.geb_leb; apply Z.leb_gt; lia).
  assert (E3 : (status_code r >=? 400) = false) by (rewrite Z.geb_leb; apply Z.leb_gt; lia).
  rewrite E1, E2, E3, Hbody. reflexivity.
Qed.

Lemma get_json_outcome api u ps retries w :
  (get_json api u ps retries w).1
  = (get_json_attempts api u ps retries (py_range 1 (retries + 1) 1) w).1.
Proof. unfold get_json. destruct (get_json_attempts _ _ _ _ _ w). reflexivity. Qed.

Lemma get_json_sent api u ps retries w :
  sent (get_json api u ps retries w).2
  = sent (get_json_attempts api u ps retries (py_range 1 (retries + 1) 1) w).2.
Proof. unfold get_json. destruct (get_json_attempts _ _ _ _ _ w). reflexivity. Qed.

Lemma small_default : small 0 Limiter.default.
Proof. unfold small. simpl. auto. Qed.

(** C7. Against an endpoint that answers 503, 503, 503 and then 200,
    [get_json] with [retries=5] returns the body of the 200, and with
    [retries=3] it raises the RuntimeError of the exhausted attempts, after
    sending its three requests. *)
Theorem three_server_errors_then_success api u ps w doc :
  let rq := {| url := u; params := ps; token := api_key api |} in
  limiter w = Limiter.default ->
  (4 <= length (clock w))%nat ->
  (forall k, (k < 3)%nat ->
     exists r, remote w (sent w ++ repeat rq k) rq = Reply r /\ status_code r = 503) ->
  (exists r, remote w (sent w ++ repeat rq 3) rq = Reply r
             /\ status_code r = 200 /\ body r = Some doc) ->
  (get_json api u ps 5 w).1 = Ok doc
  /\ (get_json api u ps 3 w).1 = Raise (RuntimeError (GivingUp u 3))
  /\ sent (get_json api u ps 3 w).2 = sent w ++ repeat rq 3.
Proof.
  intros rq Hl Hclock H503 (r4 & Hr4 & S4 & B4).
  assert (Hs0 : small 0 (limiter w)) by (rewrite Hl; apply small_default).
  destruct (H503 0%nat ltac:(lia)) as (r1 & Hr1 & S1). simpl in Hr1. rewrite app_nil_r in Hr1.
  assert (step : forall retries a rest,
    exists w3,
      get_json_attempts api u ps retries (a :: a + 1 :: a + 2 :: rest) w
      = get_json_attempts api u ps retries rest w3
      /\ small 3 (limiter w3) /\ sent w3 = sent w ++ repeat rq 3
      /\ remote w3 = remote w /\ clock w3 <> []).
  { intros retries a rest.
    destruct (attempt_server_error api u ps retries a (a + 1 :: a + 2 :: rest) 0 w r1)
      as (w1 & E1 & Hs1 & T1 & R1 & C1); auto; try lia.
    { intros E. rewrite E in Hclock. simpl in Hclock. lia. }
    destruct (H503 1%nat ltac:(lia)) as (r2 & Hr2 & S2). simpl in Hr2.
    destruct (attempt_server_error api u ps retries (a + 1) (a + 2 :: rest) 1 w1 r2)
      as (w2 & E2 & Hs2 & T2 & R2 & C2); auto; try lia.
    { intros E. rewrite E in C1. simpl in C1. lia. }
    { rewrite R1, T1. exact Hr2. }
    destruct (H503 2%nat ltac:(lia)) as (r3 & Hr3 & S3). simpl in Hr3.
    destruct (attempt_server_error api u ps retries (a + 2) rest 2 w2 r3)
      as (w3 & E3 & Hs3 & T3 & R3 & C3); auto; try lia.
    { intros E. rewrite E in C2. simpl in C2. lia. }
    { rewrite R2, R1, T2, T1, <- app_assoc. exact Hr3. }
    exists w3. split; [congruence |]. split; [exact Hs3 |]. split.
    { rewrite T3, T2, T1, <- !app_assoc. reflexivity. }
    split; [congruence |].
    intros E. rewrite E in C3. simpl in C3. lia. }
  split; [| split].
  - rewrite get_json_outcome. change (py_range 1 (5 + 1) 1) with [1; 1 + 1; 1 + 2; 4; 5].
    destruct (step 5 1 [4; 5]) as (w3 & E & Hs3 & T3 & R3 & C3). rewrite E.
    eapply (attempt_success api u ps 5 4 [5] 3 w3 r4); auto; try lia.
    rewrite R3, T3. exact Hr4.
  - rewrite get_json_outcome. change (py_range 1 (3 + 1) 1) with [1; 1 + 1; 1 + 2].
    destruct (step 3 1 []) as (w3 & E & _). rewrite E. reflexivity.
  - rewrite get_json_sent. change (py_range 1 (3 + 1) 1) with [1; 1 + 1; 1 + 2].
    destruct (step 3 1 []) as (w3 & E & _ & T3 & _). rewrite E. exact T3.
Qed.

(** ** A 429 whose Retry-After is not a number *)

Lemma not_poisoned_nil R old : ~ poisoned R old [].
Proof. intros (pre & rq & post & E & _). destruct pre; discriminate. Qed.

Lemma poisoned_app R old n1 n2 :
  poisoned R old (n1 ++ n2) -> poisoned R old n1 \/ poisoned R (old ++ n1) n2.
Proof.
  intros (pre & rq & post & E & Hbad).
  symmetry in E. apply app_eq_app in E as [l [[E1 E2] | [E1 E2]]].
  - right. exists l, rq, post. subst. rewrite <- app_assoc. auto.
  - destruct l as [| x l].
    + right. exists [], rq, post. simpl in E2. rewrite app_nil_r in *. subst. auto.
    + left. simpl in E2. injection E2 as <- ->. exists pre, rq, l. auto.
Qed.

(** A step that sends nothing. *)
Lemma stops_silent {A} (m : M A) :
  (forall w, remote (m w).2 = remote w /\ sent (m w).2 = sent w) -> stops_at_bad_429 m.
Proof.
  intros H w. destruct (H w) as [R S]. split; [exact R |].
  exists []. rewrite app_nil_r. split; [exact S |].
  intros P. destruct (not_poisoned_nil _ _ P).
Qed.

Lemma stops_ret {A} (a : A) : stops_at_bad_429 (mret a).
Proof. apply stops_silent. intros w. auto. Qed.

Lemma stops_raise {A} (e : exn) : stops_at_bad_429 (raise (A := A) e).
Proof. apply stops_silent. intros w. auto. Qed.

Lemma stops_lift {A} (r : exn + A) : stops_at_bad_429 (lift r).
Proof. destruct r; [apply stops_raise | apply stops_ret]. Qed.

Lemma stops_bind {A B} (m : M A) (f : A -> M B) :
  stops_at_bad_429 m -> (forall a, stops_at_bad_429 (f a)) -> stops_at_bad_429 (m ≫= f).
Proof.
  intros Hm Hf w. rewrite bind_run. destruct (Hm w) as (R1 & n1 & S1 & P1).
  destruct (m w) as [[a | e |] w1]; simpl in *.
  - destruct (Hf a w1) as (R2 & n2 & S2 & P2). split; [congruence |].
    exists (n1 ++ n2). split; [rewrite S2, S1, app_assoc; reflexivity |].
    intros P. apply poisoned_app in P as [P | P].
    + specialize (P1 P). discriminate.
    + apply P2. rewrite R1, S1. exact P.
  - split; [exact R1 |]. exists n1. split; [exact S1 |].
    intros P. specialize (P1 P). congruence.
  - split; [exact R1 |]. exists n1. split; [exact S1 |].
    intros P. specialize (P1 P). discriminate.
Qed.

Lemma stops_try {A} (m : M A) : stops_at_bad_429 m -> stops_at_bad_429 (try_RuntimeError m).
Proof.
  intros Hm w. unfold try_RuntimeError. destruct (Hm w) as (R1 & n1 & S1 & P1).
  destruct (m w) as [[a | e |] w1]; simpl in *.
  - split; [exact R1 |]. exists n1. split; [exact S1 |]. intros P.
    specialize (P1 P). discriminate.
  - destruct e; simpl; (split; [exact R1 |]); exists n1; (split; [exact S1 |]);
      intros P; specialize (P1 P); (discriminate || congruence).
  - split; [exact R1 |]. exists n1. split; [exact S1 |].
    intros P. specialize (P1 P). discriminate.
Qed.

Lemma stops_if {A} (b : bool) (m1 m2 : M A) :
  stops_at_bad_429 m1 -> stops_at_bad_429 m2 -> stops_at_bad_429 (if b then m1 else m2).
Proof. destruct b; auto. Qed.

Lemma stops_limiter_wait : stops_at_bad_429 limiter_wait.
Proof.
  apply stops_silent. intros w. unfold limiter_wait.
  destruct (Limiter.wait _ _) as [[[[t l] rest] sl] |]; auto.
Qed.

Lemma stops_time_sleep x : stops_at_bad_429 (time_sleep x).
Proof.
  apply stops_silent. intros w. unfold time_sleep.
  destruct x; [destruct (Qle_bool 0 q) |..]; auto.
Qed.

Lemma stops_path_exists p : stops_at_bad_429 (path_exists p).
Proof. apply stops_silent. intros w. auto. Qed.

Lemma stops_write_json p doc : stops_at_bad_429 (write_json p doc).
Proof. apply stops_silent. intros w. auto. Qed.

Lemma stops_get_json_attempts api u ps retries attempts :
  stops_at_bad_429 (get_json_attempts api u ps retries attempts).
Proof.
  induction attempts as [| attempt rest IH]; cbn [get_json_attempts].
  - apply stops_raise.
  - apply stops_bind; [apply stops_limiter_wait |]. intros _ w.
    rewrite bind_run. unfold session_get.
    set (rq := {| url := u; params := ps; token := api_key api |}).
    set (w1 := set_sent (sent w ++ [rq]) w).
    assert (tail : forall (m : M json), stops_at_bad_429 m ->
              is_bad_429 (remote w (sent w) rq) = false ->
              remote (m w1).2 = remote w
              /\ exists new, sent (m w1).2 = sent w ++ new
                 /\ (poisoned (remote w) (sent w) new -> (m w1).1 = Raise ValueError)).
    { intros m Hm Hok. destruct (Hm w1) as (R & n & S & P). split; [exact R |].
      exists (rq :: n). split; [rewrite S; simpl; rewrite <- app_assoc; reflexivity |].
      intros Hp. apply (poisoned_app _ _ [rq] n) in Hp as [Hp | Hp].
      - destruct Hp as (pre & rq' & post & E & Hbad).
        destruct pre as [| x pre]; [| destruct pre; discriminate].
        injection E as <- _. rewrite app_nil_r in Hbad. congruence.
      - apply P. exact Hp. }
    destruct (remote w (sent w) rq) as [r |] eqn:Hr.
    + destruct (status_code r =? 429) eqn:E429.
      * destruct (retry_after_seconds r) as [e | x] eqn:Hx.
        -- (* float raises *)
           rewrite bind_run, lift_inl. simpl. split; [reflexivity |].
           exists [rq]. split; [reflexivity |]. intros _.
           unfold retry_after_seconds in Hx.
           destruct (retry_after r) as [s |]; [| discriminate].
           destruct (float_of_str s); [discriminate |]. injection Hx as <-. reflexivity.
        -- rewrite bind_run, lift_inr. apply tail.
           ++ apply stops_bind; [apply stops_time_sleep | intros _; exact IH].
           ++ unfold is_bad_429. rewrite E429. unfold retry_after_seconds in Hx.
              destruct (retry_after r) as [s |]; [| reflexivity].
              destruct (float_of_str s); [reflexivity | discriminate].
      * assert (Hok : is_bad_429 (Reply r) = false) by (simpl; rewrite E429; reflexivity).
        destruct (status_code r >=? 500).
        -- apply tail; [| exact Hok].
           apply stops_bind; [apply stops_time_sleep | intros _; exact IH].
        -- destruct (status_code r >=? 400).
           ++ apply (tail (raise _)); [apply stops_raise | exact Hok].
           ++ destruct (body r).
              ** apply (tail (mret _)); [apply stops_ret | exact Hok].
              ** apply (tail (raise _)); [apply stops_raise | exact Hok].
    + apply (tail (raise RequestException)); [apply stops_raise | reflexivity].
Qed.

Lemma stops_get_json api u ps retries : stops_at_bad_429 (get_json api u ps retries).
Proof.
  intros w. unfold get_json.
  pose proof (stops_get_json_attempts api u ps retries (py_range 1 (retries + 1) 1) w) as H.
  destruct (get_json_attempts _ _ _ _ _ w) as [out w']. exact H.
Qed.


Ltac stops_steps :=
  repeat first
    [ apply stops_ret
    | apply stops_raise
    | apply stops_lift
    | apply stops_path_exists
    | apply stops_write_json
    | apply stops_get_json
    | apply stops_try
    | apply stops_bind; [| intros ?]
    | apply stops_if
    | match goal with
      | |- stops_at_bad_429 (match ?x with _ => _ end) => destruct x
      end ].

Lemma stops_download_match_bundle api match_id raw_dir min_duration allowed :
  stops_at_bad_429 (download_match_bundle api match_id raw_dir min_duration allowed).
Proof. unfold download_match_bundle. stops_steps. Qed.

Lemma stops_fetch_puuid api summoner_id st : stops_at_bad_429 (fetch_puuid api summoner_id st).
Proof. unfold fetch_puuid. stops_steps. Qed.

Lemma stops_store_batch api args queue_filter match_ids :
  forall st, stops_at_bad_429 (store_batch api args queue_filter match_ids st).
Proof.
  induction match_ids as [| match_id rest IH]; intros st; cbn [store_batch].
  - apply stops_ret.
  - apply stops_if; [apply IH |].
    apply stops_bind; [apply stops_try, stops_download_match_bundle |].
    intros [r | [stored reason]]; [apply IH |].
    repeat apply stops_if; try apply IH. apply stops_ret.
Qed.

Lemma stops_scan_player api args queue_filter puuid batch_size starts :
  forall st, stops_at_bad_429 (scan_player api args queue_filter puuid batch_size starts st).
Proof.
  induction starts as [| start rest IH]; intros st; cbn [scan_player].
  - apply stops_ret.
  - apply stops_bind; [apply stops_try, stops_get_json |].
    intros [r | match_ids]; [apply stops_ret |].
    apply stops_if; [apply stops_ret |].
    apply stops_bind; [apply stops_lift |]. intros l.
    apply stops_bind; [apply stops_lift |]. intros ids.
    apply stops_bind; [apply stops_store_batch |]. intros st'.
    apply stops_if; [apply stops_ret | apply IH].
Qed.

Lemma stops_main_entry api args batch_size hw queue_filter entry st :
  stops_at_bad_429 (main_entry api args batch_size hw queue_filter entry st).
Proof.
  unfold main_entry.
  apply stops_bind; [apply stops_lift |]. intros puuid0.
  apply stops_bind.
  - apply stops_if; [apply stops_ret |].
    apply stops_bind; [apply stops_lift |]. intros s1.
    apply stops_bind; [apply stops_if; [apply stops_ret | apply stops_lift] |]. intros s.
    apply stops_if; [apply stops_ret |].
    apply stops_bind; [apply stops_lift |]. intros summoner_id.
    apply stops_bind; [apply stops_fetch_puuid |]. intros r. apply stops_ret.
  - intros [[puuid |] st1]; [| apply stops_ret].
    apply stops_if; [apply stops_ret |].
    apply stops_bind; [apply stops_lift |]. intros p.
    apply stops_bind; [apply stops_scan_player |]. intros st2.
    apply stops_if; apply stops_ret.
Qed.

Section LadderWalk.
Context {S : Type} (body : json -> S -> M (flow * S)).
Hypothesis stops_body : forall entry st, stops_at_bad_429 (body entry st).

Lemma stops_yield_entries entries : forall st, stops_at_bad_429 (yield_entries body entries st).
Proof.
  induction entries as [| entry rest IH]; intros st; cbn [yield_entries].
  - apply stops_ret.
  - apply stops_bind; [apply stops_body |]. intros [[|] st']; [apply IH | apply stops_ret].
Qed.

Lemma stops_walk_pages api division pages :
  forall st, stops_at_bad_429 (walk_pages api body division pages st).
Proof.
  induction pages as [| page rest IH]; intros st; cbn [walk_pages].
  - apply stops_ret.
  - apply stops_bind; [apply stops_get_json |]. intros entries.
    apply stops_if; [apply stops_ret |].
    apply stops_bind; [apply stops_lift |]. intros l.
    apply stops_bind; [apply stops_yield_entries |].
    intros [[|] st']; [apply IH | apply stops_ret].
Qed.

Lemma stops_walk_divisions api max_pages divisions :
  forall st, stops_at_bad_429 (walk_divisions api body max_pages divisions st).
Proof.
  induction divisions as [| division rest IH]; intros st; cbn [walk_divisions].
  - apply stops_ret.
  - apply stops_bind; [apply stops_walk_pages |].
    intros [[|] st']; [apply IH | apply stops_ret].
Qed.
End LadderWalk.

Lemma stops_main_collect args : stops_at_bad_429 (main_collect args).
Proof.
  unfold main_collect. apply stops_bind.
  { apply stops_silent. intros w. unfold load_api_key.
    destruct (environ w !! _) as [[| c k] |]; auto;
      destruct (fs w !! _) as [[t | j] |]; auto. }
  intros [[| c k] |]; try apply stops_ret.
  apply stops_bind; [apply stops_silent; intros w; auto |]. intros api.
  apply stops_bind.
  { apply stops_silent. intros w. unfold load_existing_matchlist.
    destruct (fs w !! _) as [[t | j] |]; auto.
    destruct (py_iter j) as [e | l]; auto. destruct (as_strs l); auto. }
  intros loaded. apply stops_bind; [| intros r; apply stops_ret].
  apply stops_walk_divisions. intros entry st. apply stops_main_entry.
Qed.

Lemma stops_main args : stops_at_bad_429 (main args).
Proof.
  unfold main. apply stops_bind; [apply stops_main_collect |].
  intros [status | st]; [apply stops_ret |].
  apply stops_bind; [| intros _; apply stops_ret].
  destruct (new_matches st); [apply stops_ret | apply stops_write_json].
Qed.

Lemma new_sent_app w w' l : sent w' = sent w ++ l -> new_sent w w' = l.
Proof. intros E. unfold new_sent. rewrite E. apply drop_app_length. Qed.


(** ** The scan of one player's history *)

Lemma py_range_lookup start stop step (i : nat) x :
  py_range start stop step !! i = Some x -> x = start + Z.of_nat i * step.
Proof.
  unfold py_range. rewrite list_lookup_fmap. intros H.
  destruct (seq 0 _ !! i) as [k |] eqn:E; [| discriminate].
  apply lookup_seq in E as [-> _]. injection H as <-. reflexivity.
Qed.

Lemma py_range_length start stop step :
  length (py_range start stop step) = Z.to_nat ((stop - start + step - 1) / step).
Proof. unfold py_range. rewrite length_map, length_seq. reflexivity. Qed.

Lemma py_range_below stop step (i : nat) x :
  0 < step -> py_range 0 stop step !! i = Some x -> x < stop.
Proof.
  intros Hstep H. pose proof (py_range_lookup _ _ _ _ _ H) as ->.
  apply lookup_lt_Some in H. rewrite py_range_length in H.
  assert (Hq : Z.of_nat i < (stop - 0 + step - 1) / step) by lia.
  Z.to_euclidean_division_equations. nia.
Qed.

Lemma py_range_covers stop step :
  0 < step -> stop <= Z.of_nat (length (py_range 0 stop step)) * step.
Proof.
  intros Hstep. rewrite py_range_length.
  set (q := (stop - 0 + step - 1) / step).
  assert (E : Z.of_nat (Z.to_nat q) = Z.max 0 q) by lia.
  rewrite E. subst q. Z.to_euclidean_division_equations. nia.
Qed.

Lemma store_batch_calls_grow (P : call -> Prop) api args queue_filter match_ids :
  (forall u out, P {| call_url := u; call_params := []; call_result := out |}) ->
  forall st, preserves (calls_grow P) (store_batch api args queue_filter match_ids st).
Proof.
  intros HP. induction match_ids as [| match_id rest IH]; intros st; cbn [store_batch].
  - apply preserves_ret; apply _.
  - apply preserves_if; [apply IH |].
    apply preserves_bind; [apply _ | |].
    { apply preserves_try. apply download_match_bundle_calls_grow, HP. }
    intros [r | [stored reason]]; [apply IH |].
    repeat apply preserves_if; try apply IH.
    apply preserves_ret; apply _.
Qed.

Lemma filter_paged_unpaged (l : list call) :
  Forall (fun c => call_params c = []) l -> List.filter paged l = [].
Proof.
  induction 1 as [| c l Hc _ IH]; simpl; [reflexivity |].
  unfold paged at 1. rewrite Hc. exact IH.
Qed.

Lemma py_range_head start stop step :
  0 < step -> start < stop -> exists rest, py_range start stop step = start :: rest.
Proof.
  intros Hstep Hlt. unfold py_range.
  assert (Hq : 1 <= (stop - start + step - 1) / step).
  { apply Z.div_le_lower_bound; lia. }
  destruct (Z.to_nat ((stop - start + step - 1) / step)) as [| n] eqn:E; [lia |].
  simpl. eexists. f_equal. lia.
Qed.

(** The batches requested by the loop over [starts]: one call per offset,
    in order, for some first offsets, the first of them always; a call is
    followed by another only when it returned a non-empty document; and a
    scan that returns has used up the offsets, or reached the target, or
    its last batch did not come back as a non-empty document. *)
Lemma scan_player_pages api args queue_filter puuid batch_size starts :
  forall st w,
  exists l outs,
    calls (scan_player api args queue_filter puuid batch_size starts st w).2 = calls w ++ l
    /\ (length outs <= length starts)%nat
    /\ (starts <> [] -> outs <> [])
    /\ List.filter paged l = zip_with (ids_call puuid batch_size) starts outs
    /\ all_but_last_nonempty outs
    /\ (forall st',
          (scan_player api args queue_filter puuid batch_size starts st w).1 = Ok st' ->
          length outs = length starts
          \/ target_reached args st' = true
          \/ exists pre out, outs = pre ++ [out] /\ ~ nonempty_batch out).
Proof.
  induction starts as [| start rest IH]; intros st w; cbn [scan_player].
  - exists [], []. simpl. rewrite app_nil_r. repeat split; auto.
  - rewrite bind_run. unfold try_RuntimeError.
    destruct (get_json api (ids_url puuid) _ 5 w) as [out w1] eqn:Hget.
    pose proof (get_json_calls _ _ _ _ _ _ _ Hget) as C1.
    assert (stop : forall (res : outcome run_state) (w' : world),
              calls w' = calls w1 ->
              (forall st', res = Ok st' -> ~ nonempty_batch out) ->
              exists l outs, calls w' = calls w ++ l
                /\ (length outs <= S (length rest))%nat
                /\ (start :: rest <> [] -> outs <> [])
                /\ List.filter paged l = zip_with (ids_call puuid batch_size) (start :: rest) outs
                /\ all_but_last_nonempty outs
                /\ (forall st', res = Ok st' ->
                      length outs = S (length rest)
                      \/ target_reached args st' = true
                      \/ exists pre out0, outs = pre ++ [out0] /\ ~ nonempty_batch out0)).
    { intros res w' E Hne. eexists _, [out]. rewrite E, C1. split; [reflexivity |].
      simpl. split; [lia |]. split; [discriminate |].
      split; [destruct rest; reflexivity |]. split; [exact I |].
      intros st' Hres. right. right. exists [], out. split; [reflexivity | eauto]. }
    assert (after : forall (res : outcome run_state) (w' : world) l2 match_ids,
              out = Ok match_ids -> truthy match_ids = true ->
              calls w' = calls w1 ++ l2 -> List.filter paged l2 = [] ->
              (forall st', res = Ok st' -> target_reached args st' = true) ->
              exists l outs, calls w' = calls w ++ l
                /\ (length outs <= S (length rest))%nat
                /\ (start :: rest <> [] -> outs <> [])
                /\ List.filter paged l = zip_with (ids_call puuid batch_size) (start :: rest) outs
                /\ all_but_last_nonempty outs
                /\ (forall st', res = Ok st' ->
                      length outs = S (length rest)
                      \/ target_reached args st' = true
                      \/ exists pre out0, outs = pre ++ [out0] /\ ~ nonempty_batch out0)).
    { intros res w' l2 match_ids -> Htruthy C2 F2 Hres.
      eexists _, [Ok match_ids]. rewrite C2, C1, <- app_assoc.
      split; [reflexivity |]. simpl. split; [lia |]. split; [discriminate |].
      split; [| split; [exact I |]].
      - try rewrite List.filter_app. rewrite F2. destruct rest; reflexivity.
      - intros st' E. right. left. exact (Hres st' E). }
    destruct out as [match_ids | e |].
    2:{ destruct e; simpl; apply stop; try reflexivity;
          intros st' E; try discriminate E; intros (doc & Hdoc & _); discriminate Hdoc. }
    2:{ simpl. apply stop; [reflexivity |]. intros st' E. discriminate E. }
    destruct (truthy match_ids) eqn:Htruthy; simpl.
    2:{ apply stop; [reflexivity |]. intros st' _ (doc & [= <-] & Ht). congruence. }
    rewrite bind_run.
    destruct (py_iter match_ids) as [e | l0].
    { simpl. apply stop; [reflexivity |]. intros st' E. discriminate E. }
    rewrite lift_inr, bind_run.
    destruct (as_strs l0) as [ids |].
    2:{ simpl. apply stop; [reflexivity |]. intros st' E. discriminate E. }
    simpl. rewrite bind_run.
    destruct (store_batch_calls_grow (fun c => call_params c = []) api args queue_filter ids
                ltac:(reflexivity) st w1) as (l2 & C2 & F2).
    apply filter_paged_unpaged in F2.
    destruct (store_batch api args queue_filter ids st w1) as [[st' | e |] w2]; cbn [snd] in C2.
    + destruct (target_reached args st') eqn:Hreached.
      * apply (after _ _ l2 match_ids eq_refl Htruthy C2 F2).
        intros st'' [= <-]. exact Hreached.
      * destruct (IH st' w2) as (l3 & outs & C3 & L3 & N3 & F3 & A3 & R3).
        exists ((ids_call puuid batch_size start (Ok match_ids) :: l2) ++ l3),
               (Ok match_ids :: outs).
        rewrite C3, C2, C1, <- !app_assoc. split; [reflexivity |].
        simpl. split; [lia |]. split; [discriminate |]. split; [| split].
        -- rewrite List.filter_app, F2, F3. reflexivity.
        -- destruct outs; [exact I |]. split; [| exact A3].
           exists match_ids. auto.
        -- intros st'' E. destruct (R3 st'' E) as [Hl | [Ht | (pre & o & -> & Hn)]].
           ++ left. lia.
           ++ right. left. exact Ht.
           ++ right. right. exists (Ok match_ids :: pre), o. split; [reflexivity | exact Hn].
    + apply (after _ _ l2 match_ids eq_refl Htruthy C2 F2). intros st'' E. discriminate E.
    + apply (after _ _ l2 match_ids eq_refl Htruthy C2 F2). intros st'' E. discriminate E.
Qed.

Lemma new_calls_app w w' l : calls w' = calls w ++ l -> new_calls w w' = l.
Proof. intros E. unfold new_calls. rewrite E. apply drop_app_length. Qed.

Lemma batch_size_positive args : 0 < batch_size_of args.
Proof. unfold batch_size_of. lia. Qed.


(** ** The match list during a run *)

Lemma keeps_ret {A} (I : A -> Prop) (a : A) : I a -> keeps I (mret a).
Proof. intros H w a' w' E. injection E as <- _. exact H. Qed.

Lemma keeps_bind {A B} (J : A -> Prop) (I : B -> Prop) (m : M A) (f : A -> M B) :
  keeps J m -> (forall a, J a -> keeps I (f a)) -> keeps I (m ≫= f).
Proof.
  intros Hm Hf w b w' E. rewrite bind_run in E.
  destruct (m w) as [[a | e |] w1] eqn:Em; try discriminate.
  exact (Hf a (Hm _ _ _ Em) _ _ _ E).
Qed.

Lemma keeps_any {A} (m : M A) : keeps (fun _ => True) m.
Proof. intros w a w' _. exact I. Qed.

Lemma keeps_if {A} (I : A -> Prop) (b : bool) (m1 m2 : M A) :
  keeps I m1 -> keeps I m2 -> keeps I (if b then m1 else m2).
Proof. destruct b; auto. Qed.

Lemma merge_inv_count_skip old label st : merge_inv old st -> merge_inv old (count_skip label st).
Proof. intros H. exact H. Qed.

Lemma merge_inv_set_cache old c st : merge_inv old st -> merge_inv old (set_cache c st).
Proof. intros H. exact H. Qed.

Lemma merge_inv_accept old match_id st :
  merge_inv old st -> match_id ∉ known_ids st -> merge_inv old (accept match_id st).
Proof.
  intros (Ho & Hk & Hn & Hf) Hnew. unfold merge_inv. simpl.
  rewrite Hk in Hnew. rewrite Ho in Hnew.
  rewrite elem_of_list_to_set, elem_of_app in Hnew.
  split; [rewrite Ho, app_assoc; reflexivity |]. split; [| split].
  - rewrite Hk, list_to_set_app_L. simpl. rewrite (right_id_L ∅ (∪)). apply (comm_L (∪)).
  - apply NoDup_app. split; [exact Hn |]. split; [| apply NoDup_singleton].
    intros x Hx Hx'. apply list_elem_of_singleton in Hx' as ->. tauto.
  - apply Forall_app. split; [exact Hf |]. constructor; [tauto | constructor].
Qed.

Lemma merge_inv_NoDup old st : merge_inv old st -> NoDup old -> NoDup (ordered_ids st).
Proof.
  intros (Ho & _ & Hn & Hf) Hold. rewrite Ho. apply NoDup_app.
  split; [exact Hold |]. split; [| exact Hn].
  intros x Hx Hx'. rewrite Forall_forall in Hf. exact (Hf x Hx' Hx).
Qed.

Lemma store_batch_merge_inv old api args queue_filter match_ids :
  forall st, merge_inv old st ->
  keeps (merge_inv old) (store_batch api args queue_filter match_ids st).
Proof.
  induction match_ids as [| match_id rest IH]; intros st Hst; cbn [store_batch].
  - apply keeps_ret, Hst.
  - destruct (bool_decide (match_id ∈ known_ids st)) eqn:Hknown.
    + apply IH, merge_inv_count_skip, Hst.
    + apply bool_decide_eq_false_1 in Hknown.
      eapply keeps_bind; [apply keeps_any |].
      intros [r | [stored reason]] _; [apply IH, merge_inv_count_skip, Hst |].
      destruct stored; simpl; [| apply IH, merge_inv_count_skip, Hst].
      pose proof (merge_inv_accept old match_id st Hst Hknown) as Hacc.
      apply keeps_if; [apply keeps_ret, Hacc | apply IH, Hacc].
Qed.

Lemma scan_player_merge_inv old api args queue_filter puuid batch_size starts :
  forall st, merge_inv old st ->
  keeps (merge_inv old) (scan_player api args queue_filter puuid batch_size starts st).
Proof.
  induction starts as [| start rest IH]; intros st Hst; cbn [scan_player].
  - apply keeps_ret, Hst.
  - eapply keeps_bind; [apply keeps_any |].
    intros [r | match_ids] _; [apply keeps_ret, merge_inv_count_skip, Hst |].
    apply keeps_if; [apply keeps_ret, Hst |].
    eapply keeps_bind; [apply keeps_any |]. intros l _.
    eapply keeps_bind; [apply keeps_any |]. intros ids _.
    eapply keeps_bind; [apply store_batch_merge_inv, Hst |]. intros st' Hst'.
    apply keeps_if; [apply keeps_ret, Hst' | apply IH, Hst'].
Qed.

Lemma fetch_puuid_merge_inv old api summoner_id st :
  merge_inv old st ->
  keeps (fun r => merge_inv old r.2) (fetch_puuid api summoner_id st).
Proof.
  intros Hst. unfold fetch_puuid.
  destruct (puuid_cache st !! summoner_id); [apply keeps_ret, Hst |].
  eapply keeps_bind; [apply keeps_any |]. intros data _.
  eapply keeps_bind; [apply keeps_any |]. intros puuid _.
  apply keeps_if; apply keeps_ret; [apply merge_inv_set_cache |]; exact Hst.
Qed.

Lemma main_entry_merge_inv old api args batch_size hw queue_filter entry st :
  merge_inv old st ->
  keeps (fun r => merge_inv old r.2) (main_entry api args batch_size hw queue_filter entry st).
Proof.
  intros Hst. unfold main_entry.
  eapply keeps_bind; [apply keeps_any |]. intros puuid0 _.
  eapply (keeps_bind (fun r => merge_inv old r.2)).
  - apply keeps_if; [apply keeps_ret, Hst |].
    eapply keeps_bind; [apply keeps_any |]. intros s1 _.
    eapply keeps_bind; [apply keeps_any |]. intros s _.
    apply keeps_if; [apply keeps_ret, Hst |].
    eapply keeps_bind; [apply keeps_any |]. intros summoner_id _.
    eapply keeps_bind; [apply fetch_puuid_merge_inv, Hst |].
    intros r Hr. apply keeps_ret, Hr.
  - intros [[puuid |] st1] Hst1; simpl in Hst1; [| apply keeps_ret, Hst1].
    apply keeps_if; [apply keeps_ret, Hst1 |].
    eapply keeps_bind; [apply keeps_any |]. intros p _.
    eapply keeps_bind; [apply scan_player_merge_inv, Hst1 |]. intros st2 Hst2.
    apply keeps_if; apply keeps_ret, Hst2.
Qed.

Section LadderWalkKeeps.
Context {S : Type} (I : S -> Prop) (body : json -> S -> M (flow * S)).
Hypothesis keeps_body : forall entry st, I st -> keeps (fun r => I r.2) (body entry st).

Lemma yield_entries_keeps entries :
  forall st, I st -> keeps (fun r => I r.2) (yield_entries body entries st).
Proof.
  induction entries as [| entry rest IH]; intros st Hst; cbn [yield_entries].
  - apply keeps_ret, Hst.
  - eapply keeps_bind; [apply keeps_body, Hst |].
    intros [[|] st'] Hst'; [apply IH, Hst' | apply keeps_ret, Hst'].
Qed.

Lemma walk_pages_keeps api division pages :
  forall st, I st -> keeps (fun r => I r.2) (walk_pages api body division pages st).
Proof.
  induction pages as [| page rest IH]; intros st Hst; cbn [walk_pages].
  - apply keeps_ret, Hst.
  - eapply keeps_bind; [apply keeps_any |]. intros entries _.
    apply keeps_if; [apply keeps_ret, Hst |].
    eapply keeps_bind; [apply keeps_any |]. intros l _.
    eapply keeps_bind; [apply yield_entries_keeps, Hst |].
    intros [[|] st'] Hst'; [apply IH, Hst' | apply keeps_ret, Hst'].
Qed.

Lemma walk_divisions_keeps api max_pages divisions :
  forall st, I st -> keeps (fun r => I r.2) (walk_divisions api body max_pages divisions st).
Proof.
  induction divisions as [| division rest IH]; intros st Hst; cbn [walk_divisions].
  - apply keeps_ret, Hst.
  - eapply keeps_bind; [apply walk_pages_keeps, Hst |].
    intros [[|] st'] Hst'; [apply IH, Hst' | apply keeps_ret, Hst'].
Qed.
End LadderWalkKeeps.

Lemma load_existing_matchlist_ok path w o k w' :
  load_existing_matchlist path w = (Ok (o, k), w') ->
  persisted_ids path w = Some o /\ k = list_to_set o /\ w' = w.
Proof.
  unfold load_existing_matchlist, persisted_ids.
  destruct (fs w !! path) as [[t | data] |]; try discriminate.
  - destruct (py_iter data) as [e | l]; [discriminate |].
    destruct (as_strs l) as [ids |]; [| discriminate].
    intros E. injection E as <- <- <-. auto.
  - intros E. injection E as <- <- <-. auto.
Qed.

Lemma load_api_key_run env_var env_file w :
  exists key, load_api_key env_var env_file w = (Ok key, w).
Proof.
  unfold load_api_key. destruct (environ w !! env_var) as [[| c k] |]; eauto;
    destruct (fs w !! env_file) as [[t | j] |]; eauto.
Qed.

Lemma main_collect_merge_inv args w st w' :
  main_collect args w = (Ok (inr st), w') ->
  exists old, persisted_ids (matchlist args) w = Some old /\ merge_inv old st.
Proof.
  unfold main_collect. rewrite bind_run.
  destruct (load_api_key_run "RIOT_API_KEY" ".env" w) as [key ->].
  destruct key as [[| c k] |]; try discriminate.
  rewrite bind_run. cbn [RiotAPI_init]. rewrite bind_run.
  destruct (load_existing_matchlist (matchlist args) _) as [[[o kn] | e |] w1] eqn:Hload;
    try discriminate.
  apply load_existing_matchlist_ok in Hload as (Hp & -> & ->).
  rewrite bind_run.
  set (st0 := {| ordered_ids := _ |}).
  assert (H0 : merge_inv o st0).
  { unfold merge_inv, st0. simpl. rewrite app_nil_r.
    repeat split; auto; constructor. }
  set (api := {| api_key := String c k; timeout := 10 |}).
  pose proof (walk_divisions_keeps (merge_inv o)
                (main_entry api args (batch_size_of args) (history_window_of args)
                   (queue_filter_of args))
                (fun entry st => main_entry_merge_inv o api args _ _ _ entry st)
                api (max_pages_per_division args) DIVISIONS st0 H0) as K.
  unfold iter_gold_entries.
  destruct (walk_divisions _ _ _ _ _ _) as [[[fl st1] | e |] w2] eqn:Hwalk; try discriminate.
  intros E. injection E as <- <-. exists o. split; [exact Hp |].
  exact (K _ _ _ Hwalk).
Qed.

(** C6. With [["a", "b"]] on disk and a scan that finds [["b", "c"]], the
    run ends with [["a", "b", "c"]] on disk.  In any run, the ordered list
    at the end of the loops is the list read from disk followed by the
    matches accepted, the membership set holds exactly its elements, no
    accepted match is repeated or was on disk already (so the list has no
    duplicates when the list on disk had none), and every pass of the loop
    over a batch keeps these facts. *)
Theorem merge_keeps_order_without_duplicates :
  (let w0 := demo_world demo_env matchlist_ab in
   let r := main default_args w0 in
   persisted_ids "matchlist.json" w0 = Some ["a"; "b"]%string
   /\ List.filter (fun c => String.eqb (call_url c) (ids_url "p1")) (calls r.2)
      = [ids_call "p1" 50 0 (Ok (JArr [JStr "b"; JStr "c"]));
         ids_call "p1" 50 50 (Ok (JArr []))]
   /\ r.1 = Ok 0
   /\ persisted_ids "matchlist.json" r.2 = Some ["a"; "b"; "c"]%string)
  /\ (forall args w st w',
        main_collect args w = (Ok (inr st), w') ->
        exists old, persisted_ids (matchlist args) w = Some old
                    /\ merge_inv old st
                    /\ (NoDup old -> NoDup (ordered_ids st)))
  /\ (forall old api args queue_filter match_ids st w st' w',
        merge_inv old st ->
        store_batch api args queue_filter match_ids st w = (Ok st', w') ->
        merge_inv old st').
Proof.
  split; [| split].
  - vm_compute. auto.
  - intros args w st w' H.
    destruct (main_collect_merge_inv args w st w' H) as (old & Hp & Hm).
    exists old. split; [exact Hp |]. split; [exact Hm |]. apply merge_inv_NoDup, Hm.
  - intros old api args qf ids st w st' w' Hst H.
    exact (store_batch_merge_inv old api args qf ids st Hst _ _ _ H).
Qed.

Lemma main_collect_inr args w r w' :
  credential w <> None -> main_collect args w = (Ok r, w') -> exists st, r = inr st.
Proof.
  unfold credential, main_collect.
  destruct (load_api_key_run "RIOT_API_KEY" ".env" w) as [key Hkey].
  rewrite bind_run, Hkey. cbn [fst].
  destruct key as [[| c k] |]; try congruence. intros _.
  match goal with
  | |- ?m ?w0 = _ -> _ => assert (K : keeps (fun r => exists st, r = inr st) m)
  end.
  { eapply keeps_bind; [apply keeps_any |]. intros api _.
    eapply keeps_bind; [apply keeps_any |]. intros loaded _.
    eapply keeps_bind; [apply keeps_any |]. intros res _.
    apply keeps_ret. eauto. }
  intros E. exact (K _ _ _ E).
Qed.

Lemma main_collect_no_key args w :
  credential w = None -> main_collect args w = (Ok (inl 1), w).
Proof.
  unfold credential, main_collect.
  destruct (load_api_key_run "RIOT_API_KEY" ".env" w) as [key Hkey].
  rewrite bind_run, Hkey. cbn [fst].
  destruct key as [[| c k] |]; try discriminate; reflexivity.
Qed.

(** C8. A run of [main] that returns has exit status 0 when a credential
    was found, whatever the number of matches collected, and 1 when none
    was; in the latter case [main] returns at once and the world is as
    before: nothing was sent. *)
Theorem exit_status args w :
  (credential w = None -> main args w = (Ok 1, w))
  /\ (forall status w', main args w = (Ok status, w') ->
        status = match credential w with Some _ => 0 | None => 1 end).
Proof.
  split.
  - intros Hc. unfold main. rewrite bind_run, (main_collect_no_key args w Hc). reflexivity.
  - intros status w'. unfold main. rewrite bind_run.
    destruct (credential w) as [key |] eqn:Hc.
    + destruct (main_collect args w) as [[r | e |] w1] eqn:E; try discriminate.
      destruct (main_collect_inr args w r w1) as [st ->]; [congruence | exact E |].
      rewrite bind_run.
      destruct (new_matches st); cbn; intros E'; injection E' as <- _; reflexivity.
    + rewrite (main_collect_no_key args w Hc). intros E. injection E as <- _. reflexivity.
Qed.

(** ** Further properties of get_json *)

Lemma py_range_attempts retries :
  0 < retries -> exists rest, py_range 1 (retries + 1) 1 = 1 :: rest.
Proof.
  intros H. unfold py_range.
  replace ((retries + 1 - 1 + 1 - 1) / 1) with retries by (rewrite Z.div_1_r; lia).
  destruct (Z.to_nat retries) as [| n] eqn:E; [lia |].
  simpl. eauto.
Qed.

Lemma py_range_attempts_length retries :
  length (py_range 1 (retries + 1) 1) = Z.to_nat retries.
Proof.
  rewrite py_range_length. f_equal. rewrite Z.div_1_r. lia.
Qed.

Lemma limiter_wait_frame w o w1 :
  limiter_wait w = (o, w1) ->
  remote w1 = remote w /\ sent w1 = sent w /\ fs w1 = fs w /\ calls w1 = calls w.
Proof.
  unfold limiter_wait.
  destruct (Limiter.wait _ _) as [[[[t l] rest] sl] |]; intros [= <- <-]; auto.
Qed.

Lemma get_json_slept api u ps retries w :
  slept (get_json api u ps retries w).2
  = slept (get_json_attempts api u ps retries (py_range 1 (retries + 1) 1) w).2.
Proof. unfold get_json. destruct (get_json_attempts _ _ _ _ _ w). reflexivity. Qed.

(** X1. A response with a status from 400 to 499 other than 429 ends
    [get_json] at once: it raises the RuntimeError of the failed request
    after that single request, without sleeping and whatever attempts are
    left. *)
Theorem client_error_is_not_retried api u ps retries w w1 r :
  let rq := {| url := u; params := ps; token := api_key api |} in
  0 < retries ->
  limiter_wait w = (Ok tt, w1) ->
  remote w (sent w) rq = Reply r ->
  400 <= status_code r < 500 ->
  status_code r <> 429 ->
  let res := get_json api u ps retries w in
  res.1 = Raise (RuntimeError (RequestFailed (status_code r) u (text r)))
  /\ sent res.2 = sent w ++ [rq]
  /\ slept res.2 = slept w1.
Proof.
  intros rq Hretries Hwait Hr Hstatus H429 res. subst res.
  rewrite get_json_outcome, get_json_sent, get_json_slept.
  destruct (py_range_attempts retries Hretries) as [rest ->].
  destruct (limiter_wait_frame _ _ _ Hwait) as (R1 & S1 & _).
  cbn [get_json_attempts]. rewrite bind_run, Hwait, bind_run.
  unfold session_get. rewrite R1, S1. fold rq. rewrite Hr.
  assert (E1 : (status_code r =? 429) = false) by (apply Z.eqb_neq; lia).
  assert (E2 : (status_code r >=? 500) = false) by (rewrite Z.geb_leb; apply Z.leb_gt; lia).
  assert (E3 : (status_code r >=? 400) = true) by (apply Z.geb_le; lia).
  rewrite E1, E2, E3. simpl. auto.
Qed.

Lemma get_json_attempts_budget api u ps retries attempts :
  forall w,
  let rq := {| url := u; params := ps; token := api_key api |} in
  let res := get_json_attempts api u ps retries attempts w in
  exists k, (k <= length attempts)%nat
    /\ sent res.2 = sent w ++ repeat rq k
    /\ (res.1 = Raise (RuntimeError (GivingUp u retries)) -> k = length attempts).
Proof.
  induction attempts as [| attempt rest IH]; intros w rq res; subst res.
  - exists 0%nat. simpl. rewrite app_nil_r. auto.
  - cbn [get_json_attempts]. rewrite bind_run.
    destruct (limiter_wait w) as [[[] | e |] w1] eqn:Hwait.
    2:{ unfold limiter_wait in Hwait.
        destruct (Limiter.wait _ _) as [[[[t l] rs] sl] |]; discriminate. }
    2:{ destruct (limiter_wait_frame _ _ _ Hwait) as (_ & S1 & _).
        exists 0%nat. simpl. rewrite app_nil_r. split; [lia |]. split; [exact S1 | discriminate]. }
    destruct (limiter_wait_frame _ _ _ Hwait) as (_ & S1 & _).
    rewrite bind_run. unfold session_get. fold rq. rewrite S1.
    set (w2 := set_sent (sent w ++ [rq]) w1).
    assert (one : forall (o : outcome json),
              o <> Raise (RuntimeError (GivingUp u retries)) ->
              exists k, (k <= S (length rest))%nat
                /\ sent w2 = sent w ++ repeat rq k
                /\ (o = Raise (RuntimeError (GivingUp u retries)) -> k = S (length rest))).
    { intros o Ho. exists 1%nat. split; [lia |]. split; [reflexivity |]. intros E. contradiction. }
    assert (more : forall w3, sent w3 = sent w2 ->
              let res := get_json_attempts api u ps retries rest w3 in
              exists k, (k <= S (length rest))%nat
                /\ sent res.2 = sent w ++ repeat rq k
                /\ (res.1 = Raise (RuntimeError (GivingUp u retries)) -> k = S (length rest))).
    { intros w3 S3. destruct (IH w3) as (k & Hk & Hs & Hg). exists (S k).
      split; [lia |]. split.
      - fold rq in Hs. rewrite Hs, S3. simpl. rewrite <- app_assoc. reflexivity.
      - intros E. rewrite (Hg E). reflexivity. }
    destruct (remote w1 (sent w) rq) as [r |]; [| apply one; discriminate].
    destruct (status_code r =? 429).
    + rewrite bind_run.
      assert (Hx : retry_after_seconds r = inl ValueError
                   \/ exists x, retry_after_seconds r = inr x).
      { unfold retry_after_seconds. destruct (retry_after r) as [s |]; [| eauto].
        destruct (float_of_str s); eauto. }
      destruct Hx as [-> | [x ->]].
      * rewrite lift_inl. apply one. discriminate.
      * rewrite lift_inr, bind_run. unfold time_sleep.
        destruct (fadd x (1 # 10)) as [q | | |]; try (apply one; discriminate).
        destruct (Qle_bool 0 q); [| apply one; discriminate].
        apply more. reflexivity.
    + destruct (status_code r >=? 500).
      * rewrite bind_run. unfold time_sleep. rewrite backoff_nonneg.
        apply more. reflexivity.
      * destruct (status_code r >=? 400); [apply one; discriminate |].
        destruct (body r); apply one; discriminate.
Qed.

(** X2. [get_json] never sends more than [retries] requests, all of them
    the same request; when it gives up, it has sent exactly [retries] (none
    when [retries] is zero or negative). *)
Theorem request_budget api u ps retries w :
  let rq := {| url := u; params := ps; token := api_key api |} in
  let res := get_json api u ps retries w in
  exists k, (k <= Z.to_nat retries)%nat
    /\ sent res.2 = sent w ++ repeat rq k
    /\ (res.1 = Raise (RuntimeError (GivingUp u retries)) -> k = Z.to_nat retries).
Proof.
  intros rq res. subst res. rewrite get_json_outcome, get_json_sent.
  rewrite <- py_range_attempts_length. apply get_json_attempts_budget.
Qed.



(** ** What a whole run preserves *)

Lemma load_existing_matchlist_world path w : (load_existing_matchlist path w).2 = w.
Proof.
  unfold load_existing_matchlist. destruct (fs w !! path) as [[t | data] |]; try reflexivity.
  destruct (py_iter data) as [e | l]; [reflexivity |]. destruct (as_strs l); reflexivity.
Qed.

Lemma load_api_key_world_eq env_var env_file w : (load_api_key env_var env_file w).2 = w.
Proof.
  destruct (load_api_key_run env_var env_file w) as [key E]. rewrite E. reflexivity.
Qed.

(** A preorder [R] kept by every [get_json] whose parameters satisfy [okp],
    by every write to a path that satisfies [okw] and by the creation of
    the client is kept by each part of [main] that only uses such calls
    and writes. *)
Section RunPreserves.
Context (R : relation world) `{!PreOrder R}.
Context (okp : list (string * Z) -> Prop) (okw : string -> Prop).
Hypothesis R_get_json :
  forall api u ps retries, okp ps -> preserves R (get_json api u ps retries).
Hypothesis R_write : forall p doc, okw p -> preserves R (write_json p doc).
Hypothesis R_init : forall key, preserves R (RiotAPI_init key).
Hypothesis okp_nil : okp [].

Lemma path_exists_preserves p : preserves R (path_exists p).
Proof. intros w. simpl. reflexivity. Qed.

Lemma download_match_bundle_preserves api match_id raw_dir min_duration allowed :
  okw (match_path raw_dir match_id) -> okw (timeline_path raw_dir match_id) ->
  preserves R (download_match_bundle api match_id raw_dir min_duration allowed).
Proof.
  intros W1 W2. unfold download_match_bundle.
  apply preserves_bind; [apply _ | apply path_exists_preserves |]. intros e1.
  apply preserves_bind; [apply _ | |].
  { destruct e1; [apply path_exists_preserves | apply preserves_ret; apply _]. }
  intros e2. apply preserves_if; [apply preserves_ret; apply _ |].
  apply preserves_bind; [apply _ | apply R_get_json, okp_nil |]. intros doc.
  apply preserves_bind; [apply _ | apply preserves_lift; apply _ |]. intros info.
  apply preserves_bind; [apply _ | apply preserves_lift; apply _ |]. intros q.
  apply preserves_if; [apply preserves_ret; apply _ |].
  apply preserves_bind; [apply _ | apply preserves_lift; apply _ |]. intros dv.
  apply preserves_bind; [apply _ | apply preserves_lift; apply _ |]. intros d.
  apply preserves_if; [apply preserves_ret; apply _ |].
  apply preserves_bind; [apply _ | apply R_write, W1 |]. intros _.
  apply preserves_bind; [apply _ | apply path_exists_preserves |]. intros e3.
  apply preserves_if; [apply preserves_ret; apply _ |].
  apply preserves_bind; [apply _ | apply preserves_try, R_get_json, okp_nil |].
  intros [r | tl]; [apply preserves_ret; apply _ |].
  apply preserves_bind; [apply _ | apply R_write, W2 |]. intros _.
  apply preserves_ret; apply _.
Qed.

Lemma fetch_puuid_preserves api summoner_id st :
  preserves R (fetch_puuid api summoner_id st).
Proof.
  unfold fetch_puuid. destruct (puuid_cache st !! summoner_id); [apply preserves_ret; apply _ |].
  apply preserves_bind; [apply _ | apply R_get_json, okp_nil |]. intros data.
  apply preserves_bind; [apply _ | apply preserves_lift; apply _ |]. intros puuid.
  apply preserves_if; apply preserves_ret; apply _.
Qed.

Section WithArgs.
Context (api : RiotAPI) (args : Args) (queue_filter : option Z).
Hypothesis okw_bundle : forall match_id,
  okw (match_path (raw_dir args) match_id) /\ okw (timeline_path (raw_dir args) match_id).

Lemma store_batch_preserves match_ids :
  forall st, preserves R (store_batch api args queue_filter match_ids st).
Proof.
  induction match_ids as [| match_id rest IH]; intros st; cbn [store_batch].
  - apply preserves_ret; apply _.
  - apply preserves_if; [apply IH |].
    apply preserves_bind; [apply _ | |].
    { apply preserves_try. apply download_match_bundle_preserves; apply okw_bundle. }
    intros [r | [stored reason]]; [apply IH |].
    repeat apply preserves_if; try apply IH.
    apply preserves_ret; apply _.
Qed.

Lemma scan_player_preserves puuid batch_size starts :
  Forall (fun start => okp [("start"%string, start); ("count"%string, batch_size)]) starts ->
  forall st, preserves R (scan_player api args queue_filter puuid batch_size starts st).
Proof.
  induction 1 as [| start rest Hstart _ IH]; intros st; cbn [scan_player].
  - apply preserves_ret; apply _.
  - apply preserves_bind; [apply _ | apply preserves_try, R_get_json, Hstart |].
    intros [r | match_ids]; [apply preserves_ret; apply _ |].
    apply preserves_if; [apply preserves_ret; apply _ |].
    apply preserves_bind; [apply _ | apply preserves_lift; apply _ |]. intros l.
    apply preserves_bind; [apply _ | apply preserves_lift; apply _ |]. intros ids.
    apply preserves_bind; [apply _ | apply store_batch_preserves |]. intros st'.
    apply preserves_if; [apply preserves_ret; apply _ | apply IH].
Qed.

Lemma main_entry_preserves batch_size hw entry st :
  Forall (fun start => okp [("start"%string, start); ("count"%string, batch_size)])
    (py_range 0 hw batch_size) ->
  preserves R (main_entry api args batch_size hw queue_filter entry st).
Proof.
  intros Hstarts. unfold main_entry.
  apply preserves_bind; [apply _ | apply preserves_lift; apply _ |]. intros puuid0.
  apply preserves_bind; [apply _ | |].
  - apply preserves_if; [apply preserves_ret; apply _ |].
    apply preserves_bind; [apply _ | apply preserves_lift; apply _ |]. intros s1.
    apply preserves_bind; [apply _ | |].
    { apply preserves_if; [apply preserves_ret | apply preserves_lift]; apply _. }
    intros s. apply preserves_if; [apply preserves_ret; apply _ |].
    apply preserves_bind; [apply _ | apply preserves_lift; apply _ |]. intros summoner_id.
    apply preserves_bind; [apply _ | apply fetch_puuid_preserves |]. intros r.
    apply preserves_ret; apply _.
  - intros [[puuid |] st1]; [| apply preserves_ret; apply _].
    apply preserves_if; [apply preserves_ret; apply _ |].
    apply preserves_bind; [apply _ | apply preserves_lift; apply _ |]. intros p.
    apply preserves_bind; [apply _ | apply scan_player_preserves, Hstarts |]. intros st2.
    apply preserves_if; apply preserves_ret; apply _.
Qed.
End WithArgs.

Section Walk.
Context {S : Type} (body : json -> S -> M (flow * S)).
Hypothesis R_body : forall entry st, preserves R (body entry st).

Lemma yield_entries_preserves entries :
  forall st, preserves R (yield_entries body entries st).
Proof.
  induction entries as [| entry rest IH]; intros st; cbn [yield_entries].
  - apply preserves_ret; apply _.
  - apply preserves_bind; [apply _ | apply R_body |].
    intros [[|] st']; [apply IH | apply preserves_ret; apply _].
Qed.

Lemma walk_pages_preserves api division pages :
  Forall (fun page => okp [("page"%string, page)]) pages ->
  forall st, preserves R (walk_pages api body division pages st).
Proof.
  induction 1 as [| page rest Hpage _ IH]; intros st; cbn [walk_pages].
  - apply preserves_ret; apply _.
  - apply preserves_bind; [apply _ | apply R_get_json, Hpage |]. intros entries.
    apply preserves_if; [apply preserves_ret; apply _ |].
    apply preserves_bind; [apply _ | apply preserves_lift; apply _ |]. intros l.
    apply preserves_bind; [apply _ | apply yield_entries_preserves |].
    intros [[|] st']; [apply IH | apply preserves_ret; apply _].
Qed.

Lemma walk_divisions_preserves api max_pages divisions :
  Forall (fun page => okp [("page"%string, page)]) (py_range 1 (max_pages + 1) 1) ->
  forall st, preserves R (walk_divisions api body max_pages divisions st).
Proof.
  intros Hpages. induction divisions as [| division rest IH]; intros st; cbn [walk_divisions].
  - apply preserves_ret; apply _.
  - apply preserves_bind; [apply _ | apply walk_pages_preserves, Hpages |].
    intros [[|] st']; [apply IH | apply preserves_ret; apply _].
Qed.
End Walk.

Lemma main_collect_preserves args :
  (forall match_id,
     okw (match_path (raw_dir args) match_id) /\ okw (timeline_path (raw_dir args) match_id)) ->
  Forall (fun start => okp [("start"%string, start); ("count"%string, batch_size_of args)])
    (py_range 0 (history_window_of args) (batch_size_of args)) ->
  Forall (fun page => okp [("page"%string, page)])
    (py_range 1 (max_pages_per_division args + 1) 1) ->
  preserves R (main_collect args).
Proof.
  intros Hw Hstarts Hpages. unfold main_collect.
  apply preserves_bind; [apply _ | |].
  { intros w. rewrite load_api_key_world_eq. reflexivity. }
  intros [[| c k] |]; try (apply preserves_ret; apply _).
  apply preserves_bind; [apply _ | apply R_init |]. intros api.
  apply preserves_bind; [apply _ | |].
  { intros w. rewrite load_existing_matchlist_world. reflexivity. }
  intros loaded. apply preserves_bind; [apply _ | | intros r; apply preserves_ret; apply _].
  apply walk_divisions_preserves; [| exact Hpages].
  intros entry st. apply main_entry_preserves; assumption.
Qed.

Lemma main_preserves args :
  (forall match_id,
     okw (match_path (raw_dir args) match_id) /\ okw (timeline_path (raw_dir args) match_id)) ->
  okw (matchlist args) ->
  Forall (fun start => okp [("start"%string, start); ("count"%string, batch_size_of args)])
    (py_range 0 (history_window_of args) (batch_size_of args)) ->
  Forall (fun page => okp [("page"%string, page)])
    (py_range 1 (max_pages_per_division args + 1) 1) ->
  preserves R (main args).
Proof.
  intros Hw Hm Hstarts Hpages. unfold main.
  apply preserves_bind; [apply _ | apply main_collect_preserves; assumption |].
  intros [status | st]; [apply preserves_ret; apply _ |].
  apply preserves_bind; [apply _ | | intros _; apply preserves_ret; apply _].
  destruct (new_matches st); [apply preserves_ret; apply _ | apply R_write, Hm].
Qed.
End RunPreserves.


(** ** Requests and clock readings *)

#[local] Instance admitted_first_preorder : PreOrder admitted_first.
Proof.
  split.
  - intros w. unfold admitted_first. lia.
  - intros w1 w2 w3 (A1 & B1 & C1) (A2 & B2 & C2). unfold admitted_first. lia.
Qed.

Lemma wait_consumes (clock : list Q) : forall l t l' rest sleeps,
  Limiter.wait l clock = Some (t, l', rest, sleeps) ->
  (length rest < length clock)%nat.
Proof.
  induction clock as [| now clock IH]; intros l t l' rest sleeps H; [discriminate |].
  simpl in H. destruct (Limiter.wait_iteration l now) as [l1 [s |]].
  - destruct (Limiter.wait l1 clock) as [[[[t1 l2] rest1] sl1] |] eqn:E; [| discriminate].
    injection H as <- <- <- <-. specialize (IH _ _ _ _ _ E). simpl. lia.
  - injection H as <- <- <- <-. simpl. lia.
Qed.

Lemma get_json_attempts_admitted_first api u ps retries attempts :
  preserves admitted_first (get_json_attempts api u ps retries attempts).
Proof.
  induction attempts as [| attempt rest IH]; intros w; cbn [get_json_attempts].
  - simpl. reflexivity.
  - rewrite bind_run. unfold limiter_wait at 1.
    destruct (Limiter.wait (limiter w) (clock w)) as [[[[t l1] crest] sl] |] eqn:Hwait;
      [| simpl; reflexivity].
    apply wait_consumes in Hwait.
    rewrite bind_run. unfold session_get.
    set (rq := {| url := u; params := ps; token := api_key api |}).
    set (w1 := set_slept (slept w ++ sl) (set_limiter l1 crest w)).
    set (w2 := set_sent (sent w1 ++ [rq]) w1).
    assert (H2 : admitted_first w w2).
    { unfold admitted_first, w2, w1. simpl. rewrite !length_app. simpl. lia. }
    assert (more : forall w3, admitted_first w2 w3 ->
              admitted_first w (get_json_attempts api u ps retries rest w3).2).
    { intros w3 H3. transitivity w2; [exact H2 |]. transitivity w3; [exact H3 | apply IH]. }
    assert (sleep : forall x,
              admitted_first w
                ((time_sleep x ≫= fun _ => get_json_attempts api u ps retries rest) w2).2).
    { intros x. rewrite bind_run. unfold time_sleep.
      destruct x as [q | | |]; try exact H2.
      destruct (Qle_bool 0 q); [| exact H2].
      apply more. unfold admitted_first. simpl. lia. }
    destruct (remote w1 (sent w1) rq) as [r |]; [| exact H2].
    destruct (status_code r =? 429).
    + rewrite bind_run. destruct (retry_after_seconds r) as [e | x]; [exact H2 |].
      rewrite lift_inr. apply sleep.
    + destruct (status_code r >=? 500); [apply sleep |].
      destruct (status_code r >=? 400); [exact H2 |].
      destruct (body r); exact H2.
Qed.

Lemma get_json_admitted_first api u ps retries :
  preserves admitted_first (get_json api u ps retries).
Proof.
  intros w. unfold get_json.
  pose proof (get_json_attempts_admitted_first api u ps retries
                (py_range 1 (retries + 1) 1) w) as H.
  destruct (get_json_attempts _ _ _ _ _ w) as [out w']. exact H.
Qed.

(** X4. In a run of [main], every request sent has a clock reading of its
    own before it: the requests added to the history are at most as many
    as the readings of [time.time()] that the rate limiter has used. *)
Theorem no_request_without_admission args w :
  let w' := (main args w).2 in
  (length (clock w') <= length (clock w))%nat
  /\ (length (sent w') - length (sent w) <= length (clock w) - length (clock w'))%nat.
Proof.
  intros w'.
  assert (H : admitted_first w w').
  { apply (main_preserves admitted_first (fun _ => True) (fun _ => True)); auto.
    - intros api u ps n _. apply get_json_admitted_first.
    - intros p doc _ w0. unfold admitted_first. simpl. lia.
    - intros key w0. unfold admitted_first. simpl. lia.
    - apply Forall_forall. auto.
    - apply Forall_forall. auto. }
  destruct H as (A & B & C). lia.
Qed.

(** ** Files and environment *)

#[local] Instance same_file_preorder p : PreOrder (same_file p).
Proof.
  split; [intros w; reflexivity |].
  intros w1 w2 w3 H1 H2. unfold same_file in *. congruence.
Qed.

#[local] Instance same_environ_preorder : PreOrder same_environ.
Proof.
  split; [intros w; reflexivity |].
  intros w1 w2 w3 H1 H2. unfold same_environ in *. congruence.
Qed.

#[local] Instance no_file_lost_preorder : PreOrder no_file_lost.
Proof.
  split; [intros w p H; exact H |].
  intros w1 w2 w3 H1 H2 p H. apply H2, H1, H.
Qed.

Lemma get_json_same_environ api u ps retries :
  preserves same_environ (get_json api u ps retries).
Proof.
  intros w. unfold get_json.
  assert (H : preserves same_environ
                (get_json_attempts api u ps retries (py_range 1 (retries + 1) 1))).
  { apply get_json_attempts_preserves; [apply _ | | |].
    - intros w0. unfold limiter_wait.
      destruct (Limiter.wait _ _) as [[[[t l] rest] sl] |]; reflexivity.
    - intros a u' ps' w0. unfold session_get. destruct (remote w0 _ _); reflexivity.
    - intros x w0. unfold time_sleep. destruct x; [destruct (Qle_bool 0 q) |..]; reflexivity. }
  specialize (H w). destruct (get_json_attempts _ _ _ _ _ w) as [out w']. exact H.
Qed.

Lemma get_json_same_file p api u ps retries :
  preserves (same_file p) (get_json api u ps retries).
Proof.
  intros w. unfold same_file. rewrite (get_json_same_fs api u ps retries w). reflexivity.
Qed.

Lemma get_json_no_file_lost api u ps retries :
  preserves no_file_lost (get_json api u ps retries).
Proof.
  intros w p. rewrite (get_json_same_fs api u ps retries w). auto.
Qed.

Lemma write_json_no_file_lost p doc : preserves no_file_lost (write_json p doc).
Proof.
  intros w q H. simpl. destruct (decide (p = q)) as [-> | Hne].
  - rewrite lookup_insert_eq. eauto.
  - rewrite lookup_insert_ne by exact Hne. exact H.
Qed.

Lemma write_json_same_file p0 p doc : p <> p0 -> preserves (same_file p0) (write_json p doc).
Proof. intros Hne w. unfold same_file. simpl. apply lookup_insert_ne, Hne. Qed.

(** X5. [download_match_bundle] touches no file but the detail file and
    the timeline file of its match, and removes no file, however it
    ends. *)
Theorem download_touches_only_its_bundle api match_id raw_dir min_duration allowed w :
  let w' := (download_match_bundle api match_id raw_dir min_duration allowed w).2 in
  (forall p, p <> match_path raw_dir match_id -> p <> timeline_path raw_dir match_id ->
     fs w' !! p = fs w !! p)
  /\ (forall p, is_Some (fs w !! p) -> is_Some (fs w' !! p)).
Proof.
  intros w'. split.
  - intros p H1 H2.
    apply (download_match_bundle_preserves (same_file p) (fun _ => True) (fun q => q <> p));
      auto.
    + intros a u ps n _. apply get_json_same_file.
    + intros q doc Hq. apply write_json_same_file, Hq.
  - apply (download_match_bundle_preserves no_file_lost (fun _ => True) (fun _ => True));
      auto.
    + intros a u ps n _. apply get_json_no_file_lost.
    + intros q doc _. apply write_json_no_file_lost.
Qed.

(** X6. Files are told apart by the text of their path as pathlib
    renders it.  For a path [p] and a match list written that way, a run of
    [main] leaves the file at [p] as it was, unless [p] is the match list
    or the detail or timeline path of some match id; the run removes no
    file and leaves the environment variables as they were. *)
Theorem main_writes_only_its_files args w p :
  Path p = p -> Path (matchlist args) = matchlist args ->
  p <> matchlist args ->
  (forall match_id, p <> match_path (raw_dir args) match_id
                    /\ p <> timeline_path (raw_dir args) match_id) ->
  let w' := (main args w).2 in
  fs w' !! p = fs w !! p
  /\ (forall q, is_Some (fs w !! q) -> is_Some (fs w' !! q))
  /\ environ w' = environ w.
Proof.
  intros _ _ Hm Hb w'. split; [| split].
  - apply (main_preserves (same_file p) (fun _ => True) (fun q => q <> p)); auto.
    + intros a u ps n _. apply get_json_same_file.
    + intros q doc Hq. apply write_json_same_file, Hq.
    + intros key w0. reflexivity.
    + intros match_id. destruct (Hb match_id) as [H1 H2]. split; congruence.
    + apply Forall_forall. auto.
    + apply Forall_forall. auto.
  - apply (main_preserves no_file_lost (fun _ => True) (fun _ => True)); auto.
    + intros a u ps n _. apply get_json_no_file_lost.
    + intros q doc _. apply write_json_no_file_lost.
    + intros key w0 q H. exact H.
    + apply Forall_forall. auto.
    + apply Forall_forall. auto.
  - apply (main_preserves same_environ (fun _ => True) (fun _ => True)); auto.
    + intros a u ps n _. apply get_json_same_environ.
    + intros q doc _ w0. reflexivity.
    + intros key w0. reflexivity.
    + apply Forall_forall. auto.
    + apply Forall_forall. auto.
Qed.


(** ** The calls of a run *)

Lemma py_range_bounds start stop step (i : nat) x :
  0 < step -> py_range start stop step !! i = Some x -> start <= x < stop.
Proof.
  intros Hstep H. pose proof (py_range_lookup _ _ _ _ _ H) as ->.
  apply lookup_lt_Some in H. rewrite py_range_length in H.
  assert (Hq : Z.of_nat i < (stop - start + step - 1) / step) by lia.
  Z.to_euclidean_division_equations. nia.
Qed.

Lemma batch_offsets_well_formed args :
  Forall (fun start =>
            well_formed_params args [("start"%string, start); ("count"%string, batch_size_of args)])
    (py_range 0 (history_window_of args) (batch_size_of args)).
Proof.
  apply Forall_lookup. intros i start H.
  pose proof (batch_size_positive args) as Hb.
  pose proof (py_range_bounds _ _ _ _ _ Hb H) as Hr.
  pose proof (py_range_lookup _ _ _ _ _ H) as E.
  unfold well_formed_params. repeat split; try lia.
  - unfold batch_size_of. lia.
  - subst start. simpl. apply Z.mod_mul. lia.
Qed.

Lemma ladder_pages_well_formed args :
  Forall (fun page => well_formed_params args [("page"%string, page)])
    (py_range 1 (max_pages_per_division args + 1) 1).
Proof.
  apply Forall_lookup. intros i page H.
  pose proof (py_range_bounds 1 _ 1 _ _ ltac:(lia) H) as Hr.
  unfold well_formed_params. split; [reflexivity | lia].
Qed.

(** X7. Every call of [get_json] that a run of [main] makes carries no
    parameter, or a page number from 1 to [max_pages_per_division], or a
    batch of [batch_size] ids, between 1 and 100, at an offset that is a
    multiple of [batch_size] below the history window. *)
Theorem every_call_is_well_formed args w :
  Forall (fun c => well_formed_params args (call_params c))
    (new_calls w (main args w).2).
Proof.
  assert (H : calls_grow (fun c => well_formed_params args (call_params c)) w (main args w).2).
  { apply (main_preserves _ (well_formed_params args) (fun _ => True)); auto.
    - intros api u ps n Hps. apply get_json_calls_grow. intros out. exact Hps.
    - intros p doc _. apply write_json_calls_grow.
    - intros key w0. exists []. simpl. rewrite app_nil_r. auto.
    - exact I.
    - apply batch_offsets_well_formed.
    - apply ladder_pages_well_formed. }
  destruct H as (l & E & F). rewrite (new_calls_app _ _ _ E). exact F.
Qed.

Lemma filter_page_call_none (l : list call) :
  Forall (fun c => page_call c = false) l -> List.filter page_call l = [].
Proof.
  induction 1 as [| c l Hc _ IH]; simpl; [reflexivity |]. rewrite Hc. exact IH.
Qed.

Lemma main_entry_no_page_call api args batch_size hw queue_filter entry st :
  preserves (calls_grow (fun c => page_call c = false))
    (main_entry api args batch_size hw queue_filter entry st).
Proof.
  apply (main_entry_preserves _ not_page_params (fun _ => True)); auto.
  - intros a u ps n Hps. apply get_json_calls_grow. intros out.
    unfold page_call. simpl. destruct ps as [| [k v] [| p ps]]; auto.
  - intros p doc _. apply write_json_calls_grow.
  - exact I.
  - apply Forall_forall. intros x _. exact I.
Qed.

(** The pages requested for one division: one call per page number, in
    order, for some first pages, the first of them always; a call is
    followed by another only when it returned a non-empty document; and a
    walk that goes on to the next division has used up the pages, or its
    last page did not come back as a non-empty document. *)
Lemma walk_pages_pages {S : Type} (body : json -> S -> M (flow * S)) api division pages :
  (forall entry st, preserves (calls_grow (fun c => page_call c = false)) (body entry st)) ->
  forall st w,
  exists l outs,
    calls (walk_pages api body division pages st w).2 = calls w ++ l
    /\ (length outs <= length pages)%nat
    /\ (pages <> [] -> outs <> [])
    /\ List.filter page_call l = zip_with (entries_call division) pages outs
    /\ all_but_last_nonempty outs
    /\ (forall st', (walk_pages api body division pages st w).1 = Ok (Next, st') ->
          length outs = length pages
          \/ exists pre out, outs = pre ++ [out] /\ ~ nonempty_batch out).
Proof.
  intros Hbody. induction pages as [| page rest IH]; intros st w; cbn [walk_pages].
  - exists [], []. simpl. rewrite app_nil_r. repeat split; auto.
  - rewrite bind_run.
    destruct (get_json api (entries_url division) _ 5 w) as [out w1] eqn:Hget.
    pose proof (get_json_calls _ _ _ _ _ _ _ Hget) as C1.
    assert (stop : forall (res : outcome (flow * S)) (w' : world) l2,
              calls w' = calls w1 ++ l2 -> List.filter page_call l2 = [] ->
              (forall st', res = Ok (Next, st') -> ~ nonempty_batch out) ->
              exists l outs, calls w' = calls w ++ l
                /\ (length outs <= Datatypes.S (length rest))%nat
                /\ (page :: rest <> [] -> outs <> [])
                /\ List.filter page_call l = zip_with (entries_call division) (page :: rest) outs
                /\ all_but_last_nonempty outs
                /\ (forall st', res = Ok (Next, st') ->
                      length outs = Datatypes.S (length rest)
                      \/ exists pre out0, outs = pre ++ [out0] /\ ~ nonempty_batch out0)).
    { intros res w' l2 E F2 Hne. eexists _, [out]. rewrite E, C1, <- app_assoc.
      split; [reflexivity |]. simpl. split; [lia |]. split; [discriminate |].
      split; [| split; [exact I |]].
      - try rewrite List.filter_app. rewrite F2. destruct rest; reflexivity.
      - intros st' Hres. right. exists [], out. split; [reflexivity | eauto]. }
    assert (stop0 : forall (res : outcome (flow * S)) (w' : world),
              calls w' = calls w1 ->
              (forall st', res = Ok (Next, st') -> ~ nonempty_batch out) ->
              exists l outs, calls w' = calls w ++ l
                /\ (length outs <= Datatypes.S (length rest))%nat
                /\ (page :: rest <> [] -> outs <> [])
                /\ List.filter page_call l = zip_with (entries_call division) (page :: rest) outs
                /\ all_but_last_nonempty outs
                /\ (forall st', res = Ok (Next, st') ->
                      length outs = Datatypes.S (length rest)
                      \/ exists pre out0, outs = pre ++ [out0] /\ ~ nonempty_batch out0)).
    { intros res w' E Hne. apply (stop res w' []); [rewrite app_nil_r; exact E | reflexivity |].
      exact Hne. }
    destruct out as [entries | e |].
    2:{ apply stop0; [reflexivity |]. intros st' E. discriminate E. }
    2:{ apply stop0; [reflexivity |]. intros st' E. discriminate E. }
    destruct (truthy entries) eqn:Htruthy; simpl.
    2:{ apply stop0; [reflexivity |]. intros st' _ (doc & [= <-] & Ht). congruence. }
    rewrite bind_run.
    destruct (py_iter entries) as [e | l0].
    { apply stop0; [reflexivity |]. intros st' E. discriminate E. }
    rewrite lift_inr, bind_run.
    destruct (yield_entries_preserves (calls_grow (fun c => page_call c = false)) body Hbody
                l0 st w1) as (l2 & C2 & F2).
    apply filter_page_call_none in F2.
    destruct (yield_entries body l0 st w1) as [[[[|] st'] | e |] w2]; cbn [snd] in C2.
    2:{ apply (stop _ _ l2 C2 F2). intros st'' E. discriminate E. }
    2:{ apply (stop _ _ l2 C2 F2). intros st'' E. discriminate E. }
    2:{ apply (stop _ _ l2 C2 F2). intros st'' E. discriminate E. }
    destruct (IH st' w2) as (l3 & outs & C3 & L3 & N3 & F3 & A3 & R3).
    exists ((entries_call division page (Ok entries) :: l2) ++ l3), (Ok entries :: outs).
    rewrite C3, C2, C1, <- !app_assoc. split; [reflexivity |].
    simpl. split; [lia |]. split; [discriminate |]. split; [| split].
    + rewrite List.filter_app, F2, F3. reflexivity.
    + destruct outs; [exact I |]. split; [| exact A3]. exists entries. auto.
    + intros st'' E. destruct (R3 st'' E) as [Hl | (pre & o & -> & Hn)].
      * left. lia.
      * right. exists (Ok entries :: pre), o. split; [reflexivity | exact Hn].
Qed.


(** ** Errors that stay inside a scan *)

Lemma no_runtime_error_ret {A} (a : A) : no_runtime_error (mret a).
Proof. intros w e H. discriminate. Qed.

Lemma no_runtime_error_bind {A B} (m : M A) (f : A -> M B) :
  no_runtime_error m -> (forall a, no_runtime_error (f a)) -> no_runtime_error (m ≫= f).
Proof.
  intros Hm Hf w e. rewrite bind_run. specialize (Hm w).
  destruct (m w) as [[a | e1 |] w1]; simpl in *.
  - apply Hf.
  - intros [= <-]. apply Hm. reflexivity.
  - discriminate.
Qed.

Lemma no_runtime_error_try {A} (m : M A) : no_runtime_error (try_RuntimeError m).
Proof.
  intros w e. unfold try_RuntimeError.
  destruct (m w) as [[a | [] |] w1]; simpl; intros [= <-]; reflexivity.
Qed.

Lemma no_runtime_error_if {A} (b : bool) (m1 m2 : M A) :
  no_runtime_error m1 -> no_runtime_error m2 -> no_runtime_error (if b then m1 else m2).
Proof. destruct b; auto. Qed.

Lemma no_runtime_error_py_iter v : no_runtime_error (lift (py_iter v)).
Proof. intros w e. destruct v; simpl; intros [= <-]; reflexivity. Qed.

Lemma no_runtime_error_as_strs l :
  no_runtime_error (lift (from_option inr (inl IllTyped) (as_strs l))).
Proof. intros w e. destruct (as_strs l); simpl; intros [= <-]; reflexivity. Qed.

Lemma store_batch_no_runtime_error api args queue_filter match_ids :
  forall st, no_runtime_error (store_batch api args queue_filter match_ids st).
Proof.
  induction match_ids as [| match_id rest IH]; intros st; cbn [store_batch].
  - apply no_runtime_error_ret.
  - apply no_runtime_error_if; [apply IH |].
    apply no_runtime_error_bind; [apply no_runtime_error_try |].
    intros [r | [stored reason]]; [apply IH |].
    repeat apply no_runtime_error_if; try apply IH. apply no_runtime_error_ret.
Qed.

(** X9. The scan of one player never ends with a RuntimeError: a failed
    batch request and a failed bundle download are caught inside it (and
    counted), whatever the API answers. *)
Theorem scan_player_catches_runtime_errors api args queue_filter puuid batch_size starts st w e :
  (scan_player api args queue_filter puuid batch_size starts st w).1 = Raise e ->
  is_RuntimeError e = false.
Proof.
  revert st w e. induction starts as [| start rest IH]; intros st; cbn [scan_player].
  - apply no_runtime_error_ret.
  - apply no_runtime_error_bind; [apply no_runtime_error_try |].
    intros [r | match_ids]; [apply no_runtime_error_ret |].
    apply no_runtime_error_if; [apply no_runtime_error_ret |].
    apply no_runtime_error_bind; [apply no_runtime_error_py_iter |]. intros l.
    apply no_runtime_error_bind; [apply no_runtime_error_as_strs |]. intros ids.
    apply no_runtime_error_bind; [apply store_batch_no_runtime_error |]. intros st'.
    apply no_runtime_error_if; [apply no_runtime_error_ret | exact (IH st')].
Qed.


(** ** Further properties of download_match_bundle *)


(** X11. When the timeline file is on disk and the detail file is not,
    the call fetches the detail only: if the document passes the filters
    it is written, the answer is [(True, "stored")], the timeline file is
    the one that was there and a single call of [get_json] was made. *)
Theorem timeline_on_disk_is_not_fetched
    api match_id raw_dir min_duration allowed w doc w1 q d tl :
  fs w !! match_path raw_dir match_id = None ->
  fs w !! timeline_path raw_dir match_id = Some tl ->
  get_json api (match_url match_id) [] 5 w = (Ok doc, w1) ->
  match_queue_id doc = inr q ->
  queue_rejected allowed q = false ->
  match_game_duration doc = inr d ->
  min_duration <= d ->
  let r := download_match_bundle api match_id raw_dir min_duration allowed w in
  r = (Ok (true, "stored"%string),
       set_fs (<[match_path raw_dir match_id := Doc doc]> (fs w1)) w1)
  /\ fs r.2 !! timeline_path raw_dir match_id = Some tl
  /\ bundle_complete raw_dir match_id r.2
  /\ calls r.2 = calls w ++
       [{| call_url := match_url match_id; call_params := []; call_result := Ok doc |}].
Proof.
  intros Hno Htl Hget Hq Hrej Hd Hmin r.
  assert (Hnc : ~ bundle_complete raw_dir match_id w).
  { intros [[x Hx] _]. congruence. }
  assert (Htl1 : <[match_path raw_dir match_id := Doc doc]> (fs w1)
                 !! timeline_path raw_dir match_id = Some tl).
  { rewrite lookup_insert_ne by apply match_path_ne_timeline_path.
    rewrite (get_json_fs _ _ _ _ _ _ _ Hget). exact Htl. }
  assert (Hr : r = (Ok (true, "stored"%string),
                    set_fs (<[match_path raw_dir match_id := Doc doc]> (fs w1)) w1)).
  { subst r. rewrite (download_after_filter _ _ _ _ _ _ _ _ _ _ Hnc Hget Hq Hrej Hd).
    apply Z.ltb_ge in Hmin. rewrite Hmin.
    rewrite bind_run. cbn [write_json]. rewrite bind_run, path_exists_run.
    cbn [set_fs fs]. rewrite Htl1.
    rewrite bool_decide_eq_true_2 by eauto. reflexivity. }
  rewrite Hr. cbn [snd set_fs fs calls].
  split; [reflexivity |]. split; [exact Htl1 |]. split.
  - split; cbn [set_fs fs]; [rewrite lookup_insert_eq | rewrite Htl1]; eauto.
  - apply (get_json_calls _ _ _ _ _ _ _ Hget).
Qed.

(** ** The match list on disk *)

Lemma as_strs_map_JStr (ids : list string) : as_strs (map JStr ids) = Some ids.
Proof. induction ids as [| s ids IH]; simpl; [reflexivity | rewrite IH; reflexivity]. Qed.


(** ** fetch_puuid *)

(** X14. Once [fetch_puuid] has returned a non-empty puuid for a summoner
    id, asking again with the cache it returned gives the same puuid and
    touches nothing: no request is sent. *)
Theorem fetch_puuid_is_cached api summoner_id st w puuid st' w' :
  fetch_puuid api summoner_id st w = (Ok (puuid, st'), w') ->
  truthy puuid = true ->
  forall w2, fetch_puuid api summoner_id st' w2 = (Ok (puuid, st'), w2).
Proof.
  unfold fetch_puuid at 1.
  destruct (puuid_cache st !! summoner_id) as [p |] eqn:Hcache.
  - intros [= <- <- <-] _ w2. unfold fetch_puuid. rewrite Hcache. reflexivity.
  - rewrite bind_run.
    destruct (get_json api (summoner_url summoner_id) [] 5 w) as [[data | e |] w1];
      try discriminate.
    rewrite bind_run. destruct (py_get data "puuid" JNull) as [e | p]; [discriminate |].
    rewrite lift_inr. destruct (truthy p) eqn:Hp.
    + intros [= <- <- <-] _ w2. unfold fetch_puuid. cbn [set_cache puuid_cache].
      rewrite lookup_insert_eq. reflexivity.
    + intros [= <- <- <-] Ht. congruence.
Qed.


(** ** The target of a run *)

Lemma not_reached_may_accept args st : target_reached args st = false -> may_accept args st.
Proof.
  unfold target_reached, may_accept. rewrite Z.geb_leb. intros H.
  apply Z.leb_gt in H. right. exact H.
Qed.

Lemma within_target_accept args init match_id st :
  within_target args init st -> may_accept args st -> match_id ∉ known_ids st ->
  within_target args init (accept match_id st).
Proof.
  intros [Hs Hn] Hm Hnew. unfold within_target. cbn [accept known_ids new_matches].
  rewrite length_app. cbn [length].
  assert (Hsize : size ({[match_id]} ∪ known_ids st) = S (size (known_ids st))).
  { rewrite size_union by set_solver. rewrite size_singleton. reflexivity. }
  rewrite Hsize. split; [lia |].
  destruct Hm as [Hm | Hm]; [rewrite Hm; simpl; lia |]. lia.
Qed.

Lemma store_batch_within_target args init api queue_filter match_ids :
  forall st, within_target args init st -> may_accept args st ->
  keeps (within_target args init) (store_batch api args queue_filter match_ids st).
Proof.
  induction match_ids as [| match_id rest IH]; intros st Hw Hm; cbn [store_batch].
  - apply keeps_ret, Hw.
  - destruct (bool_decide (match_id ∈ known_ids st)) eqn:Hknown.
    + apply IH; assumption.
    + apply bool_decide_eq_false_1 in Hknown.
      eapply keeps_bind; [apply keeps_any |].
      intros [r | [stored reason]] _; [apply IH; assumption |].
      destruct stored; simpl; [| apply IH; assumption].
      pose proof (within_target_accept args init match_id st Hw Hm Hknown) as Hacc.
      destruct (target_reached args (accept match_id st)) eqn:Hreached.
      * apply keeps_ret, Hacc.
      * apply IH; [exact Hacc | apply not_reached_may_accept, Hreached].
Qed.

Lemma scan_player_within_target args init api queue_filter puuid batch_size starts :
  forall st, within_target args init st -> may_accept args st ->
  keeps (within_target args init)
    (scan_player api args queue_filter puuid batch_size starts st).
Proof.
  induction starts as [| start rest IH]; intros st Hw Hm; cbn [scan_player].
  - apply keeps_ret, Hw.
  - eapply keeps_bind; [apply keeps_any |].
    intros [r | match_ids] _; [apply keeps_ret, Hw |].
    apply keeps_if; [apply keeps_ret, Hw |].
    eapply keeps_bind; [apply keeps_any |]. intros l _.
    eapply keeps_bind; [apply keeps_any |]. intros ids _.
    eapply keeps_bind; [apply (store_batch_within_target args init); assumption |]. intros st' Hst'.
    destruct (target_reached args st') eqn:Hreached.
    + apply keeps_ret, Hst'.
    + apply IH; [exact Hst' | apply not_reached_may_accept, Hreached].
Qed.

Lemma fetch_puuid_within_target args init api summoner_id st :
  within_target args init st -> may_accept args st ->
  keeps (fun r => within_target args init r.2 /\ may_accept args r.2)
    (fetch_puuid api summoner_id st).
Proof.
  intros Hw Hm. unfold fetch_puuid.
  destruct (puuid_cache st !! summoner_id); [apply keeps_ret; auto |].
  eapply keeps_bind; [apply keeps_any |]. intros data _.
  eapply keeps_bind; [apply keeps_any |]. intros puuid _.
  apply keeps_if; apply keeps_ret; auto.
Qed.

Lemma main_entry_within_target args init api batch_size hw queue_filter entry st :
  within_target args init st /\ may_accept args st ->
  keeps (fun r => within_target args init r.2
                  /\ (r.1 = Next -> within_target args init r.2 /\ may_accept args r.2))
    (main_entry api args batch_size hw queue_filter entry st).
Proof.
  intros [Hw Hm]. unfold main_entry.
  eapply keeps_bind; [apply keeps_any |]. intros puuid0 _.
  eapply (keeps_bind (fun r => within_target args init r.2 /\ may_accept args r.2)).
  - apply keeps_if; [apply keeps_ret; auto |].
    eapply keeps_bind; [apply keeps_any |]. intros s1 _.
    eapply keeps_bind; [apply keeps_any |]. intros s _.
    apply keeps_if; [apply keeps_ret; auto |].
    eapply keeps_bind; [apply keeps_any |]. intros summoner_id _.
    eapply keeps_bind; [apply (fetch_puuid_within_target args init); assumption |].
    intros r Hr. apply keeps_ret, Hr.
  - intros [[puuid |] st1] [Hw1 Hm1]; simpl in Hw1, Hm1; [| apply keeps_ret; auto].
    apply keeps_if; [apply keeps_ret; auto |].
    eapply keeps_bind; [apply keeps_any |]. intros p _.
    eapply keeps_bind; [apply (scan_player_within_target args init); assumption |]. intros st2 Hst2.
    destruct (target_reached args st2) eqn:Hreached; apply keeps_ret.
    + split; [exact Hst2 | discriminate].
    + pose proof (not_reached_may_accept _ _ Hreached). auto.
Qed.

Section LadderWalkFlow.
Context {S : Type} (P Q : S -> Prop) (body : json -> S -> M (flow * S)).
Hypothesis P_Q : forall st, P st -> Q st.
Hypothesis body_flow :
  forall entry st, P st -> keeps (fun r => Q r.2 /\ (r.1 = Next -> P r.2)) (body entry st).

Lemma yield_entries_flow entries :
  forall st, P st ->
  keeps (fun r => Q r.2 /\ (r.1 = Next -> P r.2)) (yield_entries body entries st).
Proof.
  induction entries as [| entry rest IH]; intros st Hst; cbn [yield_entries].
  - apply keeps_ret. auto.
  - eapply keeps_bind; [apply body_flow, Hst |].
    intros [[|] st'] [Hq Hp]; simpl in Hq, Hp.
    + apply IH, Hp. reflexivity.
    + apply keeps_ret. split; [exact Hq | discriminate].
Qed.

Lemma walk_pages_flow api division pages :
  forall st, P st ->
  keeps (fun r => Q r.2 /\ (r.1 = Next -> P r.2)) (walk_pages api body division pages st).
Proof.
  induction pages as [| page rest IH]; intros st Hst; cbn [walk_pages].
  - apply keeps_ret. auto.
  - eapply keeps_bind; [apply keeps_any |]. intros entries _.
    apply keeps_if; [apply keeps_ret; auto |].
    eapply keeps_bind; [apply keeps_any |]. intros l _.
    eapply keeps_bind; [apply yield_entries_flow, Hst |].
    intros [[|] st'] [Hq Hp]; simpl in Hq, Hp.
    + apply IH, Hp. reflexivity.
    + apply keeps_ret. split; [exact Hq | discriminate].
Qed.

Lemma walk_divisions_flow api max_pages divisions :
  forall st, P st ->
  keeps (fun r => Q r.2 /\ (r.1 = Next -> P r.2))
    (walk_divisions api body max_pages divisions st).
Proof.
  induction divisions as [| division rest IH]; intros st Hst; cbn [walk_divisions].
  - apply keeps_ret. auto.
  - eapply keeps_bind; [apply walk_pages_flow, Hst |].
    intros [[|] st'] [Hq Hp]; simpl in Hq, Hp.
    + apply IH, Hp. reflexivity.
    + apply keeps_ret. split; [exact Hq | discriminate].
Qed.
End LadderWalkFlow.

(** X15. A run stops accepting as soon as its target is met: with [n]
    matches on disk at startup it accepts at most [target - n] matches
    when that is positive, and otherwise at most one; the known matches at
    the end are those of the start and the accepted ones. *)
Theorem run_accepts_up_to_target args w st w' :
  main_collect args w = (Ok (inr st), w') ->
  exists old,
    persisted_ids (matchlist args) w = Some old
    /\ let n := size (list_to_set old : gset string) in
       size (known_ids st) = (n + length (new_matches st))%nat
       /\ Z.of_nat (length (new_matches st))
          <= Z.max 1 (target_match_count args - Z.of_nat n).
Proof.
  unfold main_collect. rewrite bind_run.
  destruct (load_api_key_run "RIOT_API_KEY" ".env" w) as [key ->].
  destruct key as [[| c k] |]; try discriminate.
  rewrite bind_run. cbn [RiotAPI_init]. rewrite bind_run.
  destruct (load_existing_matchlist (matchlist args) _) as [[[o kn] | e |] w1] eqn:Hload;
    try discriminate.
  apply load_existing_matchlist_ok in Hload as (Hp & -> & ->).
  rewrite bind_run.
  set (st0 := {| ordered_ids := _ |}).
  set (n := size (list_to_set o : gset string)).
  assert (H0 : within_target args n st0 /\ may_accept args st0).
  { unfold within_target, may_accept, st0. simpl. repeat split; try lia. left. reflexivity. }
  set (api := {| api_key := String c k; timeout := 10 |}).
  pose proof (walk_divisions_flow
                (fun st => within_target args n st /\ may_accept args st)
                (within_target args n)
                (main_entry api args (batch_size_of args) (history_window_of args)
                   (queue_filter_of args))
                (fun st H => proj1 H)
                (fun entry st H => main_entry_within_target args n api _ _ _ entry st H)
                api (max_pages_per_division args) DIVISIONS st0 H0) as K.
  unfold iter_gold_entries.
  destruct (walk_divisions _ _ _ _ _ _) as [[[fl st1] | e |] w2] eqn:Hwalk; try discriminate.
  intros [= <- <-]. exists o. split; [exact Hp |].
  exact (proj1 (K _ _ _ Hwalk)).
Qed.


(** ** Runs that do not return *)

Lemma main_stops_in_collect args w :
  (forall status, (main args w).1 <> Ok status) ->
  (main args w).2 = (main_collect args w).2.
Proof.
  unfold main. rewrite bind_run.
  destruct (main_collect args w) as [[[status | st] | e |] w1]; try reflexivity.
  rewrite bind_run. intros H. destruct (H 0).
  destruct (new_matches st); reflexivity.
Qed.

(** X16. A run of [main] that does not return (it raises, or is still
    waiting for the rate limiter) leaves the match list file as it was:
    the matches stored by such a run are not recorded in the list.  Files
    are told apart by the text of their path as pathlib renders it; the
    match list is written that way and is not the detail or timeline path
    of a match id. *)
Theorem failed_run_keeps_match_list args w :
  Path (matchlist args) = matchlist args ->
  (forall match_id, matchlist args <> match_path (raw_dir args) match_id
                    /\ matchlist args <> timeline_path (raw_dir args) match_id) ->
  (forall status, (main args w).1 <> Ok status) ->
  fs (main args w).2 !! matchlist args = fs w !! matchlist args.
Proof.
  intros _ Hb Hfail. rewrite (main_stops_in_collect args w Hfail).
  apply (main_collect_preserves (same_file (matchlist args)) (fun _ => True)
           (fun q => q <> matchlist args)); auto.
  - intros a u ps n _. apply get_json_same_file.
  - intros q doc Hq. apply write_json_same_file, Hq.
  - intros key w0. reflexivity.
  - intros match_id. destruct (Hb match_id) as [H1 H2]. split; congruence.
  - apply Forall_forall. auto.
  - apply Forall_forall. auto.
Qed.

(** ** The key *)

Lemma lstrip_no_leading_space s : no_leading_space (lstrip s).
Proof.
  induction s as [| c s IH]; simpl; [exact I |].
  destruct (is_space c) eqn:E; [exact IH | exact E].
Qed.

Lemma lstrip_id s : no_leading_space s -> lstrip s = s.
Proof. destruct s as [| c s]; simpl; [reflexivity |]. intros ->. reflexivity. Qed.

Lemma rstrip_no_leading_space s : no_leading_space s -> no_leading_space (rstrip s).
Proof.
  destruct s as [| c s]; simpl; [auto |]. intros E.
  destruct (rstrip s); [rewrite E |]; exact E.
Qed.

Lemma rstrip_cons c r : r <> "" -> rstrip r = r -> rstrip (String c r) = String c r.
Proof.
  intros Hr E. destruct r as [| d r]; [contradiction |].
  change (rstrip (String c (String d r)))
    with (match rstrip (String d r) with
          | EmptyString => if is_space c then EmptyString else String c EmptyString
          | r' => String c r'
          end).
  rewrite E. reflexivity.
Qed.

Lemma rstrip_rstrip s : rstrip (rstrip s) = rstrip s.
Proof.
  induction s as [| c s IH]; [reflexivity |].
  change (rstrip (String c s))
    with (match rstrip s with
          | EmptyString => if is_space c then EmptyString else String c EmptyString
          | r' => String c r'
          end).
  destruct (rstrip s) as [| d r] eqn:E.
  - destruct (is_space c) eqn:Ec; simpl; [reflexivity |]. rewrite Ec. reflexivity.
  - apply rstrip_cons; [discriminate | exact IH].
Qed.

Lemma strip_no_leading_space s : no_leading_space (strip s).
Proof. apply rstrip_no_leading_space, lstrip_no_leading_space. Qed.

Lemma strip_strip s : strip (strip s) = strip s.
Proof.
  unfold strip at 1. rewrite (lstrip_id _ (strip_no_leading_space s)).
  unfold strip. apply rstrip_rstrip.
Qed.

Lemma scan_env_lines_stripped env_var lines k :
  scan_env_lines env_var lines = Some k -> exists value, k = strip value.
Proof.
  induction lines as [| line rest IH]; simpl; [discriminate |].
  destruct (_ || _)%bool; [exact IH |].
  destruct (split_eq (strip line)) as [[name value] |]; [| exact IH].
  destruct (String.eqb (strip name) env_var); [| exact IH].
  intros [= <-]. eauto.
Qed.

(** X17. The key that [load_api_key] returns, from the environment or from
    the file, has no white space at either end: stripping it again gives
    the same string. *)
Theorem api_key_is_stripped env_var env_file w k w' :
  load_api_key env_var env_file w = (Ok (Some k), w') ->
  strip k = k /\ no_leading_space k.
Proof.
  intros H.
  assert (E : exists value, k = strip value).
  { unfold load_api_key in H. destruct (environ w !! env_var) as [[| c s] |].
    2:{ injection H as <- _. eauto. }
    all: destruct (fs w !! env_file) as [[t | j] |]; try discriminate;
      injection H as H _; exact (scan_env_lines_stripped _ _ _ H). }
  destruct E as [value ->]. split; [apply strip_strip | apply strip_no_leading_space].
Qed.

(** X18. An environment variable RIOT_API_KEY that is not empty but holds
    white space only hides the file: [main] finds no key, returns 1 and
    does nothing, whatever the [.env] file holds. *)
Theorem blank_environment_key_stops_the_run args w s :
  environ w !! "RIOT_API_KEY" = Some s -> s <> "" -> strip s = "" ->
  main args w = (Ok 1, w).
Proof.
  intros He Hs Hstrip. unfold main.
  rewrite bind_run, (main_collect_no_key args w); [reflexivity |].
  unfold credential, load_api_key. rewrite He.
  destruct s as [| c s]; [contradiction |]. simpl fst. rewrite Hstrip. reflexivity.
Qed.

End Engine.

(** ** RiotRateLimiter *)

Section LimiterFacts.
Import Limiter.

Lemma live_spec span now t : live span now t = true <-> (now - t < span)%Q.
Proof.
  unfold live. rewrite negb_true_iff.
  destruct (Qle_bool span (now - t)) eqn:E.
  - apply Qle_bool_iff in E. split; [discriminate | lra].
  - split; [intros _ | reflexivity].
    destruct (Qlt_le_dec (now - t) span) as [H | H]; [exact H |].
    apply Qle_bool_iff in H. congruence.
Qed.

Lemma in_window_spec span a t :
  in_window span a t = true <-> (a <= t /\ t < a + span)%Q.
Proof.
  unfold in_window. rewrite andb_true_iff, negb_true_iff, Qle_bool_iff.
  destruct (Qle_bool (a + span) t) eqn:E.
  - apply Qle_bool_iff in E. split; intros [H1 H2]; [discriminate | lra].
  - split; intros [H1 _]; split; auto.
    destruct (Qlt_le_dec t (a + span)) as [H | H]; [exact H |].
    apply Qle_bool_iff in H. congruence.
Qed.

Lemma filter_all (f : Q -> bool) (l : list Q) :
  (forall x, In x l -> f x = true) -> List.filter f l = l.
Proof.
  induction l as [| x l IH]; simpl; intros H; [reflexivity |].
  rewrite (H x) by auto. f_equal. apply IH. auto.
Qed.

Lemma filter_length_le (f g : Q -> bool) (l : list Q) :
  (forall x, In x l -> f x = true -> g x = true) ->
  (length (List.filter f l) <= length (List.filter g l))%nat.
Proof.
  induction l as [| x l IH]; simpl; intros H; [lia |].
  specialize (IH (fun y Hy => H y (or_intror Hy))).
  destruct (f x) eqn:Ef.
  - rewrite (H x) by auto. simpl. lia.
  - destruct (g x); simpl; lia.
Qed.

Lemma filter_filter_sub (f g : Q -> bool) (l : list Q) :
  (forall x, In x l -> f x = true -> g x = true) ->
  List.filter f (List.filter g l) = List.filter f l.
Proof.
  induction l as [| x l IH]; simpl; intros H; [reflexivity |].
  specialize (IH (fun y Hy => H y (or_intror Hy))).
  destruct (g x) eqn:Eg; simpl.
  - destruct (f x); rewrite IH; reflexivity.
  - destruct (f x) eqn:Ef; [| exact IH].
    rewrite (H x) in Eg by auto. discriminate.
Qed.

Lemma nondecreasing_filter (f : Q -> bool) (l : list Q) :
  nondecreasing l -> nondecreasing (List.filter f l).
Proof.
  induction l as [| x l IH]; simpl; [auto |].
  intros [Hx Hl]. destruct (f x); simpl; auto.
  split; auto. intros u Hu. apply Hx. apply List.filter_In in Hu. tauto.
Qed.

Lemma nondecreasing_snoc (l : list Q) (t : Q) :
  nondecreasing l -> (forall s, In s l -> s <= t)%Q -> nondecreasing (l ++ [t]).
Proof.
  induction l as [| x l IH]; simpl; intros Hl Hle.
  - split; [intros u [] | exact I].
  - destruct Hl as [Hx Hl]. split.
    + intros u Hu. apply List.in_app_iff in Hu. destruct Hu as [Hu | [<- | []]]; auto.
    + apply IH; auto.
Qed.

(** On a deque in arrival order, popping expired heads is filtering. *)
Lemma popleft_expired_filter span now (w : list Q) :
  nondecreasing w -> popleft_expired span now w = List.filter (live span now) w.
Proof.
  induction w as [| t w IH]; simpl; [reflexivity |].
  intros [Ht Hw]. unfold live at 1.
  destruct (Qle_bool span (now - t)) eqn:E; simpl.
  - apply IH, Hw.
  - f_equal. symmetry. apply filter_all. intros u Hu.
    apply live_spec. specialize (Ht u Hu).
    assert (H : live span now t = true) by (unfold live; rewrite E; reflexivity).
    apply live_spec in H. lra.
Qed.


Lemma trim_filter span lo now (adm : list Q) :
  nondecreasing adm -> (lo <= now)%Q ->
  popleft_expired span now (List.filter (live span lo) adm)
  = List.filter (live span now) adm.
Proof.
  intros Hs Hlo.
  rewrite popleft_expired_filter by (apply nondecreasing_filter, Hs).
  apply filter_filter_sub. intros x _ Hx.
  apply live_spec in Hx. apply live_spec. lra.
Qed.

Lemma filter_snoc_live span now (adm : list Q) :
  (0 < span)%Q ->
  List.filter (live span now) (adm ++ [now]) = List.filter (live span now) adm ++ [now].
Proof.
  intros Hspan. rewrite List.filter_app. simpl.
  assert (H : live span now now = true) by (apply live_spec; lra).
  rewrite H. reflexivity.
Qed.

Lemma wait_iteration_caps l now :
  per_second (wait_iteration l now).1 = per_second l /\
  per_two_minutes (wait_iteration l now).1 = per_two_minutes l.
Proof. unfold wait_iteration. destruct (has_room _); simpl; auto. Qed.

Lemma wait_iteration_inv l adm lo now :
  Inv l adm lo -> (lo <= now)%Q ->
  match wait_iteration l now with
  | (l', None) =>
      Inv l' (adm ++ [now]) now /\
      under_capacity (per_second l) (per_two_minutes l) adm now
  | (l', Some _) => Inv l' adm now
  end.
Proof.
  intros [Hs Hp H1 H2] Hlo. unfold wait_iteration.
  assert (E1 : second_window (_trim_windows l now) = List.filter (live 1 now) adm).
  { simpl. rewrite H1. apply trim_filter; assumption. }
  assert (E2 : two_minute_window (_trim_windows l now) = List.filter (live 120 now) adm).
  { simpl. rewrite H2. apply trim_filter; assumption. }
  assert (Hp' : forall s, In s adm -> (s <= now)%Q).
  { intros s Hin. specialize (Hp s Hin). lra. }
  destruct (has_room (_trim_windows l now)) eqn:Hroom.
  - split.
    + constructor.
      * apply nondecreasing_snoc; assumption.
      * intros s Hin. apply List.in_app_iff in Hin.
        destruct Hin as [Hin | [<- | []]]; [auto | lra].
      * cbn [record_admission second_window]. rewrite E1.
        symmetry. apply filter_snoc_live. lra.
      * cbn [record_admission two_minute_window]. rewrite E2.
        symmetry. apply filter_snoc_live. lra.
    + unfold has_room in Hroom. apply andb_true_iff in Hroom as [R1 R2].
      apply Z.ltb_lt in R1, R2. rewrite E1 in R1. rewrite E2 in R2.
      split; assumption.
  - constructor; assumption.
Qed.

Lemma wait_inv (clock : list Q) : forall l adm lo t l' rest sl,
  Inv l adm lo -> (forall u, In u clock -> (lo <= u)%Q) -> nondecreasing clock ->
  wait l clock = Some (t, l', rest, sl) ->
  Inv l' (adm ++ [t]) t /\
  under_capacity (per_second l) (per_two_minutes l) adm t /\
  per_second l' = per_second l /\ per_two_minutes l' = per_two_minutes l /\
  (forall u, In u rest -> (t <= u)%Q) /\ nondecreasing rest.
Proof.
  induction clock as [| now clock IH]; intros l adm lo t l' rest sl HI Hlo Hnd Hw;
    [discriminate |].
  simpl in Hw. destruct Hnd as [Hnow Hnd].
  pose proof (wait_iteration_inv l adm lo now HI (Hlo now (or_introl eq_refl))) as Hit.
  pose proof (wait_iteration_caps l now) as [Hc1 Hc2].
  destruct (wait_iteration l now) as [l1 [s |]].
  - destruct (wait l1 clock) as [[[[t1 l2] rest1] sl1] |] eqn:Hrec; [| discriminate].
    injection Hw as <- <- <- <-.
    destruct (IH l1 adm now t1 l2 rest1 sl1 Hit Hnow Hnd Hrec)
      as (A & B & C & D & E & F).
    simpl in Hc1, Hc2. rewrite Hc1, Hc2 in *. auto 10.
  - injection Hw as <- <- <- <-. destruct Hit as [A B]. simpl in Hc1, Hc2. auto 10.
Qed.

Lemma admissible_snoc c1 c2 (ts : list Q) (t : Q) :
  admissible c1 c2 ts -> under_capacity c1 c2 ts t -> admissible c1 c2 (ts ++ [t]).
Proof.
  intros Hts Ht pre u post E.
  destruct post as [| p post' _] using rev_ind.
  - apply app_inj_tail in E as [-> ->]. exact Ht.
  - rewrite app_comm_cons, app_assoc in E. apply app_inj_tail in E as [E _].
    exact (Hts pre u post' E).
Qed.

Lemma wait_calls_admissible (n : nat) : forall l adm lo clock,
  Inv l adm lo -> (forall u, In u clock -> (lo <= u)%Q) -> nondecreasing clock ->
  admissible (per_second l) (per_two_minutes l) adm ->
  admissible (per_second l) (per_two_minutes l) (adm ++ (wait_calls n l clock).1).
Proof.
  induction n as [| n IH]; intros l adm lo clock HI Hlo Hnd Hadm; simpl.
  - rewrite app_nil_r. exact Hadm.
  - destruct (wait l clock) as [[[[t l'] rest] sl] |] eqn:Hw; simpl.
    + destruct (wait_inv clock l adm lo t l' rest sl HI Hlo Hnd Hw)
        as (A & B & C & D & E & F).
      specialize (IH l' (adm ++ [t]) t rest A E F).
      rewrite C, D in IH.
      destruct (wait_calls n l' rest) as [ts l'']. simpl in *.
      rewrite <- app_assoc in IH. apply IH. apply admissible_snoc; assumption.
    + rewrite app_nil_r. exact Hadm.
Qed.

Lemma admissible_window (span : Q) (c : Z) (ts : list Q) :
  0 <= c ->
  (forall pre t post, ts = pre ++ t :: post -> live_count span t pre < c) ->
  forall a, window_count span a ts <= c.
Proof.
  intros Hc. induction ts as [| t ts IH] using rev_ind; intros Hadm a.
  - unfold window_count. simpl. lia.
  - assert (IH' : window_count span a ts <= c).
    { apply IH. intros pre u post E. apply (Hadm pre u (post ++ [t])).
      rewrite E, <- app_assoc. reflexivity. }
    unfold window_count in *. rewrite List.filter_app, length_app. simpl.
    destruct (in_window span a t) eqn:Ew; simpl; [| lia].
    specialize (Hadm ts t [] eq_refl). unfold live_count in Hadm.
    apply in_window_spec in Ew.
    assert (length (List.filter (in_window span a) ts)
            <= length (List.filter (live span t) ts))%nat.
    { apply filter_length_le. intros x _ Hx. apply in_window_spec in Hx.
      apply live_spec. lra. }
    lia.
Qed.

Lemma Inv_init c1 c2 lo : Inv (init c1 c2) [] lo.
Proof. constructor; simpl; auto. intros s []. Qed.

(** C5 (amended). Over any number of calls of [wait] on a fresh limiter with
    capacities [c1] and [c2], read against a clock that never goes back:
    no window [[a, a + 1)] holds more than [c1] admitted timestamps, no
    window [[a, a + 120)] holds more than [c2], and each timestamp was
    admitted at a moment when fewer than [c1] earlier ones lay in the last
    time unit and fewer than [c2] in the last 120. *)
Theorem rate_windows_never_exceeded (c1 c2 : Z) (n : nat) (clock : list Q) :
  0 <= c1 -> 0 <= c2 -> nondecreasing clock ->
  let ts := (wait_calls n (init c1 c2) clock).1 in
  (forall a, window_count 1 a ts <= c1) /\
  (forall a, window_count 120 a ts <= c2) /\
  (forall pre t post, ts = pre ++ t :: post ->
     live_count 1 t pre < c1 /\ live_count 120 t pre < c2).
Proof.
  intros H1 H2 Hnd ts.
  assert (Hadm : admissible c1 c2 ts).
  { destruct clock as [| t0 clock'].
    - subst ts. destruct n; simpl; intros pre t post E; destruct pre; discriminate.
    - pose proof (wait_calls_admissible n (init c1 c2) [] t0 (t0 :: clock')
                    (Inv_init c1 c2 t0)) as H.
      simpl in H. apply H.
      + intros u [<- | Hu]; [lra | apply Hnd, Hu].
      + exact Hnd.
      + intros pre t post E. destruct pre; discriminate. }
  split; [| split].
  - apply admissible_window; [assumption |]. intros pre t post E. apply (Hadm pre t post E).
  - apply admissible_window; [assumption |]. intros pre t post E. apply (Hadm pre t post E).
  - exact Hadm.
Qed.

Lemma qmax_ge_l a b : (a <= qmax a b)%Q.
Proof.
  unfold qmax. destruct (Qle_bool b a) eqn:E; [lra |].
  destruct (Qlt_le_dec a b) as [H | H]; [lra |].
  apply Qle_bool_iff in H. congruence.
Qed.

Lemma qmax_ge_r a b : (b <= qmax a b)%Q.
Proof.
  unfold qmax. destruct (Qle_bool b a) eqn:E; [apply Qle_bool_iff in E; lra | lra].
Qed.

Lemma popleft_expired_head span now t (w : list Q) :
  (span <= now - t)%Q ->
  (length (popleft_expired span now (t :: w)) <= length w)%nat.
Proof.
  intros H. simpl. apply Qle_bool_iff in H. rewrite H.
  induction w as [| u w IH]; simpl; [lia |].
  destruct (Qle_bool span (now - u)); simpl; lia.
Qed.

Lemma calculate_sleep_second l now t w :
  second_window l = t :: w -> (1 - (now - t) <= _calculate_sleep l now)%Q.
Proof.
  intros E. unfold _calculate_sleep. rewrite E.
  destruct (two_minute_window l) as [| t2 w2]; simpl.
  - apply qmax_ge_r.
  - eapply Qle_trans; [apply qmax_ge_r | apply qmax_ge_l].
Qed.

Lemma calculate_sleep_two_minute l now t w :
  two_minute_window l = t :: w -> (120 - (now - t) <= _calculate_sleep l now)%Q.
Proof.
  intros E. unfold _calculate_sleep. rewrite E.
  destruct (second_window l) as [| t1 w1]; simpl.
  - apply qmax_ge_r.
  - eapply Qle_trans; [apply qmax_ge_r | apply qmax_ge_r].
Qed.

(** The windows are half-open: with capacity 1, two calls one time unit
    apart are both admitted at once. *)
Example one_unit_apart :
  (wait_calls 2 (init 1 200) [0; 1; 2]%Q).1 = [0; 1]%Q.
Proof. reflexivity. Qed.


(** X19. When the limiter has no free slot at [now] and the next clock
    reading is no sooner than the sleep it asked for, [wait] sleeps exactly
    once, for that time, and admits the call at that next reading; with a
    free slot it admits the call at [now] without sleeping.  The windows
    hold at most their capacity, which is at least one. *)
Theorem wait_sleeps_at_most_once l now next rest :
  1 <= per_second l -> 1 <= per_two_minutes l ->
  Z.of_nat (length (second_window l)) <= per_second l ->
  Z.of_nat (length (two_minute_window l)) <= per_two_minutes l ->
  let l1 := _trim_windows l now in
  (now + _calculate_sleep l1 now <= next)%Q ->
  wait l (now :: next :: rest)
  = if has_room l1
    then Some (now, record_admission l1 now, next :: rest, [])
    else Some (next, record_admission (_trim_windows l1 next) next, rest,
               [_calculate_sleep l1 now]).
Proof.
  intros C1 C2 L1 L2 l1 Hnext.
  cbn [wait]. unfold wait_iteration at 1. fold l1.
  destruct (has_room l1) eqn:Hroom; [reflexivity |].
  assert (L1' : Z.of_nat (length (second_window l1)) <= per_second l).
  { pose proof (popleft_expired_length 1 now (second_window l)). simpl. lia. }
  assert (L2' : Z.of_nat (length (two_minute_window l1)) <= per_two_minutes l).
  { pose proof (popleft_expired_length 120 now (two_minute_window l)). simpl. lia. }
  assert (Hroom' : has_room (_trim_windows l1 next) = true).
  { unfold has_room. cbn [_trim_windows per_second per_two_minutes second_window
                          two_minute_window].
    change (per_second l1) with (per_second l).
    change (per_two_minutes l1) with (per_two_minutes l).
    apply andb_true_iff. split; apply Z.ltb_lt.
    - destruct (second_window l1) as [| t w] eqn:E1; [simpl; lia |].
      pose proof (calculate_sleep_second l1 now t w E1) as S.
      assert (H : (1 <= next - t)%Q) by lra.
      pose proof (popleft_expired_head 1 next t w H). simpl in L1'. lia.
    - destruct (two_minute_window l1) as [| t w] eqn:E2; [simpl; lia |].
      pose proof (calculate_sleep_two_minute l1 now t w E2) as S.
      assert (H : (120 <= next - t)%Q) by lra.
      pose proof (popleft_expired_head 120 next t w H). simpl in L2'. lia. }
  unfold wait_iteration. rewrite Hroom'. reflexivity.
Qed.

Lemma qmax_lub a b c : (a <= c)%Q -> (b <= c)%Q -> (qmax a b <= c)%Q.
Proof. intros Ha Hb. unfold qmax. destruct (Qle_bool b a); assumption. Qed.

(** X20. Take a limiter with capacities of at least one whose deques
    hold exactly the admitted timestamps still inside their span at the
    last clock reading, these timestamps in order and none later than that
    reading (the state that calls of [wait] on a fresh limiter keep under a
    clock that never goes back), and a new reading that is not earlier.
    Whenever [wait] then has to sleep, some call was admitted in the last
    120 time units, and the sleep lasts at least until the oldest of them
    is 120 old, also when only the one-second window is full; it is never
    shorter than 0.05 nor longer than 120. *)
Theorem sleep_runs_to_two_minute_expiry l adm lo now l' s :
  Inv l adm lo -> (lo <= now)%Q ->
  1 <= per_second l -> 1 <= per_two_minutes l ->
  wait_iteration l now = (l', Some s) ->
  exists t w,
    List.filter (live 120 now) adm = t :: w
    /\ (now - t < 120)%Q
    /\ (120 - (now - t) <= s)%Q
    /\ (5 # 100 <= s <= 120)%Q.
Proof.
  intros [Hs Hp H1 H2] Hlo C1 C2. unfold wait_iteration.
  assert (E1 : second_window (_trim_windows l now) = List.filter (live 1 now) adm).
  { simpl. rewrite H1. apply trim_filter; assumption. }
  assert (E2 : two_minute_window (_trim_windows l now) = List.filter (live 120 now) adm).
  { simpl. rewrite H2. apply trim_filter; assumption. }
  destruct (has_room (_trim_windows l now)) eqn:Hroom; [discriminate |].
  intros [= <- <-].
  assert (Hsub : forall u, In u (List.filter (live 1 now) adm) ->
                   In u (List.filter (live 120 now) adm)).
  { intros u Hu. apply List.filter_In in Hu as [Hin Hl]. apply List.filter_In.
    split; [exact Hin |]. apply live_spec in Hl. apply live_spec. lra. }
  assert (Hpast : forall span u, In u (List.filter (live span now) adm) -> (u <= now)%Q).
  { intros span u Hu. apply List.filter_In in Hu as [Hin _]. specialize (Hp u Hin). lra. }
  destruct (List.filter (live 120 now) adm) as [| t w] eqn:F2.
  - exfalso. unfold has_room in Hroom. rewrite E1, E2 in Hroom.
    cbn [_trim_windows per_second per_two_minutes] in Hroom.
    destruct (List.filter (live 1 now) adm) as [| t1 w1]; [| destruct (Hsub t1); left; reflexivity].
    apply andb_false_iff in Hroom as [R | R]; apply Z.ltb_ge in R; simpl in R; lia.
  - exists t, w. split; [reflexivity |].
    assert (Hlive : In t (List.filter (live 120 now) adm)) by (rewrite F2; left; reflexivity).
    pose proof (Hpast 120%Q t Hlive) as Ht.
    apply List.filter_In in Hlive as [_ Hlive]. apply live_spec in Hlive.
    split; [exact Hlive |]. split; [apply (calculate_sleep_two_minute _ now t w E2) |].
    unfold _calculate_sleep. rewrite E1, E2.
    destruct (List.filter (live 1 now) adm) as [| t1 w1] eqn:F1; simpl.
    + split; [apply qmax_ge_l | apply qmax_lub; lra].
    + pose proof (Hpast 1%Q t1 ltac:(rewrite F1; left; reflexivity)) as Ht1.
      split.
      * eapply Qle_trans; [apply qmax_ge_l | apply qmax_ge_l].
      * repeat apply qmax_lub; lra.
Qed.

Lemma last_cons_default (t : Q) (ts : list Q) (d : Q) : List.last (t :: ts) d = List.last ts t.
Proof.
  revert t d. induction ts as [| u ts IH]; intros t d; [reflexivity |].
  change (List.last (t :: u :: ts) d) with (List.last (u :: ts) d). rewrite !IH. reflexivity.
Qed.

Lemma wait_calls_inv (n : nat) : forall l adm lo clock,
  Inv l adm lo -> (forall u, In u clock -> (lo <= u)%Q) -> nondecreasing clock ->
  let r := wait_calls n l clock in
  Inv r.2 (adm ++ r.1) (List.last r.1 lo)
  /\ per_second r.2 = per_second l /\ per_two_minutes r.2 = per_two_minutes l.
Proof.
  induction n as [| n IH]; intros l adm lo clock HI Hlo Hnd; simpl.
  - rewrite app_nil_r. auto.
  - destruct (wait l clock) as [[[[t l'] rest] sl] |] eqn:Hw; simpl.
    + destruct (wait_inv clock l adm lo t l' rest sl HI Hlo Hnd Hw)
        as (A & B & C & D & E & F).
      specialize (IH l' (adm ++ [t]) t rest A E F).
      destruct (wait_calls n l' rest) as [ts l''] eqn:Hc. simpl in IH.
      cbn [fst snd]. rewrite <- app_assoc in IH. simpl in IH.
      destruct IH as (I1 & I2 & I3).
      rewrite last_cons_default. split; [exact I1 |]. split; congruence.
    + rewrite app_nil_r. auto.
Qed.

(** X21. After any number of calls of [wait] on a fresh limiter, read
    against a clock that never goes back, each deque holds exactly the
    admitted timestamps that are younger than its span at the last
    admission, in order, and never more of them than its capacity. *)
Theorem windows_hold_live_admissions (c1 c2 : Z) (n : nat) (clock : list Q) :
  0 <= c1 -> 0 <= c2 -> nondecreasing clock ->
  let ts := (wait_calls n (init c1 c2) clock).1 in
  let l := (wait_calls n (init c1 c2) clock).2 in
  let t := List.last ts 0%Q in
  second_window l = List.filter (live 1 t) ts
  /\ two_minute_window l = List.filter (live 120 t) ts
  /\ Z.of_nat (length (second_window l)) <= c1
  /\ Z.of_nat (length (two_minute_window l)) <= c2.
Proof.
  intros H1 H2 Hnd ts l t.
  assert (H : exists lo,
            Inv l ts (List.last ts lo) /\ admissible c1 c2 ts).
  { destruct clock as [| t0 clock'].
    - exists 0%Q. subst ts l. destruct n; simpl; (split; [apply Inv_init |]);
        intros pre u post E; destruct pre; discriminate.
    - exists t0.
      assert (Hlo : forall u, In u (t0 :: clock') -> (t0 <= u)%Q).
      { intros u [<- | Hu]; [lra | apply Hnd, Hu]. }
      split.
      + exact (proj1 (wait_calls_inv n (init c1 c2) [] t0 (t0 :: clock')
                        (Inv_init c1 c2 t0) Hlo Hnd)).
      + pose proof (wait_calls_admissible n (init c1 c2) [] t0 (t0 :: clock')
                      (Inv_init c1 c2 t0) Hlo Hnd) as A.
        apply A. intros pre u post E. destruct pre; discriminate. }
  destruct H as (lo & [Hs Hp E1 E2] & Hadm).
  assert (Ht : ts = [] \/ exists pre, ts = pre ++ [t] /\ List.last ts lo = t).
  { subst t. destruct ts as [| x ts'] using rev_ind; [left; reflexivity |].
    right. exists ts'. rewrite !List.last_last. auto. }
  destruct Ht as [Ht | (pre & Ht & Hl)].
  - rewrite E1, E2, Ht. simpl. repeat split; lia.
  - rewrite Hl in E1, E2. rewrite E1, E2. split; [reflexivity |]. split; [reflexivity |].
    destruct (Hadm pre t [] Ht) as [A1 A2]. unfold live_count in A1, A2.
    rewrite Ht, !List.filter_app, !length_app. simpl.
    assert (L1 : live 1 t t = true) by (apply live_spec; lra).
    assert (L2 : live 120 t t = true) by (apply live_spec; lra).
    rewrite L1, L2. simpl. lia.
Qed.

End LimiterFacts.

(** ** Worked examples *)

Local Open Scope string_scope.
Local Open Scope list_scope.

(** C1 on the complete bundle of match [c]. *)
Lemma cached_bundle_example :
  let w := demo_world demo_env bundle_files_c in
  download_match_bundle plain_float plain_int demo_api "c" "data/raw" 900 (Some 420) w
  = (Ok (true, "cached"), w).
Proof.
  apply (cached_bundle_is_idempotent plain_float plain_int demo_api "c" "data/raw" 900
           (Some 420) (demo_world demo_env bundle_files_c)).
  split; vm_compute; eauto.
Defined.

(** C2 as stated fails: with the detail file of [c] on disk and no
    timeline file, the call completes the bundle, and the first of the two
    requests it sends fetches the match detail again. *)
Lemma detail_only_bundle_fetches_detail_again :
  let w := demo_world demo_env detail_file_c in
  let r := download_match_bundle plain_float plain_int demo_api "c" "data/raw" 900 (Some 420) w in
  detail_only "data/raw" "c" w
  /\ r.1 = Ok (true, "stored")
  /\ bundle_complete "data/raw" "c" r.2
  /\ map url (new_sent w r.2) = [match_url "c"; timeline_url "c"]
  /\ In (match_url "c") (map url (new_sent w r.2)).
Proof. vm_compute. repeat split; eauto. Qed.

(** C2 (amended) on the same bundle. *)
Lemma detail_only_example :
  let w := demo_world demo_env detail_file_c in
  let r := download_match_bundle plain_float plain_int demo_api "c" "data/raw" 900 (Some 420) w in
  (exists out rest,
     calls r.2 = calls w ++
       {| call_url := match_url "c"; call_params := []; call_result := out |} :: rest)
  /\ r.1 = Ok (true, "stored")
  /\ bundle_complete "data/raw" "c" r.2.
Proof.
  intros w r.
  assert (Hdo : detail_only "data/raw" "c" w) by (vm_compute; eauto).
  destruct (detail_only_bundle_is_refetched plain_float plain_int demo_api "c" "data/raw" 900
              (Some 420) w Hdo) as [Hcall Hrun].
  split; [exact Hcall |].
  set (w1 := (get_json plain_float demo_api (match_url "c") [] 5 w).2).
  set (w2 := (get_json plain_float demo_api (timeline_url "c") [] 5
                (set_fs (<[match_path "data/raw" "c" := Doc (match_doc 420 1800)]> (fs w1)) w1)).2).
  destruct (Hrun (match_doc 420 1800) w1 (JInt 420) 1800 (JObj [("frames", JArr [])]) w2)
    as (Hr & _ & _ & Hc).
  - vm_compute. reflexivity.
  - reflexivity.
  - reflexivity.
  - reflexivity.
  - lia.
  - vm_compute. reflexivity.
  - split; [| exact Hc]. fold r in Hr. rewrite Hr. reflexivity.
Defined.



(** C4 as stated fails: the bundle of match [q] is complete on disk, its
    queue is 440, the filter is 420, and the answer is [(True, "cached")]. *)
Lemma cached_bundle_bypasses_queue_filter :
  let w := demo_world demo_env bundle_files_q in
  (get_json plain_float demo_api (match_url "q") [] 5 w).1 = Ok (match_doc 440 1800)
  /\ match_queue_id (match_doc 440 1800) = inr (JInt 440)
  /\ py_eq_int (JInt 440) 420 = false
  /\ (download_match_bundle plain_float plain_int demo_api "q" "data/raw" 900 (Some 420) w).1
     = Ok (true, "cached")
  /\ (download_match_bundle plain_float plain_int demo_api "q" "data/raw" 900 (Some 420) w).1
     <> Ok (false, "queue").
Proof. vm_compute. repeat split; discriminate. Qed.

(** C4 (amended) on the short game [s]. *)
Lemma rejected_match_example :
  let w := demo_world demo_env ∅ in
  let r := download_match_bundle plain_float plain_int demo_api "s" "data/raw" 900 (Some 420) w in
  r.1 = Ok (false, "duration") /\ fs r.2 = fs w.
Proof.
  intros w r.
  set (w1 := (get_json plain_float demo_api (match_url "s") [] 5 w).2).
  destruct (rejected_match_is_not_written plain_float plain_int demo_api "s" "data/raw" 900
              (Some 420) w (match_doc 420 300) w1 (JInt 420)) as (_ & _ & H).
  - vm_compute. reflexivity.
  - reflexivity.
  - destruct (H 300%Z) as [Hfs Hr]; [reflexivity | lia |].
    split; [| exact Hfs]. fold r in Hr. rewrite Hr; [reflexivity |].
    vm_compute. intros [[x Hx] _]. discriminate.
Defined.

(** C5 as stated fails when the clock is set back: with capacities 2 and
    200 and the readings 100, 100, 101.5 and 100.3, all four calls are
    admitted, and three of the admitted timestamps lie in the window
    [[100, 101)]. *)
Lemma clock_set_back_overfills_window :
  let ts := (Limiter.wait_calls 4 (Limiter.init 2 200) clock_set_back).1 in
  ts = clock_set_back
  /\ Limiter.window_count 1 100 ts = 3%Z
  /\ ~ (Limiter.window_count 1 100 ts <= 2)%Z
  /\ ~ Limiter.nondecreasing clock_set_back.
Proof.
  split; [vm_compute; reflexivity |]. split; [vm_compute; reflexivity |]. split.
  - vm_compute. intros H. apply H. reflexivity.
  - unfold clock_set_back. intros (_ & _ & H & _).
    specialize (H (1003 # 10)%Q (or_introl eq_refl)). vm_compute in H. apply H. reflexivity.
Qed.

(** C5 on four calls with capacities 2 and 3: three are admitted, at 0, 0
    and 1; the fourth is still waiting when the readings end. *)
Lemma rate_windows_example :
  let ts := (Limiter.wait_calls 4 (Limiter.init 2 3) demo_clock).1 in
  ts = [0; 0; 1]%Q
  /\ (forall a, Limiter.window_count 1 a ts <= 2)%Z
  /\ (forall a, Limiter.window_count 120 a ts <= 3)%Z.
Proof.
  intros ts. split; [reflexivity |].
  destruct (rate_windows_never_exceeded 2 3 4 demo_clock) as (H1 & H2 & _).
  - lia.
  - lia.
  - simpl. repeat split; intros u Hu; simpl in Hu;
      repeat (destruct Hu as [<- | Hu]; [unfold Qle; simpl; lia |]); destruct Hu.
  - split; assumption.
Defined.

(** C6 on the run of the scenario: the state at the end of the loops. *)
Lemma merge_example :
  let w := demo_world demo_env matchlist_ab in
  let r := main_collect plain_float plain_int default_args w in
  exists st old,
    r.1 = Ok (inr st)
    /\ persisted_ids (matchlist default_args) w = Some old
    /\ old = ["a"; "b"]
    /\ ordered_ids st = ["a"; "b"; "c"]
    /\ merge_inv old st
    /\ NoDup (ordered_ids st).
Proof.
  intros w r.
  set (st := {| ordered_ids := ["a"; "b"; "c"];
                known_ids := {["c"]} ∪ list_to_set ["a"; "b"];
                new_matches := ["c"];
                skip_stats := <["duplicate_id" := 1%Z]> ∅;
                puuid_cache := ∅ |}).
  assert (Hr : main_collect plain_float plain_int default_args w = (Ok (inr st), r.2))
    by (vm_compute; reflexivity).
  destruct (proj1 (proj2 (merge_keeps_order_without_duplicates plain_float plain_int))
              default_args w st r.2 Hr) as (old & Hp & Hm & Hnd).
  assert (Hold : old = ["a"; "b"]).
  { assert (P : persisted_ids (matchlist default_args) w = Some ["a"; "b"]) by reflexivity.
    congruence. }
  exists st, old. split; [subst r; rewrite Hr; reflexivity |].
  split; [exact Hp |]. split; [exact Hold |]. split; [reflexivity |].
  split; [exact Hm |]. apply Hnd. rewrite Hold.
  apply (bool_decide_unpack _). vm_compute. exact I.
Defined.

(** C7 on the endpoint of match [f]. *)
Lemma three_server_errors_example :
  let w := demo_world demo_env ∅ in
  (get_json plain_float demo_api (match_url "f") [] 5 w).1 = Ok (match_doc 420 1800)
  /\ (get_json plain_float demo_api (match_url "f") [] 3 w).1
     = Raise (RuntimeError (GivingUp (match_url "f") 3))
  /\ sent (get_json plain_float demo_api (match_url "f") [] 3 w).2
     = sent w ++ repeat {| url := match_url "f"; params := []; token := api_key demo_api |} 3.
Proof.
  apply (three_server_errors_then_success plain_float demo_api (match_url "f") []
           (demo_world demo_env ∅) (match_doc 420 1800)).
  - reflexivity.
  - simpl. lia.
  - intros k Hk. destruct k as [| [| [| k]]]; [| | | lia];
      (eexists; split; [vm_compute; reflexivity | reflexivity]).
  - eexists. split; [vm_compute; reflexivity |]. split; reflexivity.
Defined.

(** C8 without a credential, and on a run that ends below its target. *)
Lemma exit_status_example :
  main plain_float plain_int default_args (demo_world ∅ ∅) = (Ok 1, demo_world ∅ ∅)
  /\ (let w := demo_world demo_env matchlist_ab in
      exists status, (main plain_float plain_int default_args w).1 = Ok status
                     /\ status = 0
                     /\ persisted_ids "matchlist.json" (main plain_float plain_int default_args w).2
                        = Some ["a"; "b"; "c"]
                     /\ (3 < target_match_count default_args)%Z).
Proof.
  split.
  - apply (proj1 (exit_status plain_float plain_int default_args (demo_world ∅ ∅))).
    reflexivity.
  - intros w. exists 0%Z. split; [vm_compute; reflexivity |]. split.
    + pose proof (proj2 (exit_status plain_float plain_int default_args w) 0%Z
                    (main plain_float plain_int default_args w).2) as H.
      symmetry. apply H. vm_compute. reflexivity.
    + split; [vm_compute; reflexivity | reflexivity].
Defined.

(** C9 as stated fails: the document of match [n] has no [info], hence no
    [gameDuration]; with the default filter and minimum the answer is
    [(False, "queue")], not [(False, "duration")]. *)
Lemma missing_info_is_skipped_as_queue :
  let w := demo_world demo_env ∅ in
  (get_json plain_float demo_api (match_url "n") [] 5 w).1 = Ok (JObj [])
  /\ lacks_game_duration (JObj [])
  /\ (0 < DEFAULT_MIN_DURATION)%Z
  /\ (download_match_bundle plain_float plain_int demo_api "n" "data/raw"
        DEFAULT_MIN_DURATION (Some DEFAULT_QUEUE_ID) w).1 = Ok (false, "queue")
  /\ (download_match_bundle plain_float plain_int demo_api "n" "data/raw"
        DEFAULT_MIN_DURATION (Some DEFAULT_QUEUE_ID) w).1 <> Ok (false, "duration").
Proof.
  split; [vm_compute; reflexivity |]. split; [exists []; split; reflexivity |].
  split; [reflexivity |]. split; [vm_compute; reflexivity |].
  vm_compute. discriminate.
Qed.

(** C9 (amended) on the document of match [d], whose queue passes the
    filter, and on the document of match [z], whose [info] is [null]. *)
Lemma missing_duration_example :
  (download_match_bundle plain_float plain_int demo_api "d" "data/raw" 900 (Some 420)
     (demo_world demo_env ∅)).1
  = Ok (false, "duration")
  /\ match_game_duration plain_int (JObj [("info", JObj [("queueId", JInt 420)])]) = inr 0%Z
  /\ (download_match_bundle plain_float plain_int demo_api "z" "data/raw" 900 (Some 420)
        demo_world_null).1
     = Raise AttributeError.
Proof.
  set (w := demo_world demo_env ∅).
  set (doc := JObj [("info", JObj [("queueId", JInt 420)])]).
  set (w1 := (get_json plain_float demo_api (match_url "d") [] 5 w).2).
  set (wz := (get_json plain_float demo_api (match_url "z") [] 5 demo_world_null).2).
  destruct (missing_duration_counts_as_zero plain_float plain_int demo_api "d" "data/raw" 900
              (Some 420) w doc w1) as (Hlack & _).
  { vm_compute. intros [[x Hx] _]. discriminate. }
  { vm_compute. reflexivity. }
  { lia. }
  destruct Hlack as (Hd & (q & Hq & Hr & _) & _).
  { exists [("queueId", JInt 420)]. split; reflexivity. }
  destruct (missing_duration_counts_as_zero plain_float plain_int demo_api "z" "data/raw" 900
              (Some 420) demo_world_null (JObj [("info", JNull)]) wz) as (_ & Hnull).
  { vm_compute. intros [[x Hx] _]. discriminate. }
  { vm_compute. reflexivity. }
  { lia. }
  destruct (Hnull JNull eq_refl) as [Hz _]; [discriminate |].
  split; [| split; [exact Hd |]].
  - rewrite Hr.
    assert (E : q = JInt 420) by (vm_compute in Hq; congruence). rewrite E. reflexivity.
  - rewrite Hz. reflexivity.
Defined.



(** ** Worked examples of the further properties *)

(** X1 on match [b], which the API does not know (404). *)
Lemma client_error_example :
  let w := demo_world demo_env ∅ in
  let res := get_json plain_float demo_api (match_url "b") [] 5 w in
  res.1 = Raise (RuntimeError (RequestFailed 404 (match_url "b") ""))
  /\ sent res.2 = [{| url := match_url "b"; params := []; token := "secret" |}]
  /\ slept res.2 = [].
Proof.
  intros w res.
  destruct (client_error_is_not_retried plain_float demo_api (match_url "b") [] 5 w
              (limiter_wait w).2
              {| status_code := 404; retry_after := None; text := ""; body := None |})
    as (H1 & H2 & H3).
  - lia.
  - vm_compute. reflexivity.
  - vm_compute. reflexivity.
  - simpl. lia.
  - simpl. lia.
  - split; [exact H1 |]. split; [exact H2 | exact H3].
Defined.

(** X2 on match [f] with three attempts: all three requests are sent. *)
Lemma request_budget_example :
  let w := demo_world demo_env ∅ in
  let res := get_json plain_float demo_api (match_url "f") [] 3 w in
  exists k, (k <= 3)%nat
    /\ sent res.2 = sent w ++ repeat {| url := match_url "f"; params := []; token := "secret" |} k
    /\ k = 3%nat.
Proof.
  intros w res.
  destruct (request_budget plain_float demo_api (match_url "f") [] 3 w) as (k & Hk & Hs & Hg).
  exists k. split; [exact Hk |]. split; [exact Hs |]. apply Hg. vm_compute. reflexivity.
Defined.


(** X5 on the download of match [c]: the match list stays as it is. *)
Lemma download_touches_example :
  let w := demo_world demo_env matchlist_ab in
  let w' := (download_match_bundle plain_float plain_int demo_api "c" "data/raw" 900
               (Some 420%Z) w).2 in
  fs w' !! "matchlist.json" = fs w !! "matchlist.json"
  /\ is_Some (fs w' !! "matchlist.json").
Proof.
  intros w w'.
  destruct (download_touches_only_its_bundle plain_float plain_int demo_api "c" "data/raw"
              900 (Some 420%Z) w) as [H1 H2].
  split.
  - apply H1; intros E; vm_compute in E; discriminate E.
  - apply H2. vm_compute. eauto.
Defined.

(** X6 on the run of the scenario and a file of the working directory. *)
Lemma main_writes_example :
  let w := demo_world demo_env (<["notes.txt" := Text "keep"]> matchlist_ab) in
  let w' := (main plain_float plain_int default_args w).2 in
  fs w' !! "notes.txt" = Some (Text "keep")
  /\ environ w' = demo_env.
Proof.
  intros w w'.
  assert (Hparts : parts_of (raw_dir default_args) <> []) by (vm_compute; discriminate).
  destruct (main_writes_only_its_files plain_float plain_int default_args w "notes.txt")
    as (H1 & _ & H3).
  - reflexivity.
  - reflexivity.
  - intros E. vm_compute in E. discriminate E.
  - intros match_id.
    destruct (bundle_paths_have_slash (raw_dir default_args) match_id Hparts) as [S1 S2].
    split; intros E; [rewrite <- E in S1 | rewrite <- E in S2]; discriminate.
  - split; [| exact H3]. fold w' in H1. rewrite H1. vm_compute. reflexivity.
Defined.


(** X9 on a scan that meets the 429 of match [r]: the error that leaves
    the scan is the ValueError. *)
Lemma scan_player_catches_example :
  let r := scan_player plain_float plain_int demo_api default_args (Some 420%Z) "p1" 50
             [0; 50; 100; 150]%Z empty_state demo_world_r in
  r.1 = Raise ValueError /\ is_RuntimeError ValueError = false.
Proof.
  intros r.
  assert (E : r.1 = Raise ValueError) by (vm_compute; reflexivity).
  split; [exact E |].
  exact (scan_player_catches_runtime_errors plain_float plain_int demo_api default_args
           (Some 420%Z) "p1" 50 [0; 50; 100; 150]%Z empty_state demo_world_r ValueError E).
Defined.


(** X11 on match [c] with its timeline on disk and no detail file. *)
Lemma timeline_on_disk_example :
  let w := demo_world demo_env timeline_file_c in
  let r := download_match_bundle plain_float plain_int demo_api "c" "data/raw" 900
             (Some 420%Z) w in
  r.1 = Ok (true, "stored")
  /\ bundle_complete "data/raw" "c" r.2
  /\ map call_url (calls r.2) = [match_url "c"].
Proof.
  intros w r.
  set (w1 := (get_json plain_float demo_api (match_url "c") [] 5 w).2).
  destruct (timeline_on_disk_is_not_fetched plain_float plain_int demo_api "c" "data/raw"
              900 (Some 420%Z) w (match_doc 420 1800) w1 (JInt 420) 1800
              (Doc (JObj [("frames", JArr [])]))) as (Hr & _ & Hc & Hcalls).
  - reflexivity.
  - reflexivity.
  - vm_compute. reflexivity.
  - reflexivity.
  - reflexivity.
  - reflexivity.
  - lia.
  - fold r in Hr, Hc, Hcalls. split; [rewrite Hr; reflexivity |]. split; [exact Hc |].
    rewrite Hcalls. reflexivity.
Defined.


(** X14 on the summoner [s1]: the second question is answered from the
    cache, in any world. *)
Lemma fetch_puuid_example :
  let st' := set_cache (<["s1" := JStr "p1"]> ∅) empty_state in
  (fetch_puuid plain_float demo_api "s1" empty_state (demo_world_more ∅)).1
  = Ok (JStr "p1", st')
  /\ forall w2, fetch_puuid plain_float demo_api "s1" st' w2 = (Ok (JStr "p1", st'), w2).
Proof.
  intros st'. split; [vm_compute; reflexivity |].
  apply (fetch_puuid_is_cached plain_float demo_api "s1" empty_state (demo_world_more ∅)
           (JStr "p1") st'
           (fetch_puuid plain_float demo_api "s1" empty_state (demo_world_more ∅)).2).
  - vm_compute. reflexivity.
  - reflexivity.
Defined.

(** X15 with a target of 3 and two matches on disk: the run accepts one
    match and stops. *)
Lemma target_example :
  let args := {| target_match_count := 3; matches_per_player := 50; history_window := 200;
                 max_pages_per_division := 10; raw_dir := "data/raw";
                 matchlist := "matchlist.json"; min_duration := 900; queue_id := 420 |} in
  let w := demo_world demo_env matchlist_ab in
  exists st,
    (main_collect plain_float plain_int args w).1 = Ok (inr st)
    /\ new_matches st = ["c"]
    /\ size (known_ids st) = 3%nat
    /\ (Z.of_nat (length (new_matches st)) <= 1)%Z.
Proof.
  intros args w.
  set (st := {| ordered_ids := ["a"; "b"; "c"];
                known_ids := {["c"]} ∪ list_to_set ["a"; "b"];
                new_matches := ["c"];
                skip_stats := <["duplicate_id" := 1%Z]> ∅;
                puuid_cache := ∅ |}).
  assert (Hr : main_collect plain_float plain_int args w
               = (Ok (inr st), (main_collect plain_float plain_int args w).2))
    by (vm_compute; reflexivity).
  destruct (run_accepts_up_to_target plain_float plain_int args w st _ Hr)
    as (old & Hp & Hsize & Hbound).
  assert (Hold : old = ["a"; "b"]).
  { assert (P : persisted_ids (matchlist args) w = Some ["a"; "b"]) by reflexivity.
    congruence. }
  exists st. split; [rewrite Hr; reflexivity |]. split; [reflexivity |].
  rewrite Hold in Hsize, Hbound.
  assert (Hn : size (list_to_set ["a"; "b"] : gset string) = 2%nat) by (vm_compute; reflexivity).
  rewrite Hn in Hsize, Hbound. split; [exact Hsize |]. exact Hbound.
Defined.

(** X16 on a ladder whose first page is refused: the run raises and the
    match list is the one that was there. *)
Lemma failed_run_example :
  let r := main plain_float plain_int default_args demo_world_forbidden in
  r.1 = Raise (RuntimeError (RequestFailed 403 (entries_url "I") ""))
  /\ fs r.2 !! "matchlist.json" = Some (Doc (JArr [JStr "a"; JStr "b"])).
Proof.
  intros r.
  assert (E : r.1 = Raise (RuntimeError (RequestFailed 403 (entries_url "I") "")))
    by (vm_compute; reflexivity).
  assert (Hparts : parts_of (raw_dir default_args) <> []) by (vm_compute; discriminate).
  split; [exact E |].
  change (fs (main plain_float plain_int default_args demo_world_forbidden).2
            !! matchlist default_args
          = fs demo_world_forbidden !! matchlist default_args).
  apply failed_run_keeps_match_list.
  - reflexivity.
  - intros match_id.
    destruct (bundle_paths_have_slash (raw_dir default_args) match_id Hparts) as [S1 S2].
    split; intros E'; [rewrite <- E' in S1 | rewrite <- E' in S2]; discriminate.
  - intros status H. fold r in H. rewrite E in H. discriminate H.
Defined.

(** X17 on a key read from the file. *)
Lemma api_key_example :
  let w := demo_world ∅ {[".env" := Text "RIOT_API_KEY = secret "]} in
  load_api_key "RIOT_API_KEY" ".env" w = (Ok (Some "secret"), w)
  /\ strip "secret" = "secret".
Proof.
  intros w.
  assert (E : load_api_key "RIOT_API_KEY" ".env" w = (Ok (Some "secret"), w))
    by (vm_compute; reflexivity).
  split; [exact E |].
  exact (proj1 (api_key_is_stripped "RIOT_API_KEY" ".env" w "secret" w E)).
Defined.

(** X18 on a blank variable, with a key in the file. *)
Lemma blank_key_example :
  let w := demo_world {["RIOT_API_KEY" := "  "]} {[".env" := Text "RIOT_API_KEY=secret"]} in
  scan_env_lines "RIOT_API_KEY" (splitlines "RIOT_API_KEY=secret") = Some "secret"
  /\ main plain_float plain_int default_args w = (Ok 1%Z, w).
Proof.
  intros w. split; [vm_compute; reflexivity |].
  apply (blank_environment_key_stops_the_run plain_float plain_int default_args w "  ").
  - reflexivity.
  - discriminate.
  - reflexivity.
Defined.

(** X19 on a limiter with capacities 1 and 5 that admitted a call at 0: a
    call at 1/2 sleeps once and is admitted at 120. *)
Lemma wait_sleeps_example :
  let s := Limiter._calculate_sleep (Limiter._trim_windows busy_limiter (1 # 2)) (1 # 2) in
  (s == 239 # 2)%Q
  /\ exists l', Limiter.wait busy_limiter [1 # 2; 120]%Q = Some (120%Q, l', [], [s]).
Proof.
  intros s. split; [vm_compute; reflexivity |].
  eexists. rewrite (wait_sleeps_at_most_once busy_limiter (1 # 2) 120 []).
  - reflexivity.
  - simpl. lia.
  - simpl. lia.
  - simpl. lia.
  - simpl. lia.
  - vm_compute. discriminate.
Defined.

(** X20 on the same limiter: only the one-second window is full, and the
    sleep is 119.5. *)
Lemma sleep_runs_example :
  let s := Limiter._calculate_sleep (Limiter._trim_windows busy_limiter (1 # 2)) (1 # 2) in
  exists t w,
    List.filter (Limiter.live 120 (1 # 2)) [0%Q] = t :: w
    /\ ((1 # 2) - t < 120)%Q
    /\ (120 - ((1 # 2) - t) <= s)%Q
    /\ (5 # 100 <= s <= 120)%Q.
Proof.
  intros s.
  apply (sleep_runs_to_two_minute_expiry busy_limiter [0%Q] 0 (1 # 2)
           (Limiter._trim_windows busy_limiter (1 # 2)) s).
  - constructor.
    + simpl. split; [intros u [] | exact I].
    + intros u [<- | []]. apply Qle_refl.
    + reflexivity.
    + reflexivity.
  - vm_compute. discriminate.
  - simpl. lia.
  - simpl. lia.
  - reflexivity.
Defined.

(** X21 on four calls with capacities 2 and 3: after the admissions at 0,
    0 and 1, the one-second deque holds the last one only. *)
Lemma windows_example :
  let r := Limiter.wait_calls 4 (Limiter.init 2 3) demo_clock in
  r.1 = [0; 0; 1]%Q
  /\ Limiter.second_window r.2 = List.filter (Limiter.live 1 1) [0; 0; 1]%Q
  /\ Limiter.two_minute_window r.2 = List.filter (Limiter.live 120 1) [0; 0; 1]%Q
  /\ (Z.of_nat (length (Limiter.second_window r.2)) <= 2)%Z.
Proof.
  intros r. split; [reflexivity |].
  destruct (windows_hold_live_admissions 2 3 4 demo_clock) as (E1 & E2 & L1 & _).
  - lia.
  - lia.
  - simpl. repeat split; intros u Hu; simpl in Hu;
      repeat (destruct Hu as [<- | Hu]; [unfold Qle; simpl; lia |]); destruct Hu.
  - split; [exact E1 |]. split; [exact E2 | exact L1].
Defined.
